(** * platform_cli.config: the configuration resolver of a server platform

    A shallow embedding of [src/platform_cli/config.py] and a verification of
    the properties its specification states about it.

    Python 2 [str] values are byte strings, embedded as [string] (lists of
    8-bit [ascii]); Python [dict]s are embedded as [gmap]s; named tuples as
    records; exceptions as the [Raise] outcome of a small state-and-exception
    monad over an explicit world (store files, locks, console). *)

From Stdlib Require Import Ascii QArith.
From stdpp Require Import gmap strings list fin_maps sorting.

#[local] Set Warnings "-clear-no-such-hyp".

(** ** Byte strings *)

(** Python's [needle in hay] on [str]: [needle] occurs in [hay] as a
    contiguous substring. *)
Fixpoint contains (needle hay : string) : bool :=
  String.prefix needle hay ||
  match hay with
  | "" => false
  | String _ rest => contains needle rest
  end.

(** Python's [name.split('.')[0]]: the text before the first dot, or the whole
    string when it holds no dot. *)
Fixpoint first_segment (name : string) : string :=
  match name with
  | "" => ""
  | String c rest =>
      if decide (c = "."%char) then "" else String c (first_segment rest)
  end.

(** Python's [c * n] for a one-character string [c]. *)
Fixpoint repeat_char (c : ascii) (n : nat) : string :=
  match n with
  | 0 => ""
  | S k => String c (repeat_char c k)
  end.

Definition is_upper (c : ascii) : bool :=
  let n := nat_of_ascii c in (65 <=? n)%nat && (n <=? 90)%nat.
Definition is_lower (c : ascii) : bool :=
  let n := nat_of_ascii c in (97 <=? n)%nat && (n <=? 122)%nat.
Definition to_upper (c : ascii) : ascii :=
  if is_lower c then ascii_of_nat (nat_of_ascii c - 32) else c.
Definition to_lower (c : ascii) : ascii :=
  if is_upper c then ascii_of_nat (nat_of_ascii c + 32) else c.

(** Python 2's [str.title()] in the C locale: a cased character is upper-cased
    when it follows an uncased one (or starts the string) and lower-cased when
    it follows a cased one. *)
Fixpoint title_go (previous_is_cased : bool) (s : string) : string :=
  match s with
  | "" => ""
  | String c rest =>
      if is_lower c || is_upper c
      then String (if previous_is_cased then to_lower c else to_upper c)
                  (title_go true rest)
      else String c (title_go false rest)
  end.
Definition title (s : string) : string := title_go false s.

(** The double-quote character, which the messages of [set_var] and
    [delete_var] put around the key, and the newline character. *)
Definition dquote : string :=
  String (Ascii false true false false false true false false) "".
Definition newline : string :=
  String (Ascii false true false true false false false false) "".

(** Python's [sorted] on a list of [str]: ascending in the byte-wise
    lexicographic order. *)
Definition sorted (l : list string) : list string := merge_sort String.le l.

(** Python's [l.remove(x)]: the list without the first occurrence of [x];
    [None] stands for the [ValueError] raised when [x] does not occur. *)
Fixpoint list_remove (x : string) (l : list string) : option (list string) :=
  match l with
  | [] => None
  | y :: rest => if decide (y = x) then Some rest else (y ::.) <$> list_remove x rest
  end.

(** ** The named tuples of config.py *)

Record Default := mkDefault { default_name : string; default_value : string }.
Record Override := mkOverride { override_name : string; override_value : string }.
Record Suggestion := mkSuggestion
  { suggestion_name : string; suggestion_value : string; suggestion_why : string }.
Record Doc := mkDoc { doc_name : string; doc_doc : string }.

Global Instance Default_eq_dec : EqDecision Default.
Proof. solve_decision. Defined.
Global Instance Override_eq_dec : EqDecision Override.
Proof. solve_decision. Defined.
Global Instance Suggestion_eq_dec : EqDecision Suggestion.
Proof. solve_decision. Defined.
Global Instance Doc_eq_dec : EqDecision Doc.
Proof. solve_decision. Defined.

(** The attribute [var.name], which every one of the four tuples has. *)
Class Named (A : Type) := name : A → string.
Global Instance Default_named : Named Default := default_name.
Global Instance Override_named : Named Override := override_name.
Global Instance Suggestion_named : Named Suggestion := suggestion_name.
Global Instance Doc_named : Named Doc := doc_name.

(** ** The module's exception

    [class Error(Exception)] is the only exception class config.py declares;
    [validate_and_map_by_name] raises it with three different messages. The
    message is kept in structured form: which of the three texts it is and the
    values formatted into it. *)
Inductive Error (A : Type) : Type :=
  | Invalid_triple_underscore (var_name : string)
      (* 'Invalid variable name "{}": contains "___".' *)
  | Invalid_space (var_name : string)
      (* 'Invalid variable name "{}": contains " ".' *)
  | Duplicate_name (var previous : A).
      (* 'Duplicate variable name.\n{} duplicates {}.' *)
Global Arguments Invalid_triple_underscore {A} var_name.
Global Arguments Invalid_space {A} var_name.
Global Arguments Duplicate_name {A} var previous.

Inductive result (E A : Type) : Type :=
  | Ok (a : A)
  | Err (e : E).
Global Arguments Ok {E A} a.
Global Arguments Err {E A} e.

(** ** validate_and_map_by_name (config.py, lines 49-66) *)

(** The body of the [for var in variables] loop, with the dictionary built so
    far. *)
Fixpoint validate_loop {A} `{Named A} (variables : list A)
    (vars_by_name : gmap string A) : result (Error A) (gmap string A) :=
  match variables with
  | [] => Ok vars_by_name
  | var :: rest =>
      if contains "___" (name var) then Err (Invalid_triple_underscore (name var))
      else if contains " " (name var) then Err (Invalid_space (name var))
      else match vars_by_name !! name var with
           | Some previous => Err (Duplicate_name var previous)
           | None => validate_loop rest (<[name var := var]> vars_by_name)
           end
  end.

Definition validate_and_map_by_name {A} `{Named A} (variables : list A)
    : result (Error A) (gmap string A) :=
  validate_loop variables ∅.

(** ** Exceptions, the world and the monad of effects *)

(** Any of the four named tuples, as the duplicate-name message formats it. *)
Inductive record : Type :=
  | RDefault (d : Default)
  | ROverride (o : Override)
  | RSuggestion (s : Suggestion)
  | RDoc (d : Doc).

Class Tuple (A : Type) := { Tuple_named :: Named A; to_record : A → record }.
Global Instance Default_tuple : Tuple Default := {| to_record := RDefault |}.
Global Instance Override_tuple : Tuple Override := {| to_record := ROverride |}.
Global Instance Suggestion_tuple : Tuple Suggestion := {| to_record := RSuggestion |}.
Global Instance Doc_tuple : Tuple Doc := {| to_record := RDoc |}.

Definition Error_map {A B} (f : A → B) (e : Error A) : Error B :=
  match e with
  | Invalid_triple_underscore n => Invalid_triple_underscore n
  | Invalid_space n => Invalid_space n
  | Duplicate_name var previous => Duplicate_name (f var) (f previous)
  end.

Inductive io_failure : Type :=
  | LockUnavailable
  | NoSuchFile
  | FileUnreadable
  | FileUnwritable.

(** What a call can raise: the module's own [Error], the built-in exceptions
    of the statements config.py executes ([list.remove], [dict[key]],
    [sys.exit]) and the failures of the collaborating modules. *)
Inductive Exn : Type :=
  | ConfigError (e : Error record)
  | TemplateCycleError (names : list string)
  | IOError (f : io_failure)
  | ValueError
  | KeyError (key : string)
  | SystemExit (status : Z).

Inductive outcome (A : Type) : Type :=
  | Ret (a : A)
  | Raise (e : Exn).
Global Arguments Ret {A} a.
Global Arguments Raise {A} e.

(** An input/output step either works or fails; a failing write has already
    put [written] entries into the file it was writing. *)
Inductive fault : Type :=
  | Works
  | Fails (written : nat).

Inductive Event : Type :=
  | Acquired (path : string)
  | Released (path : string)
  | Created (path : string)
  | Loaded (path : string)
  | Stored (path : string)
  | Renamed (source target : string)
  | Paged (text : string).

Record World := mkWorld {
  files : gmap string (list (string * string));
                                (* the file system: path to name/value entries *)
  locks : gset string;          (* the paths whose lock is held *)
  faults : list fault;          (* what the coming input/output steps do *)
  events : list Event;          (* what has happened, oldest first *)
  console : list string         (* the lines written by [puts] *)
}.

Definition M (A : Type) : Type := World → outcome A * World.

Definition ret {A} (a : A) : M A := λ w, (Ret a, w).
Definition raise {A} (e : Exn) : M A := λ w, (Raise e, w).
Definition bind {A B} (c : M A) (k : A → M B) : M B := λ w,
  match c w with
  | (Ret a, w') => k a w'
  | (Raise e, w') => (Raise e, w')
  end.

Notation "x <- c ;; k" := (bind c (λ x, k))
  (at level 100, c at next level, right associativity).
Notation "c ;; k" := (bind c (λ _, k))
  (at level 100, right associativity).

(** A pure computation that may fail with the module's [Error]. *)
Definition lift {A B} `{Tuple A} (r : result (Error A) B) : M B :=
  match r with
  | Ok b => ret b
  | Err e => raise (ConfigError (Error_map to_record e))
  end.

Definition get_world : M World := λ w, (Ret w, w).
Definition set_files (f : gmap string (list (string * string)) → gmap string (list (string * string))) : M unit := λ w,
  (Ret tt, mkWorld (f (files w)) (locks w) (faults w) (events w) (console w)).
Definition set_locks (f : gset string → gset string) : M unit := λ w,
  (Ret tt, mkWorld (files w) (f (locks w)) (faults w) (events w) (console w)).
Definition log (e : Event) : M unit := λ w,
  (Ret tt, mkWorld (files w) (locks w) (faults w) (events w ++ [e]) (console w)).
Definition next_fault : M fault := λ w,
  match faults w with
  | [] => (Ret Works, w)
  | f :: rest => (Ret f, mkWorld (files w) (locks w) rest (events w) (console w))
  end.

(** clint's [puts]: one more line on the console. *)
Definition puts (line : string) : M unit := λ w,
  (Ret tt, mkWorld (files w) (locks w) (faults w) (events w) (console w ++ [line])).

(** A [for] loop over a list, run for its effects. *)
Fixpoint for_each {A} (l : list A) (body : A → M unit) : M unit :=
  match l with
  | [] => ret tt
  | x :: rest => body x ;; for_each rest body
  end.

(** Python's [with cm: body]: [__enter__] runs first and, when it raises, the
    body does not run and [__exit__] is not called; otherwise [__exit__] runs
    on every way out of the body, and the body's result or exception is
    passed on. *)
Record ContextManager := { enter__ : M unit; exit__ : M unit }.

Definition with_ {A} (cm : ContextManager) (body : M A) : M A := λ w,
  match enter__ cm w with
  | (Raise e, w1) => (Raise e, w1)
  | (Ret _, w1) =>
      let '(r, w2) := body w1 in
      match exit__ cm w2 with
      | (Raise e, w3) => (Raise e, w3)
      | (Ret _, w3) => (r, w3)
      end
  end.

(** ** template.py *)

Module template.

(** The text before the first [}}] of [s], when there is one. *)
Fixpoint until_close (s : string) : option string :=
  match s with
  | "" => None
  | String c rest =>
      if String.prefix "}}" s then Some "" else String c <$> until_close rest
  end.

(** The name [k] when [s] starts with the reference [{{k}}]. *)
Definition reference_at (s : string) : option string :=
  match s with
  | String "{" (String "{" body) => until_close body
  | _ => None
  end.

(** One left-to-right scan of a value: a reference to a name of the mapping
    is replaced by that name's value; a reference to an unknown name is
    left as it is. [skip] counts the characters of a replaced reference
    still to be dropped. *)
Fixpoint render_go (m : gmap string string) (skip : nat) (s : string) : string :=
  match s with
  | "" => ""
  | String c rest =>
      match skip with
      | S k => render_go m k rest
      | 0 =>
          match reference_at s ≫= (λ key, pair key <$> m !! key) with
          | Some (key, value) => value +:+ render_go m (String.length key + 3) rest
          | None => String c (render_go m 0 rest)
          end
      end
  end.

Definition render_string (m : gmap string string) (s : string) : string :=
  render_go m 0 s.

(** Some position of [s] starts a reference to a name of the mapping. *)
Fixpoint refers_to_known (m : gmap string string) (s : string) : bool :=
  match s with
  | "" => false
  | String _ rest =>
      match reference_at s with
      | Some key => bool_decide (is_Some (m !! key))
      | None => false
      end || refers_to_known m rest
  end.

Definition render_pass (m : gmap string string) : gmap string string :=
  render_string m <$> m.

(** Passes are repeated until one changes nothing, at most [fuel] times. *)
Fixpoint render_passes (fuel : nat) (m : gmap string string) : gmap string string :=
  match fuel with
  | 0 => m
  | S k =>
      let m' := render_pass m in
      if decide (m' = m) then m else render_passes k m'
  end.

(** The names whose value still refers to a name of the mapping. *)
Definition unresolved (m : gmap string string) : list string :=
  (map_to_list (filter (λ kv, refers_to_known m kv.2 = true) m)).*1.

(** Modelled from the spec: template.py is not among the sources. The
    spec's Template Engine (section 4.2) takes the assembled name to value
    mapping and returns a new mapping with the same names in which the
    [{{name}}] references are replaced by the referenced values, by textual
    substitution. Of the choices the spec leaves to the engine this model
    takes: a reference to an unknown name is left unexpanded; passes are
    iterated to a fixed point (a chain of n names settles in fewer than n
    passes); references that remain to names of the mapping after that are
    circular and fail with [TemplateCycleError], naming the variables
    involved. The input mapping is not changed. *)
Definition render_values_in_template_map (template_map : gmap string string)
    : outcome (gmap string string) :=
  let rendered := render_passes (size template_map) template_map in
  match unresolved rendered with
  | [] => Ret rendered
  | names => Raise (TemplateCycleError names)
  end.

End template.

(** ** protected_file_path.py *)

Module protected_file_path.

Definition acquire (path : string) : M unit :=
  w <- get_world ;;
  if decide (path ∈ locks w) then raise (IOError LockUnavailable)
  else set_locks (λ held, {[path]} ∪ held) ;; log (Acquired path).

Definition release (path : string) : M unit :=
  set_locks (λ held, held ∖ {[path]}) ;; log (Released path).

(** Modelled from the spec: protected_file_path.py is not among the
    sources. The spec's Override Store (sections 4.3 and 5) guards the store
    file with an exclusive lock as a scoped acquisition: entering takes the
    lock of the path, leaving releases it. The reference behaviour waits
    until the lock is free; a call that finds the lock held by someone else
    and never gets it is represented here by the failure [LockUnavailable]
    (the spec's "lock unavailable" store failure, section 7), raised before
    anything is read or written. *)
Definition ProtectedFilePath (path : string) : ContextManager :=
  {| enter__ := acquire path; exit__ := release path |}.

End protected_file_path.

(** ** props.py *)

Module props.

(** The temporary location an atomic replace writes to. *)
Definition temporary (path : string) : string := path +:+ ".tmp".

Definition by_name (x y : string * string) : Prop := String.le x.1 y.1.

Definition create_empty (path : string) : M unit :=
  f <- next_fault ;;
  match f with
  | Works => set_files (insert path []) ;; log (Created path)
  | Fails _ => raise (IOError FileUnwritable)
  end.

Definition read (path : string) : M (list (string * string)) :=
  f <- next_fault ;;
  match f with
  | Works =>
      w <- get_world ;;
      match files w !! path with
      | Some entries => log (Loaded path) ;; ret entries
      | None => raise (IOError NoSuchFile)
      end
  | Fails _ => raise (IOError FileUnreadable)
  end.

(** A failing write leaves the entries it had already written. *)
Definition write (path : string) (entries : list (string * string)) : M unit :=
  f <- next_fault ;;
  match f with
  | Works => set_files (insert path entries) ;; log (Stored path)
  | Fails written =>
      set_files (insert path (take written entries)) ;;
      raise (IOError FileUnwritable)
  end.

Definition rename (source target : string) : M unit :=
  f <- next_fault ;;
  match f with
  | Works =>
      w <- get_world ;;
      match files w !! source with
      | Some entries =>
          set_files (λ fs, <[target := entries]> (delete source fs)) ;;
          log (Renamed source target)
      | None => raise (IOError NoSuchFile)
      end
  | Fails _ => raise (IOError FileUnwritable)
  end.

(** Reading the store, creating it empty first when it does not exist. *)
Definition load (path : string) (create_new : bool) : M (list (string * string)) :=
  w <- get_world ;;
  (if decide (is_Some (files w !! path)) then ret tt
   else if create_new then create_empty path
   else raise (IOError NoSuchFile)) ;;
  read path.

(** Atomic replace: the entries, sorted by name, are written to a temporary
    location which is then renamed over the store. *)
Definition replace (path : string) (entries : list (string * string)) : M unit :=
  write (temporary path) (merge_sort by_name entries) ;;
  rename (temporary path) path.

(** The stored value of [key] rewritten, or the pair added when the store
    has no entry of that name. *)
Definition with_key (key value : string) (entries : list (string * string))
    : list (string * string) :=
  if decide (key ∈ entries.*1)
  then (λ entry, if decide (entry.1 = key) then (key, value) else entry) <$> entries
  else entries ++ [(key, value)].

Definition without_key (key : string) (entries : list (string * string))
    : list (string * string) :=
  filter (λ entry, entry.1 ≠ key) entries.

(** Modelled from the spec: props.py is not among the sources. The spec's
    Override Store (sections 4.3 and 6): [list] reads the entries of the
    file, creating the file empty first when it does not exist. The text
    format of the file (one name=value line per entry) is left out: a file
    holds its sequence of entries. The two agree on the entries that are
    [storable] (see the persisted format below), which the file gives back
    as they were written. *)
Definition get_items (path : string) (create_new : bool)
    : M (list (string * string)) :=
  load path create_new.

(** Modelled from the spec: props.py is not among the sources. The spec's
    Override Store (section 4.3): [set] rewrites the stored value for the
    name, inserting it when absent, and replaces the file atomically: it
    writes to a temporary location, then renames over the original. Entries
    are stored sorted by name. *)
Definition set_key (path key value : string) (create_new : bool) : M unit :=
  entries <- load path create_new ;;
  replace path (with_key key value entries).

(** Modelled from the spec: props.py is not among the sources. The spec's
    Override Store (section 4.3): [delete] removes the key if present, and
    it is no error when the key is absent. *)
Definition delete_key (path key : string) (create_new : bool) : M unit :=
  entries <- load path create_new ;;
  replace path (without_key key entries).

End props.

(** ** difflib (Python 2.7 standard library) *)

Module difflib.

Section SequenceMatcher.

(** [SequenceMatcher(None, a, b)]: no junk predicate, [autojunk] on. *)
Variables a b : list ascii.

(** [__chain_b]: for each element of [b] the increasing list of the
    indices it occurs at. When [b] has 200 elements or more, the elements
    occurring more than [n // 100 + 1] times are purged as popular. *)
Definition b2j : gmap ascii (list nat) :=
  let indices :=
    foldl (λ (acc : gmap ascii (list nat)) '(i, elt),
             <[elt := default [] (acc !! elt) ++ [i]]> acc)
          ∅ (imap pair b) in
  let n := length b in
  if decide (200 ≤ n)
  then filter (λ kv, length kv.2 ≤ Nat.div n 100 + 1) indices
  else indices.

(** The loop [for j in b2j.get(a[i], nothing)] of [find_longest_match]:
    [continue] below [blo], [break] from [bhi] on. [j2len.get(j-1, 0)] is
    0 for [j = 0], no key being negative. *)
Fixpoint row (js : list nat) (blo bhi i : nat) (j2len newj2len : gmap nat nat)
    (best : nat * nat * nat) : gmap nat nat * (nat * nat * nat) :=
  match js with
  | [] => (newj2len, best)
  | j :: rest =>
      if decide (j < blo) then row rest blo bhi i j2len newj2len best
      else if decide (bhi ≤ j) then (newj2len, best)
      else
        let k := match j with
                 | 0 => 0
                 | S j' => default 0 (j2len !! j')
                 end + 1 in
        row rest blo bhi i j2len (<[j := k]> newj2len)
            (if decide (best.2 < k) then (i + 1 - k, j + 1 - k, k) else best)
  end.

(** The loop [for i in xrange(alo, ahi)]. *)
Definition rows (alo ahi blo bhi : nat) : nat * nat * nat :=
  (foldl (λ '(j2len, best) i,
            row (default [] (a !! i ≫= (b2j !!.))) blo bhi i j2len ∅ best)
         (∅, (alo, blo, 0)) (seq alo (ahi - alo))).2.

(** [while besti > alo and bestj > blo and a[besti-1] == b[bestj-1]]; the
    loop ends within [besti - alo] rounds, the value [fuel] starts at. *)
Fixpoint extend_left (fuel alo blo : nat) (best : nat * nat * nat) : nat * nat * nat :=
  match fuel with
  | 0 => best
  | S fuel' =>
      let '(besti, bestj, bestsize) := best in
      if decide (alo < besti ∧ blo < bestj ∧
                 is_Some (a !! (besti - 1)) ∧
                 a !! (besti - 1) = b !! (bestj - 1))
      then extend_left fuel' alo blo (besti - 1, bestj - 1, bestsize + 1)
      else best
  end.

(** [while besti+bestsize < ahi and bestj+bestsize < bhi and
    a[besti+bestsize] == b[bestj+bestsize]]; it ends within
    [ahi - (besti+bestsize)] rounds. *)
Fixpoint extend_right (fuel ahi bhi : nat) (best : nat * nat * nat) : nat * nat * nat :=
  match fuel with
  | 0 => best
  | S fuel' =>
      let '(besti, bestj, bestsize) := best in
      if decide (besti + bestsize < ahi ∧ bestj + bestsize < bhi ∧
                 is_Some (a !! (besti + bestsize)) ∧
                 a !! (besti + bestsize) = b !! (bestj + bestsize))
      then extend_right fuel' ahi bhi (besti, bestj, bestsize + 1)
      else best
  end.

(** [find_longest_match(alo, ahi, blo, bhi)]. The two loops that extend
    the match by junk elements never run: nothing is junk. *)
Definition find_longest_match (alo ahi blo bhi : nat) : nat * nat * nat :=
  let best := rows alo ahi blo bhi in
  let best := extend_left (best.1.1 - alo) alo blo best in
  extend_right (ahi - (best.1.1 + best.2)) ahi bhi best.

(** The loop [while queue] of [get_matching_blocks]; the head of [queue]
    is the element [queue.pop()] takes. [None] when [fuel] rounds do not
    empty the queue. *)
Fixpoint matching_loop (fuel : nat) (queue : list (nat * nat * nat * nat))
    (matching_blocks : list (nat * nat * nat)) : option (list (nat * nat * nat)) :=
  match fuel with
  | 0 => None
  | S fuel' =>
      match queue with
      | [] => Some matching_blocks
      | (alo, ahi, blo, bhi) :: queue =>
          let '(i, j, k) := find_longest_match alo ahi blo bhi in
          if decide (k = 0) then matching_loop fuel' queue matching_blocks
          else
            let queue :=
              if decide (alo < i ∧ blo < j) then (alo, i, blo, j) :: queue
              else queue in
            let queue :=
              if decide (i + k < ahi ∧ j + k < bhi)
              then (i + k, ahi, j + k, bhi) :: queue
              else queue in
            matching_loop fuel' queue (matching_blocks ++ [(i, j, k)])
      end
  end.

(** The blocks [get_matching_blocks] finds, before it sorts them, joins
    adjacent ones and adds the closing [(la, lb, 0)]: steps that leave the
    sum of the sizes as it is. Every round but the last takes a range off
    the queue, so [2 * la + 2] rounds are enough ([matching_loop_enough]
    below). *)
Definition matching_blocks : list (nat * nat * nat) :=
  default [] (matching_loop (2 * length a + 2) [(0, length a, 0, length b)] []).

(** [_calculate_ratio(matches, length)]: [2.0 * matches / length], or
    [1.0] for two empty sequences, as an exact rational. *)
Definition calculate_ratio (matches len : nat) : Q :=
  match len with
  | 0 => 1%Q
  | _ => (Z.of_nat (2 * matches) # Pos.of_nat len)%Q
  end.

Definition ratio : Q :=
  calculate_ratio (sum_list (snd <$> matching_blocks)) (length a + length b).

(** [quick_ratio]: the size of the multiset intersection of the two
    sequences. [avail[elt]] counts down below zero. *)
Definition fullbcount : gmap ascii nat :=
  foldl (λ (acc : gmap ascii nat) elt, <[elt := default 0 (acc !! elt) + 1]> acc) ∅ b.

Definition quick_ratio : Q :=
  let '(_, matches) :=
    foldl (λ '(avail, matches) elt,
             let numb : Z :=
               match (avail : gmap ascii Z) !! elt with
               | Some numb => numb
               | None => Z.of_nat (default 0 (fullbcount !! elt))
               end in
             (<[elt := (numb - 1)%Z]> avail,
              if decide (0 < numb)%Z then matches + 1 else matches))
          (∅, 0) a in
  calculate_ratio matches (length a + length b).

Definition real_quick_ratio : Q :=
  calculate_ratio (length a `min` length b) (length a + length b).

End SequenceMatcher.

(** The order of the tuples [(score, x)] that [heapq.nlargest] sorts by,
    largest first: by score, then by the string. *)
Definition larger (p q : Q * string) : Prop :=
  match (q.1 ?= p.1)%Q with
  | Lt => True
  | Eq => String.le q.2 p.2
  | Gt => False
  end.

Global Instance larger_dec : RelDecision larger.
Proof. intros p q. unfold larger. destruct (q.1 ?= p.1)%Q; apply _. Defined.

(** [heapq.nlargest(n, result)], which is [sorted(result, reverse=True)[:n]]. *)
Definition nlargest (n : nat) (result : list (Q * string)) : list (Q * string) :=
  take n (merge_sort larger result).

Definition cutoff : Q := (6 # 10)%Q.

(** Modelled from the spec: difflib is Python's standard library, not code
    among the sources. [get_close_matches(word, possibilities)] with its
    default arguments [n=3] and [cutoff=0.6], the values the spec's Typo
    Suggester (section 4.5) names: the possibilities whose similarity ratio
    to the word is at least the cutoff, the best three, best first. The
    ratio is that of [SequenceMatcher]: twice the number of characters in
    the matching blocks over the sum of the two lengths. Scores are exact
    rationals where Python has floats. *)
Definition get_close_matches (word : string) (possibilities : list string)
    : list string :=
  let b := String.list_ascii_of_string word in
  let result :=
    omap (λ x,
            let a := String.list_ascii_of_string x in
            if Qle_bool cutoff (real_quick_ratio a b) &&
               Qle_bool cutoff (quick_ratio a b) &&
               Qle_bool cutoff (ratio a b)
            then Some (ratio a b, x)
            else None)
         possibilities in
  snd <$> nlargest 3 result.

End difflib.

(** ** class Config (config.py, lines 69-209) *)

Record Config := mkConfig {
  config_path : string;
  defaults : list Default;
  suggestions : list Suggestion;
  docs : list Doc
}.

(** [Config.__init__]: an argument left as [None] becomes the empty list. *)
Definition Config_init (config_path : string) (defaults : option (list Default))
    (suggestions : option (list Suggestion)) (docs : option (list Doc)) : Config :=
  mkConfig config_path (default [] defaults) (default [] suggestions) (default [] docs).

(** The attributes of the parsed command line that the methods read. *)
Record Args := mkArgs {
  service_name : string;
  property_name : string;
  property_value : string
}.

Definition of_outcome {A} (r : outcome A) : M A := λ w, (r, w).

(** Python's [d[key]], which raises [KeyError] for a missing key. *)
Definition getitem {A} (d : gmap string A) (key : string) : M A :=
  match d !! key with
  | Some v => ret v
  | None => raise (KeyError key)
  end.

(** A [for] loop over a list that updates a local variable. *)
Fixpoint fold_for {A S} (l : list A) (body : S → A → M S) (s : S) : M S :=
  match l with
  | [] => ret s
  | x :: rest => s' <- body s x ;; fold_for rest body s'
  end.

(** [get_overrides], lines 143-147. *)
Definition get_overrides (self : Config) : M (list Override) :=
  conf_items <- with_ (protected_file_path.ProtectedFilePath (config_path self))
                      (props.get_items (config_path self) true) ;;
  ret ((λ '(name, value), mkOverride name value) <$> conf_items).

(** [delete_override], lines 149-152. *)
Definition delete_override (self : Config) (key : string) : M unit :=
  with_ (protected_file_path.ProtectedFilePath (config_path self))
        (props.delete_key (config_path self) key true).

(** [set_override], lines 154-157. *)
Definition set_override (self : Config) (key value : string) : M unit :=
  with_ (protected_file_path.ProtectedFilePath (config_path self))
        (props.set_key (config_path self) key value true).

(** [exit_on_unknown_key], lines 129-141. [with indent(4)] puts four spaces
    before each line written inside it. *)
Definition exit_on_unknown_key (self : Config) (key message : string) : M unit :=
  let default_names := default_name <$> defaults self in
  if decide (key ∉ default_names) then
    puts message ;;
    let close_matches := difflib.get_close_matches key default_names in
    (match close_matches with
     | [] => ret tt
     | _ =>
         puts "Did you mean:" ;;
         for_each close_matches (λ match_, puts ("    " +:+ match_)) ;;
         puts "?"
     end) ;;
    raise (SystemExit 1)
  else ret tt.

(** [enable] and [disable], lines 102-108. *)
Definition enable (self : Config) (args : Args) : M unit :=
  set_override self (service_name args +:+ ".enabled") "True".

Definition disable (self : Config) (args : Args) : M unit :=
  delete_override self (service_name args +:+ ".enabled").

(** [set_var] and [delete_var], lines 110-127. *)
Definition set_var (self : Config) (args : Args) : M unit :=
  exit_on_unknown_key self (property_name args)
    ("Error: Can't set override value for " +:+ dquote +:+ property_name args
       +:+ dquote +:+ " because it is an unknown variable name.") ;;
  set_override self (property_name args) (property_value args).

Definition delete_var (self : Config) (args : Args) : M unit :=
  exit_on_unknown_key self (property_name args)
    ("Error: Can't delete override value for " +:+ dquote +:+ property_name args
       +:+ dquote +:+ " because it is an unknown variable name.") ;;
  delete_override self (property_name args).

(** The loop of lines 170-176 over [defaults_by_name.iteritems()]; the order
    Python visits the names in does not matter, each round writing only under
    its own name. *)
Definition merge_defaults (defaults_by_name : gmap string Default)
    (overrides_by_name : gmap string Override)
    : gmap string string * gmap string Default :=
  map_fold
    (λ name default '(active_values, different_defaults),
       match overrides_by_name !! name with
       | Some override =>
           if decide (override_value override ≠ default_value default)
           then (<[name := override_value override]> active_values,
                 <[name := default]> different_defaults)
           else (<[name := default_value default]> active_values, different_defaults)
       | None => (<[name := default_value default]> active_values, different_defaults)
       end)
    (∅, ∅) defaults_by_name.

(** The loop of lines 178-181 over [active_values.iteritems()]. *)
Definition differing_suggestions (active_values : gmap string string)
    (suggestions_by_name : gmap string Suggestion) : gmap string Suggestion :=
  map_fold
    (λ name value different_suggestions,
       match suggestions_by_name !! name with
       | Some suggestion =>
           if decide (suggestion_value suggestion ≠ value)
           then <[name := suggestion]> different_suggestions
           else different_suggestions
       | None => different_suggestions
       end)
    ∅ active_values.

(** The loop of lines 190-193 over the names of [docs_by_name]. *)
Definition names_by_category (docs_by_name : gmap string Doc)
    : gmap string (list string) :=
  map_fold
    (λ name _ (acc : gmap string (list string)),
       let category := first_segment name in
       <[category := default [] (acc !! category) ++ [name]]> acc)
    ∅ docs_by_name.

(** Lines 194-196: the sorted categories, ["main"] moved to the front. *)
Definition categories_of (names_by_category : gmap string (list string))
    : outcome (list string) :=
  match list_remove "main" (sorted (map_to_list names_by_category).*1) with
  | Some categories => Ret ("main" :: categories)
  | None => Raise ValueError
  end.

Section Collaborators.

(** [template.render_values_in_template_map]: template.py is not among the
    sources, and the resolver is stated for any engine. *)
Variable render_values_in_template_map :
  gmap string string → outcome (gmap string string).

(** [textwrap.wrap] of the standard library, which breaks a documentation
    text into lines. *)
Variable wrap : string → list string.

(** [get_active_values_and_metadata], lines 159-182. *)
Definition get_active_values_and_metadata (self : Config)
    : M (gmap string string * gmap string Suggestion * gmap string Default) :=
  defaults_by_name <- lift (validate_and_map_by_name (defaults self)) ;;
  overrides <- get_overrides self ;;
  overrides_by_name <- lift (validate_and_map_by_name overrides) ;;
  suggestions_by_name <- lift (validate_and_map_by_name (suggestions self)) ;;
  let '(active_values, different_defaults) :=
    merge_defaults defaults_by_name overrides_by_name in
  active_values <- of_outcome (render_values_in_template_map active_values) ;;
  let different_suggestions :=
    differing_suggestions active_values suggestions_by_name in
  ret (active_values, different_suggestions, different_defaults).

(** The body of the loop [for name in sorted(names_by_category[category])],
    lines 201-203. *)
Definition show_name (defaults_by_name : gmap string Default)
    (docs_by_name : gmap string Doc) (output : list string) (name : string)
    : M (list string) :=
  let output := output ++ ["    " +:+ name] in
  doc <- getitem docs_by_name name ;;
  let output := output ++ ((λ line, "        " +:+ line) <$> wrap (doc_doc doc)) in
  default <- getitem defaults_by_name name ;;
  ret (output ++ ["            Default: " +:+ default_value default +:+ newline]).

(** The body of the loop [for category in categories], lines 198-204. *)
Definition show_category (defaults_by_name : gmap string Default)
    (docs_by_name : gmap string Doc) (names : gmap string (list string))
    (output : list string) (category : string) : M (list string) :=
  let output :=
    output ++ [title category; repeat_char "-" (String.length category)] in
  names_in_category <- getitem names category ;;
  output <- fold_for (sorted names_in_category)
                     (show_name defaults_by_name docs_by_name) output ;;
  ret (output ++ [newline]).

(** [show_docs], lines 184-209. The text is handed to the pager [less]; a
    keyboard interrupt while the pager runs is not part of the model. *)
Definition show_docs (self : Config) : M unit :=
  defaults_by_name <- lift (validate_and_map_by_name (defaults self)) ;;
  docs_by_name <- lift (validate_and_map_by_name (docs self)) ;;
  let names := names_by_category docs_by_name in
  categories <- of_outcome (categories_of names) ;;
  output <- fold_for categories
                     (show_category defaults_by_name docs_by_name names) [] ;;
  log (Paged (String.concat newline output)).

End Collaborators.

(** ** The vocabulary of the specification *)

(** [needle] occurs in [hay]. *)
Definition occurs_in (needle hay : string) : Prop :=
  ∃ before after, hay = before +:+ needle +:+ after.

(** Invariants 2 and 3 of the data model, negated: the name contains a space
    or three consecutive underscores. *)
Definition invalid_name (n : string) : Prop :=
  occurs_in "___" n ∨ occurs_in " " n.

(** A well-formed collection: valid names, no name twice. *)
Definition well_formed {A} `{Named A} (l : list A) : Prop :=
  (∀ x, x ∈ l → ¬ invalid_name (name x)) ∧ NoDup (name <$> l).

(** The entries of the store at [path]; a store file that does not exist is
    an empty store. *)
Definition stored (w : World) (path : string) : list (string * string) :=
  default [] (files w !! path).

(** The override that wins over a default: the one of the same name, when it
    exists and its value differs from the default's. *)
Definition winning (override : option Override) (default : Default) : option Override :=
  match override with
  | Some o => if decide (override_value o ≠ default_value default) then Some o else None
  | None => None
  end.

(** The events of the lock, as opposed to those of the files. *)
Definition is_lock_event (e : Event) : Prop :=
  match e with
  | Acquired _ | Released _ => True
  | _ => False
  end.


(** A computation that touches neither the locks nor the console and adds
    only file events. *)
Definition io_only {A} (c : M A) : Prop :=
  ∀ w r w', c w = (r, w') →
    locks w' = locks w ∧ console w' = console w ∧
    ∃ evs, events w' = events w ++ evs ∧ Forall (λ e, ¬ is_lock_event e) evs.

(** The dictionary the validator is building maps the names seen so far to
    their records. *)
Definition maps_names {A} `{Named A} (seen : list A) (m : gmap string A) : Prop :=
  ∀ n r, m !! n = Some r ↔ r ∈ seen ∧ name r = n.

(** The world once the lock of [path] has been taken, and once it has been
    released. *)
Definition locked (path : string) (w : World) : World :=
  mkWorld (files w) ({[path]} ∪ locks w) (faults w)
          (events w ++ [Acquired path]) (console w).

Definition unlocked (path : string) (w : World) : World :=
  mkWorld (files w) (locks w ∖ {[path]}) (faults w)
          (events w ++ [Released path]) (console w).

(** The overrides the store of the configuration holds in world [w]. *)
Definition stored_overrides (self : Config) (w : World) : list Override :=
  (λ '(name, value), mkOverride name value) <$> stored w (config_path self).

(** A mapping is fully substituted when no value holds a reference to a name
    of the mapping any more. *)
Definition fully_substituted (m : gmap string string) : Prop :=
  ∀ n value, m !! n = Some value → template.refers_to_known m value = false.

(** ** Concrete inputs

    The scenario of the specification: a host and a URL that refers to it. *)
Definition empty_world : World := mkWorld ∅ ∅ [] [] [].

Definition net_config : Config :=
  mkConfig "platform.conf"
    [mkDefault "net.host" "x"; mkDefault "net.url" "http://{{net.host}}/api"]
    [mkSuggestion "net.host" "z" "a suggested host"]
    [].

(** The world with some more lines on the console. *)
Definition printed (lines : list string) (w : World) : World :=
  mkWorld (files w) (locks w) (faults w) (events w) (console w ++ lines).

(** What the guard writes for an unknown key: the caller's message, then the
    close matches, indented, between "Did you mean:" and "?" when there are
    any. *)
Definition unknown_key_lines (key message : string) (default_names : list string)
    : list string :=
  message ::
  match difflib.get_close_matches key default_names with
  | [] => []
  | close_matches =>
      "Did you mean:" :: ((λ match_, "    " +:+ match_) <$> close_matches) ++ ["?"]
  end.

(** A computation that raises nothing but input/output failures. *)
Definition raises_io_only {A} (c : M A) : Prop :=
  ∀ w e w', c w = (Raise e, w') → ∃ f, e = IOError f.

(** ** The merge of the resolver *)

(** What the spec says of the merged mapping and the differing defaults:
    the merged mapping has exactly the default names; under a default's name
    it holds the override's value when an override of that name exists and
    its value differs from the default's (and then the differing defaults
    hold that default under the name), and the default's value otherwise
    (and then the name is absent from the differing defaults); a name that
    is no default's is in neither. *)
Definition merged_from (defaults : list Default) (overrides : list Override)
    (merged : gmap string string) (different_defaults : gmap string Default) : Prop :=
  (∀ n, is_Some (merged !! n) ↔ n ∈ default_name <$> defaults) ∧
  (∀ d, d ∈ defaults →
     (∃ o, o ∈ overrides ∧ override_name o = default_name d ∧
           override_value o ≠ default_value d ∧
           merged !! default_name d = Some (override_value o) ∧
           different_defaults !! default_name d = Some d)
     ∨ ((∀ o, o ∈ overrides → override_name o = default_name d →
              override_value o = default_value d) ∧
        merged !! default_name d = Some (default_value d) ∧
        different_defaults !! default_name d = None)) ∧
  (∀ n, n ∉ default_name <$> defaults →
        merged !! n = None ∧ different_defaults !! n = None).

(** The store of a world holding the given entries at [path]: no lock
    held, no failure to come. *)
Definition world_with (path : string) (entries : list (string * string)) : World :=
  mkWorld {[path := entries]} ∅ [] [] [].

(** The scenario with overrides stored: one that differs from its default,
    one that repeats its default, and one for a name that is no default's. *)
Definition overridden_world : World :=
  world_with "platform.conf"
    [("net.host", "y"); ("net.url", "http://{{net.host}}/api"); ("other.name", "v")].

(** The scenario with more suggestions, for the store of [overridden_world]:
    one that differs from the active
    value, one that equals the value of [net.url] after substitution (and
    differs from the text of its default), and one for a name that is no
    default's. *)
Definition advised_config : Config :=
  mkConfig "platform.conf"
    [mkDefault "net.host" "x"; mkDefault "net.url" "http://{{net.host}}/api"]
    [mkSuggestion "net.host" "z" "a suggested host";
     mkSuggestion "net.url" "http://y/api" "the usual address";
     mkSuggestion "other.name" "v" "no default of this name"]
    [].

(** ** The persisted format of the store *)

(** Modelled from the spec: props.py is not among the sources. The spec's
    persisted format (sections 4.3 and 6) has one line [name=value] per
    entry. *)
Definition line_of (entry : string * string) : string :=
  entry.1 +:+ "=" +:+ entry.2.

(** Modelled from the spec: props.py is not among the sources. Reading a
    line splits it at its first ["="]: the name is the text before it, the
    value the text after it; a line without ["="] holds no entry. *)
Fixpoint parse_line (line : string) : option (string * string) :=
  match line with
  | "" => None
  | String c rest =>
      if decide (c = "="%char) then Some ("", rest)
      else (λ entry, (String c entry.1, entry.2)) <$> parse_line rest
  end.

(** An entry the file gives back as it was written: a name without ["="]
    and without a line break, and a value without a line break. For such
    entries the store as a sequence of entries and the store as a file of
    lines agree. *)
Definition storable (entry : string * string) : Prop :=
  contains "=" entry.1 = false ∧ contains newline entry.1 = false ∧
  contains newline entry.2 = false.

(** ** The documentation listing (show_docs, config.py, lines 184-209) *)

(** What [names_by_category] holds for the names of a dictionary: each
    category present has the names of that category, each once, and a
    category without names is absent. *)
Definition groups_names {A} (m : gmap string A) (groups : gmap string (list string))
    : Prop :=
  ∀ category,
    match groups !! category with
    | Some names =>
        NoDup names ∧ names ≠ [] ∧
        ∀ n, n ∈ names ↔ is_Some (m !! n) ∧ first_segment n = category
    | None => ∀ n, is_Some (m !! n) → first_segment n ≠ category
    end.

(** The lines [show_docs] writes for one documented variable: its name, its
    wrapped documentation and its default value. *)
Definition name_lines (wrap : string → list string) (doc : Doc) (default : Default)
    : list string :=
  ["    " +:+ doc_name doc] ++ ((λ line, "        " +:+ line) <$> wrap (doc_doc doc))
  ++ ["            Default: " +:+ default_value default +:+ newline].

(** The lines of one category: the heading, its underline, the variables
    and a closing line break. *)
Definition category_lines (wrap : string → list string) (category : string)
    (entries : list (Doc * Default)) : list string :=
  [title category; repeat_char "-" (String.length category)]
  ++ flat_map (λ entry, name_lines wrap entry.1 entry.2) entries ++ [newline].

Definition listing (wrap : string → list string)
    (groups : list (string * list (Doc * Default))) : list string :=
  flat_map (λ group, category_lines wrap group.1 group.2) groups.

(** The world once [text] has been handed to the pager. *)
Definition paged (text : string) (w : World) : World :=
  mkWorld (files w) (locks w) (faults w) (events w ++ [Paged text]) (console w).

(** The documentation and the default of a name, when it has both. *)
Definition entry_of (defaults_by_name : gmap string Default)
    (docs_by_name : gmap string Doc) (n : string) : option (Doc * Default) :=
  doc ← docs_by_name !! n; default ← defaults_by_name !! n; Some (doc, default).

(** The failure of the listing: a documented name that has no default. *)
Definition undocumented_default (defaults_by_name : gmap string Default)
    (docs_by_name : gmap string Doc) (e : Exn) : Prop :=
  ∃ n, e = KeyError n ∧ is_Some (docs_by_name !! n) ∧ defaults_by_name !! n = None.

Definition lines_of_name (wrap : string → list string)
    (defaults_by_name : gmap string Default) (docs_by_name : gmap string Doc)
    (n : string) : list string :=
  from_option (λ entry, name_lines wrap entry.1 entry.2) []
              (entry_of defaults_by_name docs_by_name n).

Definition lines_of_category (wrap : string → list string)
    (defaults_by_name : gmap string Default) (docs_by_name : gmap string Doc)
    (names : gmap string (list string)) (category : string) : list string :=
  [title category; repeat_char "-" (String.length category)]
  ++ flat_map (lines_of_name wrap defaults_by_name docs_by_name)
              (sorted (default [] (names !! category)))
  ++ [newline].

Definition has_default (defaults_by_name : gmap string Default) (n : string) : Prop :=
  is_Some (defaults_by_name !! n).

Definition category_has_defaults (defaults_by_name : gmap string Default)
    (names : gmap string (list string)) (category : string) : Prop :=
  Forall (has_default defaults_by_name) (sorted (default [] (names !! category))).

(** The categories of the listing with the variables of each, in the order
    they are listed. *)
Definition groups_of (defaults_by_name : gmap string Default)
    (docs_by_name : gmap string Doc) (names : gmap string (list string))
    (categories : list string) : list (string * list (Doc * Default)) :=
  (λ category,
     (category, omap (entry_of defaults_by_name docs_by_name)
                     (sorted (default [] (names !! category)))))
  <$> categories.

(** Every documented name has a default. *)
Definition covered (defaults_by_name : gmap string Default)
    (docs_by_name : gmap string Doc) : Prop :=
  ∀ n, is_Some (docs_by_name !! n) → is_Some (defaults_by_name !! n).

(** ** list_vars (config.py, lines 81-100) *)

(** The attributes of the parsed command line that [list_vars] reads. *)
Record ListArgs := mkListArgs {
  verbose : bool;
  substring_match : option string;
  as_props : bool
}.

(** Python's [s.ljust(width)]: [s] padded with spaces on the right to
    [width] characters; a string of that length or more is returned as it
    is. *)
Definition ljust (s : string) (width : nat) : string :=
  s +:+ repeat_char " " (width - String.length s).

(** Python's [d.keys()]. *)
Definition keys {A} (d : gmap string A) : list string := (map_to_list d).*1.

Section Printing.

Variable render_values_in_template_map :
  gmap string string → outcome (gmap string string).

(** clint's [colored.green], which marks a text to be shown in green. *)
Variable green : string → string.

(** The body of the loop [for name in namelist], lines 93-100. *)
Definition list_var (args : ListArgs) (vals : gmap string string)
    (different_defaults : gmap string Default) (column_width : nat) (name : string)
    : M unit :=
  if as_props args then
    value <- getitem vals name ;;
    puts (name +:+ "=" +:+ value)
  else if decide (is_Some (different_defaults !! name)) then
    value <- getitem vals name ;;
    default <- getitem different_defaults name ;;
    puts (green (ljust name column_width +:+ " " +:+ value +:+ " (default is "
                   +:+ default_value default +:+ ")"))
  else
    value <- getitem vals name ;;
    puts (ljust name column_width +:+ " " +:+ value).

(** [list_vars], lines 81-100. *)
Definition list_vars (self : Config) (args : ListArgs) : M unit :=
  resolved <- get_active_values_and_metadata render_values_in_template_map self ;;
  let '(vals, _, different_defaults) := resolved in
  let namelist :=
    if verbose args then sorted (keys vals) else sorted (keys different_defaults) in
  let namelist :=
    match substring_match args with
    | Some substring => filter (λ name, contains substring name = true) namelist
    | None => namelist
    end in
  match namelist with
  | [] => ret tt
  | _ =>
      let column_width := max_list (String.length <$> namelist) + 1 in
      for_each namelist (list_var args vals different_defaults column_width)
  end.

End Printing.

(** The line [list_vars] writes for a name, given its value and the default
    it differs from, when there is one. *)
Definition var_line (green : string → string) (args : ListArgs) (column_width : nat)
    (name value : string) (different : option Default) : string :=
  if as_props args then name +:+ "=" +:+ value
  else match different with
       | Some default =>
           green (ljust name column_width +:+ " " +:+ value +:+ " (default is "
                    +:+ default_value default +:+ ")")
       | None => ljust name column_width +:+ " " +:+ value
       end.

(** The names [list_vars] lists: those of the active values when verbose,
    else those whose value differs from the default, and among them those
    the substring occurs in, when one is given. *)
Definition listed (args : ListArgs) (vals : gmap string string)
    (different_defaults : gmap string Default) (n : string) : Prop :=
  (if verbose args then is_Some (vals !! n) else is_Some (different_defaults !! n)) ∧
  match substring_match args with
  | Some substring => occurs_in substring n
  | None => True
  end.

(** A configuration with documentation: a main category and two others. *)
Definition documented_config : Config :=
  mkConfig "platform.conf"
    [mkDefault "main.port" "8080"; mkDefault "net.host" "x";
     mkDefault "db.url" "jdbc:{{net.host}}"]
    []
    [mkDoc "net.host" "The host name."; mkDoc "main.port" "The port.";
     mkDoc "db.url" "The database."].

(** A text wrapper that leaves the text on one line. *)
Definition one_line (text : string) : list string := [text].

(** A configuration whose docs have no category "main". *)
Definition mainless_config : Config :=
  mkConfig "platform.conf"
    [mkDefault "net.host" "x"; mkDefault "db.url" "jdbc:{{net.host}}"]
    []
    [mkDoc "net.host" "The host name."; mkDoc "db.url" "The database."].

(** A configuration with categories in upper and lower case. *)
Definition mixed_case_config : Config :=
  mkConfig "platform.conf"
    [mkDefault "main.port" "8080"; mkDefault "alpha.x" "1"; mkDefault "Zeta.y" "2"]
    []
    [mkDoc "alpha.x" "The first."; mkDoc "Zeta.y" "The last."; mkDoc "main.port" "The port."].

(** A documented name lies in the category "main". *)
Definition has_main (self : Config) : Prop :=
  ∃ doc, doc ∈ docs self ∧ first_segment (doc_name doc) = "main".

(** Every documented name is the name of a default. *)
Definition documents_defaults (self : Config) : Prop :=
  ∀ doc, doc ∈ docs self → doc_name doc ∈ default_name <$> defaults self.

(** ** The typo suggester *)



(** ** The matcher's loop

    [best] lies within the rows [alo] to [hi] of [a]. *)
Definition within (alo hi : nat) (best : nat * nat * nat) : Prop :=
  alo ≤ best.1.1 ∧ best.1.1 + best.2 ≤ hi.

(** No match recorded in [j2len] is longer than [n]. *)
Definition lengths_below (n : nat) (j2len : gmap nat nat) : Prop :=
  ∀ j k, j2len !! j = Some k → k ≤ n.

(** The work left in a queue of ranges: twice the rows of [a] they cover,
    plus one for each range. *)
Definition work (queue : list (nat * nat * nat * nat)) : nat :=
  sum_list ((λ range, 2 * (range.1.1.2 - range.1.1.1) + 1) <$> queue).

(** * Verification *)

(** ** Substrings *)

Lemma append_nil (t : string) : "" +:+ t = t.
Proof. reflexivity. Qed.

Lemma append_cons (c : ascii) (s t : string) :
  String c s +:+ t = String c (s +:+ t).
Proof. reflexivity. Qed.

Ltac simpl_append := rewrite ?append_cons, ?append_nil in *.

Lemma prefix_spec (p s : string) :
  String.prefix p s = true ↔ ∃ t, s = p +:+ t.
Proof.
  revert s. induction p as [|c p IH]; intros s.
  - destruct s; simpl; (split; [intros _; by eexists | done]).
  - destruct s as [|d s]; simpl.
    + split; [done | intros [t Ht]; discriminate].
    + destruct (Ascii.ascii_dec c d) as [->|Hne].
      * rewrite IH. split; intros [t Ht]; exists t; simpl_append; congruence.
      * split; [done | intros [t Ht]; simpl_append; congruence].
Qed.

Lemma contains_spec (needle hay : string) :
  contains needle hay = true ↔ occurs_in needle hay.
Proof.
  unfold occurs_in. induction hay as [|c hay IH]; cbn [contains].
  - rewrite orb_false_r, prefix_spec. split.
    + intros [t Ht]. by exists "", t.
    + intros ([|d before] & after & Heq); simpl_append; [by exists after | done].
  - rewrite orb_true_iff, prefix_spec, IH. split.
    + intros [[t Ht] | (before & after & Heq)].
      * by exists "", t.
      * exists (String c before), after. simpl_append. by rewrite Heq.
    + intros ([|d before] & after & Heq); simpl_append.
      * left. by exists after.
      * right. exists before, after. congruence.
Qed.

Lemma contains_false (needle hay : string) :
  contains needle hay = false ↔ ¬ occurs_in needle hay.
Proof. rewrite <- contains_spec. by destruct (contains needle hay). Qed.

(** ** The name validator *)

Section Validator.

Context {A : Type} `{Named A}.

Lemma maps_names_nil : maps_names [] ∅.
Proof. intros n r. rewrite lookup_empty. split; [done | intros [?%elem_of_nil _]; done]. Qed.

Lemma maps_names_snoc seen m var :
  maps_names seen m → m !! name var = None →
  maps_names (seen ++ [var]) (<[name var := var]> m).
Proof.
  intros Hm Hfresh n r. rewrite elem_of_app, list_elem_of_singleton.
  destruct (decide (name var = n)) as [<-|Hne].
  - rewrite lookup_insert_eq. split.
    + intros [= <-]. auto.
    + intros [[Hin| ->] Hn]; [|done].
      assert (m !! name var = Some r) as Hr by (by apply Hm). congruence.
  - rewrite lookup_insert_ne by done. split.
    + intros [Hin Hn]%Hm. auto.
    + intros [[Hin| ->] Hn]; [by apply Hm | done].
Qed.

Lemma well_formed_snoc (seen : list A) var :
  well_formed seen → ¬ invalid_name (name var) →
  (∀ r, r ∈ seen → name r ≠ name var) →
  well_formed (seen ++ [var]).
Proof.
  intros [Hvalid Hnodup] Hvar Hfresh. split.
  - intros x [Hin| ->%list_elem_of_singleton]%elem_of_app; auto.
  - rewrite fmap_app. apply NoDup_app. split_and!; [done | | apply NoDup_singleton].
    intros n (r & -> & Hr)%list_elem_of_fmap [=]%list_elem_of_singleton.
    by apply (Hfresh r).
Qed.

Lemma validate_loop_spec (seen rest : list A) (m : gmap string A) :
  well_formed seen → maps_names seen m →
  match validate_loop rest m with
  | Ok vars_by_name =>
      well_formed (seen ++ rest) ∧ maps_names (seen ++ rest) vars_by_name
  | Err e =>
      ∃ before var after,
        seen ++ rest = before ++ var :: after ∧ well_formed before ∧
        ((occurs_in "___" (name var) ∧ e = Invalid_triple_underscore (name var)) ∨
         (¬ occurs_in "___" (name var) ∧ occurs_in " " (name var) ∧
          e = Invalid_space (name var)) ∨
         (¬ invalid_name (name var) ∧
          ∃ previous, previous ∈ before ∧ name previous = name var ∧
                      e = Duplicate_name var previous))
  end.
Proof.
  revert seen m. induction rest as [|var rest IH]; intros seen m Hwf Hm; simpl.
  - by rewrite app_nil_r.
  - destruct (contains "___" (name var)) eqn:H3.
    { exists seen, var, rest. split_and!; [done..|].
      left. by apply contains_spec in H3. }
    destruct (contains " " (name var)) eqn:Hsp.
    { exists seen, var, rest. split_and!; [done..|].
      right; left. apply contains_false in H3. by apply contains_spec in Hsp. }
    apply contains_false in H3, Hsp.
    assert (¬ invalid_name (name var)) as Hvalid by (by intros [?|?]).
    destruct (m !! name var) as [previous|] eqn:Hlook.
    { exists seen, var, rest. split_and!; [done..|].
      right; right. split; [done|]. exists previous.
      apply Hm in Hlook as [??]. done. }
    specialize (IH (seen ++ [var]) (<[name var := var]> m)).
    rewrite <- (assoc_L (++)) in IH. simpl in IH. apply IH.
    + apply well_formed_snoc; [done..|].
      intros r Hr Hn. assert (m !! name var = Some r) as Hsome by (by apply Hm).
      congruence.
    + by apply maps_names_snoc.
Qed.

End Validator.

Lemma well_formed_nil {A} `{Named A} : well_formed ([] : list A).
Proof. split; [by intros x ?%elem_of_nil | constructor]. Qed.

Lemma occurs_in_witness (before needle after : string) :
  occurs_in needle (before +:+ needle +:+ after).
Proof. by exists before, after. Qed.

Lemma validate_Err_not_well_formed {A} `{Named A} (variables : list A) (e : Error A) :
  validate_and_map_by_name variables = Err e → ¬ well_formed variables.
Proof.
  unfold validate_and_map_by_name. intros Herr.
  pose proof (validate_loop_spec [] variables ∅ well_formed_nil maps_names_nil) as Hspec.
  rewrite Herr in Hspec. simpl in Hspec.
  destruct Hspec as (before & var & after & -> & _ & Hcase).
  intros [Hvalid Hnodup].
  assert (var ∈ before ++ var :: after) as Hin
    by (apply elem_of_app; right; apply elem_of_cons; by left).
  destruct Hcase as [[H3 _]|[(_ & Hsp & _)|(_ & previous & Hprev & Hname & _)]].
  - apply (Hvalid var Hin). by left.
  - apply (Hvalid var Hin). by right.
  - rewrite fmap_app, fmap_cons in Hnodup.
    apply NoDup_app in Hnodup as (_ & Hdisj & _).
    apply (Hdisj (name var)); [|apply elem_of_cons; by left].
    rewrite <- Hname. by apply list_elem_of_fmap_2.
Qed.

Lemma validate_well_formed {A} `{Named A} (variables : list A) :
  well_formed variables → ∃ m, validate_and_map_by_name variables = Ok m.
Proof.
  intros Hwf. destruct (validate_and_map_by_name variables) as [m|e] eqn:Hrun.
  - by exists m.
  - by apply validate_Err_not_well_formed in Hrun.
Qed.

(** C3 (amended). The validator reads the records in order and stops at the
    first one that offends. It returns the mapping from name to record exactly
    when the collection is well formed (no name contains a space or "___",
    no name occurs twice). Otherwise the error is that of the first record
    which has an invalid name or repeats the name of an earlier record: the
    invalid-name error with that name (the "___" message when the name holds
    "___", the space message when it holds a space and no "___"), or, the
    name being valid, the duplicate-name error carrying that record and the
    earlier record of the same name. *)
Theorem validate_and_map_by_name_first_offender {A} `{Named A} (variables : list A) :
  match validate_and_map_by_name variables with
  | Ok vars_by_name =>
      well_formed variables ∧
      ∀ n r, vars_by_name !! n = Some r ↔ r ∈ variables ∧ name r = n
  | Err e =>
      ¬ well_formed variables ∧
      ∃ before var after,
        variables = before ++ var :: after ∧ well_formed before ∧
        ((occurs_in "___" (name var) ∧ e = Invalid_triple_underscore (name var)) ∨
         (¬ occurs_in "___" (name var) ∧ occurs_in " " (name var) ∧
          e = Invalid_space (name var)) ∨
         (¬ invalid_name (name var) ∧
          ∃ previous, previous ∈ before ∧ name previous = name var ∧
                      e = Duplicate_name var previous))
  end.
Proof.
  pose proof (validate_loop_spec [] variables ∅ well_formed_nil maps_names_nil) as Hspec.
  simpl in Hspec. fold (validate_and_map_by_name variables) in Hspec.
  destruct (validate_and_map_by_name variables) as [m|e] eqn:Hrun; [done|].
  split; [by apply (validate_Err_not_well_formed _ e) | done].
Qed.

(** C3 as stated fails: a collection in which some name contains a space is
    not always rejected with the invalid-name error. In
    [a=1; a=2; "b c"=3] the duplicate is met first and reported. *)
Lemma validate_invalid_name_not_always_reported :
  ¬ (∀ variables : list Default,
       (∃ var, var ∈ variables ∧ invalid_name (name var)) →
       ∃ n, validate_and_map_by_name variables = Err (Invalid_triple_underscore n) ∨
            validate_and_map_by_name variables = Err (Invalid_space n)).
Proof.
  intros Hclaim.
  destruct (Hclaim [mkDefault "a" "1"; mkDefault "a" "2"; mkDefault "b c" "3"])
    as [n [Hn|Hn]].
  - exists (mkDefault "b c" "3"). split; [by repeat constructor|].
    right. apply (occurs_in_witness "b" " " "c").
  - vm_compute in Hn. discriminate.
  - vm_compute in Hn. discriminate.
Qed.

(** The same collection read the other way round: the duplicate-name error is
    not raised either when an invalid name comes first. *)
Example validate_duplicate_after_invalid_name :
  validate_and_map_by_name [mkDefault "b c" "3"; mkDefault "a" "1"; mkDefault "a" "2"]
  = Err (Invalid_space "b c").
Proof. reflexivity. Qed.

Example validate_duplicate_before_invalid_name :
  validate_and_map_by_name [mkDefault "a" "1"; mkDefault "a" "2"; mkDefault "b c" "3"]
  = Err (Duplicate_name (mkDefault "a" "2") (mkDefault "a" "1")).
Proof. reflexivity. Qed.

(** ** The monad *)

Lemma bind_Ret {A B} (c : M A) (k : A → M B) w b w' :
  bind c k w = (Ret b, w') → ∃ a w1, c w = (Ret a, w1) ∧ k a w1 = (Ret b, w').
Proof.
  unfold bind. destruct (c w) as [[a|e] w1]; [|done]. intros Hk. by exists a, w1.
Qed.

Lemma bind_Raise {A B} (c : M A) (k : A → M B) w e w' :
  bind c k w = (Raise e, w') →
  c w = (Raise e, w') ∨ ∃ a w1, c w = (Ret a, w1) ∧ k a w1 = (Raise e, w').
Proof.
  unfold bind. destruct (c w) as [[a|e1] w1]; intros Hk.
  - right. exists a, w1. by split.
  - left. by injection Hk as -> ->.
Qed.

Lemma lift_Ret {A B} `{Tuple A} (r : result (Error A) B) w b w' :
  lift r w = (Ret b, w') → r = Ok b ∧ w' = w.
Proof. destruct r; unfold lift, ret, raise; intros [= <- <-]; done. Qed.

Lemma of_outcome_Ret {A} (r : outcome A) w a w' :
  of_outcome r w = (Ret a, w') → r = Ret a ∧ w' = w.
Proof. unfold of_outcome. by intros [= -> ->]. Qed.

(** ** The two loops of the resolver *)

Lemma merge_defaults_lookup (defaults_by_name : gmap string Default)
    (overrides_by_name : gmap string Override) (n : string) :
  (merge_defaults defaults_by_name overrides_by_name).1 !! n
  = (λ d, from_option override_value (default_value d)
                      (winning (overrides_by_name !! n) d)) <$> defaults_by_name !! n
  ∧ (merge_defaults defaults_by_name overrides_by_name).2 !! n
  = defaults_by_name !! n ≫= (λ d, winning (overrides_by_name !! n) d ≫= λ _, Some d).
Proof.
  unfold merge_defaults.
  apply (map_fold_weak_ind (λ (r : gmap string string * gmap string Default) m,
    r.1 !! n = (λ d, from_option override_value (default_value d)
                        (winning (overrides_by_name !! n) d)) <$> m !! n
    ∧ r.2 !! n = m !! n ≫= (λ d, winning (overrides_by_name !! n) d ≫= λ _, Some d))).
  - by rewrite !lookup_empty.
  - intros i d m [active dd] Hfresh [IH1 IH2]. simpl in IH1, IH2.
    destruct (decide (i = n)) as [->|Hne].
    + rewrite lookup_insert_eq. simpl. unfold winning.
      destruct (overrides_by_name !! n) as [o|]; [case_decide|]; simpl;
        rewrite ?lookup_insert_eq; try done.
      all: rewrite IH2, Hfresh; done.
    + rewrite lookup_insert_ne by done.
      destruct (overrides_by_name !! i) as [o|]; [case_decide|]; simpl;
        rewrite ?lookup_insert_ne by done; done.
Qed.

Lemma differing_suggestions_lookup (active_values : gmap string string)
    (suggestions_by_name : gmap string Suggestion) (n : string) :
  differing_suggestions active_values suggestions_by_name !! n
  = active_values !! n ≫= λ value,
      suggestions_by_name !! n ≫= λ s,
        if decide (suggestion_value s ≠ value) then Some s else None.
Proof.
  unfold differing_suggestions.
  apply (map_fold_weak_ind (λ (r : gmap string Suggestion) (m : gmap string string),
    r !! n = m !! n ≫= λ value,
      suggestions_by_name !! n ≫= λ s,
        if decide (suggestion_value s ≠ value) then Some s else None)).
  - by rewrite !lookup_empty.
  - intros i value m r Hfresh IH.
    destruct (decide (i = n)) as [->|Hne].
    + rewrite lookup_insert_eq. simpl. rewrite Hfresh in IH. simpl in IH.
      destruct (suggestions_by_name !! n) as [s|]; simpl;
        [destruct (decide (suggestion_value s ≠ value))|];
        rewrite ?lookup_insert_eq; done.
    + rewrite (lookup_insert_ne m) by done. rewrite <- IH.
      destruct (suggestions_by_name !! i) as [s|];
        [destruct (decide (suggestion_value s ≠ value))|];
        rewrite ?lookup_insert_ne by done; done.
Qed.

(** ** The override store *)

Lemma io_only_ret {A} (a : A) : io_only (ret a).
Proof. intros w r w' [= <- <-]. split_and!; [done..|]. exists []. by rewrite app_nil_r. Qed.

Lemma io_only_raise {A} (e : Exn) : io_only (raise e : M A).
Proof. intros w r w' [= <- <-]. split_and!; [done..|]. exists []. by rewrite app_nil_r. Qed.

Lemma io_only_get_world : io_only get_world.
Proof. intros w r w' [= <- <-]. split_and!; [done..|]. exists []. by rewrite app_nil_r. Qed.

Lemma io_only_next_fault : io_only next_fault.
Proof.
  intros w r w'. unfold next_fault. destruct (faults w); intros [= <- <-];
    (split_and!; [done..|]); exists []; by rewrite app_nil_r.
Qed.

Lemma io_only_set_files f : io_only (set_files f).
Proof. intros w r w' [= <- <-]. split_and!; [done..|]. exists []. by rewrite app_nil_r. Qed.

Lemma io_only_log e : ¬ is_lock_event e → io_only (log e).
Proof.
  intros He w r w' [= <- <-]. split_and!; [done..|]. exists [e]. split; [done|].
  by constructor.
Qed.

Lemma io_only_bind {A B} (c : M A) (k : A → M B) :
  io_only c → (∀ a, io_only (k a)) → io_only (bind c k).
Proof.
  intros Hc Hk w r w'. unfold bind. destruct (c w) as [[a|e] w1] eqn:Hcw.
  - intros Hkw. destruct (Hc _ _ _ Hcw) as (Hl1 & Hc1 & evs1 & He1 & Hf1).
    destruct (Hk a _ _ _ Hkw) as (Hl2 & Hc2 & evs2 & He2 & Hf2).
    split_and!; [congruence..|]. exists (evs1 ++ evs2). split.
    + by rewrite He2, He1, (assoc_L (++)).
    + by apply Forall_app.
  - intros [= <- <-]. destruct (Hc _ _ _ Hcw) as (Hl1 & Hc1 & evs1 & He1 & Hf1).
    split_and!; [done..|]. by exists evs1.
Qed.

Create HintDb io_only.
#[local] Hint Resolve io_only_ret io_only_raise io_only_get_world io_only_next_fault
  io_only_set_files io_only_bind : io_only.
#[local] Hint Extern 1 (io_only (log _)) => apply io_only_log; simpl; tauto : io_only.
#[local] Hint Extern 2 (io_only (match ?x with _ => _ end)) => destruct x : io_only.
#[local] Hint Extern 2 (io_only (if ?x then _ else _)) => destruct x : io_only.

Lemma io_only_load path create_new : io_only (props.load path create_new).
Proof. unfold props.load, props.create_empty, props.read. eauto 20 with io_only. Qed.

Lemma io_only_replace path entries : io_only (props.replace path entries).
Proof. unfold props.replace, props.write, props.rename. eauto 20 with io_only. Qed.


Lemma io_only_set_key path key value create_new :
  io_only (props.set_key path key value create_new).
Proof.
  unfold props.set_key. apply io_only_bind; [apply io_only_load|].
  intros entries. apply io_only_replace.
Qed.

Lemma io_only_delete_key path key create_new :
  io_only (props.delete_key path key create_new).
Proof.
  unfold props.delete_key. apply io_only_bind; [apply io_only_load|].
  intros entries. apply io_only_replace.
Qed.

Lemma length_append (s t : string) :
  String.length (s +:+ t) = String.length s + String.length t.
Proof. induction s as [|c s IH]; simpl_append; simpl; [done | by rewrite IH]. Qed.

Lemma temporary_ne (path : string) : props.temporary path ≠ path.
Proof.
  unfold props.temporary. intros Heq%(f_equal String.length).
  rewrite length_append in Heq. simpl in Heq. lia.
Qed.

Ltac run_store :=
  unfold props.load, props.replace, props.create_empty, props.read, props.write,
    props.rename, bind, next_fault, set_files, log, get_world, raise, ret, stored in *;
  simpl in *.

Lemma load_files path w r w' :
  props.load path true w = (r, w') →
  stored w' path = stored w path ∧
  (∀ q, q ≠ path → files w' !! q = files w !! q) ∧
  (∀ entries, r = Ret entries →
     entries = stored w path ∧ files w' !! path = Some entries) ∧
  (faults w = [] → r = Ret (stored w path) ∧ faults w' = []).
Proof.
  run_store. intros Hrun.
  destruct (files w !! path) as [entries0|] eqn:Hfile;
  destruct (faults w) as [|[|k] [|[|k'] fs]] eqn:Hfaults;
  repeat (case_match; simpl in *; simplify_eq);
    try (match goal with H : is_Some None |- _ => by destruct H end);
    try (match goal with H : ¬ is_Some (Some _) |- _ => by destruct H end);
    repeat split; intros; simplify_eq; simpl in *;
    rewrite ?lookup_insert_eq, ?lookup_insert_ne in * by done;
    simplify_eq; try done; try congruence;
    match goal with H : files _ !! _ = _ |- _ => by rewrite H end.
Qed.

Lemma replace_files path entries w r w' :
  props.replace path entries w = (r, w') →
  ((r = Ret tt ∧ files w' !! path = Some (merge_sort props.by_name entries)) ∨
   (∃ e, r = Raise e ∧ files w' !! path = files w !! path)) ∧
  (faults w = [] → r = Ret tt ∧ faults w' = []).
Proof.
  pose proof (temporary_ne path) as Hne.
  unfold props.replace, props.write, props.rename, bind, next_fault, set_files,
    log, get_world, raise, ret.
  destruct (faults w) as [|[|k] [|[|k'] fs]] eqn:Hfaults; simpl;
    rewrite ?Hfaults; simpl; rewrite ?lookup_insert_eq; simpl;
    intros [= <- <-]; simpl; (split; [|by intros]);
    first [ left; split; [done|]; by rewrite lookup_insert_eq
          | right; eexists; split; [done|];
            rewrite ?lookup_insert_ne by done; done ].
Qed.

(** The [with] statement on the lock of a path that is free: the body runs
    in the world where the lock is held, and the lock is released whatever the
    body returns or raises. *)
Lemma with_lock_free {A} (path : string) (body : M A) (w : World) :
  path ∉ locks w →
  with_ (protected_file_path.ProtectedFilePath path) body w
  = ((body (locked path w)).1, unlocked path (body (locked path w)).2).
Proof.
  intros Hfree.
  unfold with_, protected_file_path.ProtectedFilePath, protected_file_path.acquire,
    protected_file_path.release, bind, get_world, set_locks, log, raise, ret; simpl.
  destruct (decide (path ∈ locks w)) as [|_]; [done|]. simpl.
  fold (locked path w). by destruct (body (locked path w)) as [r w2].
Qed.

Lemma with_lock_held {A} (path : string) (body : M A) (w : World) :
  path ∈ locks w →
  with_ (protected_file_path.ProtectedFilePath path) body w
  = (Raise (IOError LockUnavailable), w).
Proof.
  intros Hheld.
  unfold with_, protected_file_path.ProtectedFilePath, protected_file_path.acquire,
    bind, get_world, raise; simpl.
  by destruct (decide (path ∈ locks w)).
Qed.






(** ** The resolver *)

Lemma get_overrides_Ret self w overrides w1 :
  get_overrides self w = (Ret overrides, w1) →
  overrides = stored_overrides self w ∧
  stored w1 (config_path self) = stored w (config_path self).
Proof.
  unfold get_overrides, stored_overrides.
  intros (conf_items & w2 & Hwith & [= <- <-])%bind_Ret.
  destruct (decide (config_path self ∈ locks w)) as [Hheld|Hfree].
  { by rewrite with_lock_held in Hwith. }
  rewrite with_lock_free in Hwith by done.
  destruct (props.get_items (config_path self) true (locked (config_path self) w))
    as [r w3] eqn:Hrun.
  simpl in Hwith. injection Hwith as -> <-.
  apply load_files in Hrun as (Hstored & _ & Hentries & _).
  destruct (Hentries conf_items eq_refl) as [-> _]. done.
Qed.

Lemma resolve_inv render self w active ds dd w' :
  get_active_values_and_metadata render self w = (Ret (active, ds, dd), w') →
  ∃ defaults_by_name overrides_by_name suggestions_by_name merged,
    validate_and_map_by_name (defaults self) = Ok defaults_by_name ∧
    get_overrides self w = (Ret (stored_overrides self w), w') ∧
    validate_and_map_by_name (stored_overrides self w) = Ok overrides_by_name ∧
    validate_and_map_by_name (suggestions self) = Ok suggestions_by_name ∧
    merge_defaults defaults_by_name overrides_by_name = (merged, dd) ∧
    render merged = Ret active ∧
    ds = differing_suggestions active suggestions_by_name.
Proof.
  unfold get_active_values_and_metadata.
  intros (dmap & w1 & [Hd ->]%lift_Ret & Hrest)%bind_Ret.
  apply bind_Ret in Hrest as (overrides & w2 & Hget & Hrest).
  apply bind_Ret in Hrest as (omap & w3 & [Ho ->]%lift_Ret & Hrest).
  apply bind_Ret in Hrest as (smap & w4 & [Hs ->]%lift_Ret & Hrest).
  destruct (merge_defaults dmap omap) as [merged dd'] eqn:Hmerge.
  apply bind_Ret in Hrest as (active' & w5 & [Hr ->]%of_outcome_Ret & Hrest).
  unfold ret in Hrest. injection Hrest as <- <- <- <-.
  pose proof (get_overrides_Ret _ _ _ _ Hget) as [-> _].
  by exists dmap, omap, smap, merged.
Qed.

Lemma validate_Ok {A} `{Named A} (variables : list A) (m : gmap string A) :
  validate_and_map_by_name variables = Ok m →
  well_formed variables ∧ maps_names variables m.
Proof.
  unfold validate_and_map_by_name. intros Hok.
  pose proof (validate_loop_spec [] variables ∅ well_formed_nil maps_names_nil) as Hspec.
  by rewrite Hok in Hspec.
Qed.

(** ** The template engine *)

Lemma render_go_no_reference (m : gmap string string) (s : string) :
  template.refers_to_known m s = false → template.render_go m 0 s = s.
Proof.
  induction s as [|c rest IH]; [done|].
  cbn [template.refers_to_known template.render_go].
  intros [Hhere Hrest]%orb_false_iff. rewrite (IH Hrest).
  destruct (template.reference_at (String c rest)) as [key|]; simpl; [|done].
  apply bool_decide_eq_false in Hhere.
  destruct (m !! key) as [value|] eqn:Hkey; simpl; [|done].
  destruct Hhere. by exists value.
Qed.

Lemma render_pass_fully_substituted (m : gmap string string) :
  fully_substituted m → template.render_pass m = m.
Proof.
  intros Hfull. apply map_eq. intros n. unfold template.render_pass.
  rewrite lookup_fmap. destruct (m !! n) as [value|] eqn:Hn; simpl; [|done].
  unfold template.render_string. by rewrite render_go_no_reference by eauto.
Qed.

Lemma render_passes_fixed (fuel : nat) (m : gmap string string) :
  template.render_pass m = m → template.render_passes fuel m = m.
Proof. intros Hfixed. destruct fuel as [|fuel]; simpl; [done|]. by case_decide. Qed.

Lemma render_passes_dom (fuel : nat) (m : gmap string string) :
  dom (template.render_passes fuel m) = dom m.
Proof.
  revert m. induction fuel as [|fuel IH]; intros m; simpl; [done|].
  case_decide; [done|]. rewrite IH. unfold template.render_pass. apply dom_fmap_L.
Qed.

Lemma unresolved_nil (m : gmap string string) :
  template.unresolved m = [] ↔ fully_substituted m.
Proof.
  unfold template.unresolved, fully_substituted. split.
  - intros Hnil n value Hn.
    destruct (template.refers_to_known m value) eqn:Hrefers; [|done].
    assert ((n, value) ∈ map_to_list
              (filter (λ kv, template.refers_to_known m kv.2 = true) m)) as Hin.
    { apply elem_of_map_to_list. by apply map_lookup_filter_Some. }
    apply (list_elem_of_fmap_2 fst) in Hin. rewrite Hnil in Hin.
    by apply elem_of_nil in Hin.
  - intros Hfull.
    rewrite (proj2 (map_to_list_empty_iff _)); [done|]. apply map_empty. intros n.
    apply map_lookup_filter_None. right. intros value Hn. simpl.
    by rewrite (Hfull n value Hn).
Qed.

Lemma render_Ret (m m' : gmap string string) :
  template.render_values_in_template_map m = Ret m' →
  m' = template.render_passes (size m) m ∧ fully_substituted m'.
Proof.
  unfold template.render_values_in_template_map.
  destruct (template.unresolved (template.render_passes (size m) m)) eqn:Hun; [|done].
  intros [= <-]. split; [done|]. by apply unresolved_nil.
Qed.

Lemma render_dom (m m' : gmap string string) :
  template.render_values_in_template_map m = Ret m' → dom m' = dom m.
Proof. intros [-> _]%render_Ret. apply render_passes_dom. Qed.

Lemma render_fully_substituted (m : gmap string string) :
  fully_substituted m → template.render_values_in_template_map m = Ret m.
Proof.
  intros Hfull. unfold template.render_values_in_template_map.
  rewrite render_passes_fixed by (by apply render_pass_fully_substituted).
  by apply unresolved_nil in Hfull as ->.
Qed.

(** C5. The template engine is idempotent: on a mapping that is already
    fully substituted (no value refers to a name of the mapping), and in
    particular on any mapping the engine has returned, it returns the
    mapping itself. *)
Theorem render_idempotent (m : gmap string string) :
  fully_substituted m ∨ (∃ m0, template.render_values_in_template_map m0 = Ret m) →
  template.render_values_in_template_map m = Ret m.
Proof.
  intros [Hfull|[m0 Hout]]; apply render_fully_substituted; [done|].
  by apply render_Ret in Hout as [_ Hfull].
Qed.

(** ** Resolution: the active mapping *)

Lemma merge_defaults_dom (defaults_by_name : gmap string Default)
    (overrides_by_name : gmap string Override) (n : string) :
  is_Some ((merge_defaults defaults_by_name overrides_by_name).1 !! n)
  ↔ is_Some (defaults_by_name !! n).
Proof.
  destruct (merge_defaults_lookup defaults_by_name overrides_by_name n) as [-> _].
  by rewrite fmap_is_Some.
Qed.

Lemma maps_names_is_Some {A} `{Named A} (l : list A) (m : gmap string A) (n : string) :
  maps_names l m → is_Some (m !! n) ↔ n ∈ name <$> l.
Proof.
  intros Hm. rewrite list_elem_of_fmap. split.
  - intros [r [Hin Hn]%Hm]. by exists r.
  - intros (r & -> & Hin). exists r. by apply Hm.
Qed.

Lemma get_overrides_no_faults self w :
  faults w = [] → config_path self ∉ locks w →
  ∃ w1, get_overrides self w = (Ret (stored_overrides self w), w1).
Proof.
  intros Hfaults Hfree. unfold get_overrides, stored_overrides, bind.
  rewrite with_lock_free by done.
  destruct (props.get_items (config_path self) true (locked (config_path self) w))
    as [r w2] eqn:Hload.
  apply load_files in Hload as (_ & _ & _ & Hok).
  destruct (Hok Hfaults) as [-> _]. simpl. by eauto.
Qed.

Lemma merge_defaults_spec (defaults : list Default) (overrides : list Override)
    (dmap : gmap string Default) (omap : gmap string Override) :
  maps_names defaults dmap → maps_names overrides omap →
  merged_from defaults overrides (merge_defaults dmap omap).1 (merge_defaults dmap omap).2.
Proof.
  intros Hdmap Homap. split_and!.
  - intros n. rewrite <- (maps_names_is_Some defaults dmap n Hdmap).
    apply merge_defaults_dom.
  - intros d Hin.
    assert (dmap !! default_name d = Some d) as Hlook by (by apply Hdmap).
    destruct (merge_defaults_lookup dmap omap (default_name d)) as [Hactive Hdd].
    rewrite Hlook in Hactive, Hdd. simpl in Hactive, Hdd.
    unfold winning in Hactive, Hdd.
    destruct (omap !! default_name d) as [o|] eqn:Hover.
    + apply Homap in Hover as Ho'. destruct Ho' as [Hoin Honame].
      case_decide as Hdiff; simpl in Hactive, Hdd.
      * left. by exists o.
      * right. split_and!; [|done..]. intros o' Hoin' Honame'.
        assert (omap !! default_name d = Some o') as Hover' by (by apply Homap).
        assert (o' = o) as -> by congruence.
        destruct (decide (override_value o = default_value d)) as [Heq|Hne];
          [exact Heq | by destruct Hdiff].
    + right. split_and!; [|done..]. intros o' Hoin' Honame'.
      assert (omap !! default_name d = Some o') as Hover' by (by apply Homap).
      congruence.
  - intros n Hn.
    assert (dmap !! n = None) as Hnone.
    { apply eq_None_not_Some. by rewrite (maps_names_is_Some defaults dmap n Hdmap). }
    destruct (merge_defaults_lookup dmap omap n) as [Hactive Hdd].
    rewrite Hnone in Hactive, Hdd. done.
Qed.

(** With well-formed records, the lock free and no input/output failure,
    the resolver gets as far as the template engine, and returns or raises
    as the engine does on the merged mapping. *)
Lemma resolve_returns render self w :
  well_formed (defaults self) → well_formed (stored_overrides self w) →
  well_formed (suggestions self) → faults w = [] → config_path self ∉ locks w →
  ∃ merged dd w' smap,
    merged_from (defaults self) (stored_overrides self w) merged dd ∧
    validate_and_map_by_name (suggestions self) = Ok smap ∧
    get_active_values_and_metadata render self w
    = (match render merged with
       | Ret active => Ret (active, differing_suggestions active smap, dd)
       | Raise e => Raise e
       end, w').
Proof.
  intros [dmap Hd]%validate_well_formed [omap Ho]%validate_well_formed
    [smap Hs]%validate_well_formed Hfaults Hfree.
  destruct (get_overrides_no_faults self w Hfaults Hfree) as [w' Hget].
  exists (merge_defaults dmap omap).1, (merge_defaults dmap omap).2, w', smap.
  split_and!; [|done|].
  - apply merge_defaults_spec; [by apply (validate_Ok _ _ Hd)|by apply (validate_Ok _ _ Ho)].
  - unfold get_active_values_and_metadata. rewrite Hd. cbn [bind lift ret].
    unfold bind at 1. rewrite Hget, Ho. cbn [bind lift ret]. rewrite Hs.
    cbn [bind lift ret]. destruct (merge_defaults dmap omap) as [merged dd]. simpl.
    unfold bind, of_outcome. by destruct (render merged).
Qed.

Lemma resolve_merged render self w active ds dd w' :
  get_active_values_and_metadata render self w = (Ret (active, ds, dd), w') →
  well_formed (defaults self) ∧ well_formed (stored_overrides self w) ∧
  well_formed (suggestions self) ∧
  ∃ merged,
    render merged = Ret active ∧
    merged_from (defaults self) (stored_overrides self w) merged dd.
Proof.
  intros Hrun.
  destruct (resolve_inv _ _ _ _ _ _ _ Hrun)
    as (dmap & omap & smap & merged & Hd & Hget & Ho & Hs & Hmerge & Hrender & ->).
  apply validate_Ok in Hd as [Hwfd Hdmap]. apply validate_Ok in Ho as [Hwfo Homap].
  apply validate_Ok in Hs as [Hwfs _].
  split_and!; [done..|]. exists merged. split; [done|].
  pose proof (merge_defaults_spec _ _ _ _ Hdmap Homap) as Hspec.
  by rewrite Hmerge in Hspec.
Qed.

(** C1 (amended). When [resolve] succeeds, the defaults and the stored
    overrides are well formed, and the active mapping returned is the template
    engine's rendering of the merged mapping, which has exactly one entry per
    default name and no others: under a default's name it holds the override's
    value when an override of that name exists and its value differs from the
    default's (and then differingDefaults holds that default under the name),
    and the default's value otherwise (and then the name is absent from
    differingDefaults). A name that only an override has is in neither. With
    an engine that keeps the names of the mapping, as the spec requires of it,
    the active mapping too has exactly the default names. And [resolve] does
    succeed: with well-formed defaults, stored overrides and suggestions, the
    lock free and no input/output failure, it returns whenever the engine
    returns on the merged mapping, and raises what the engine raises
    otherwise. *)
Theorem resolve_active_is_rendered_merge
    (render : gmap string string → outcome (gmap string string))
    (self : Config) (w : World) :
  (∀ m m', render m = Ret m' → dom m' = dom m) →
  let overrides := stored_overrides self w in
  (∀ active ds dd w',
     get_active_values_and_metadata render self w = (Ret (active, ds, dd), w') →
     well_formed (defaults self) ∧ well_formed overrides ∧
     ∃ merged,
       render merged = Ret active ∧
       (∀ n, is_Some (active !! n) ↔ n ∈ default_name <$> defaults self) ∧
       merged_from (defaults self) overrides merged dd) ∧
  (well_formed (defaults self) → well_formed overrides →
   well_formed (suggestions self) → faults w = [] → config_path self ∉ locks w →
   ∃ merged dd w',
     merged_from (defaults self) overrides merged dd ∧
     (∀ active, render merged = Ret active →
        ∃ ds, get_active_values_and_metadata render self w
              = (Ret (active, ds, dd), w')) ∧
     (∀ e, render merged = Raise e →
        get_active_values_and_metadata render self w = (Raise e, w'))).
Proof.
  intros Hkeys overrides. split.
  - intros active ds dd w' Hrun.
    destruct (resolve_merged _ _ _ _ _ _ _ Hrun)
      as (Hwfd & Hwfo & _ & merged & Hrender & Hmerged).
    split_and!; [done..|]. exists merged. split_and!; [done| |done].
    intros n. destruct Hmerged as [Hdom _].
    rewrite <- Hdom, <- !elem_of_dom. by rewrite (Hkeys _ _ Hrender).
  - intros Hwfd Hwfo Hwfs Hfaults Hfree.
    destruct (resolve_returns render self w Hwfd Hwfo Hwfs Hfaults Hfree)
      as (merged & dd & w' & smap & Hmerged & _ & Hrun).
    exists merged, dd, w'. split_and!; [done| |].
    + intros active Hrender. rewrite Hrender in Hrun. by eauto.
    + intros e Hrender. by rewrite Hrender in Hrun.
Qed.

(** C6. When [resolve] succeeds, the active mapping is the template
    engine's rendering of the merged mapping, and a name is in
    [differingSuggestions], with its suggestion, exactly when the name is in
    the active mapping, a suggestion of that name exists and its value
    differs from the active value, which is the value after template
    substitution. The suggestions never change an active value: with any
    other valid list of suggestions, the empty one included, [resolve]
    returns the same active mapping and the same differing defaults. And
    [resolve] does succeed: with well-formed records, the lock free and no
    input/output failure, it returns whenever the engine returns on the
    merged mapping. The template engine is any function. *)
Theorem differing_suggestions_spec
    (render : gmap string string → outcome (gmap string string))
    (self : Config) (w : World) :
  (∀ active ds dd w',
     get_active_values_and_metadata render self w = (Ret (active, ds, dd), w') →
     (∃ merged,
        render merged = Ret active ∧
        merged_from (defaults self) (stored_overrides self w) merged dd) ∧
     (∀ n s, ds !! n = Some s ↔
             s ∈ suggestions self ∧ suggestion_name s = n ∧
             ∃ value, active !! n = Some value ∧ suggestion_value s ≠ value) ∧
     (∀ others : list Suggestion,
        well_formed others →
        ∃ ds', get_active_values_and_metadata render
                 (mkConfig (config_path self) (defaults self) others (docs self)) w
               = (Ret (active, ds', dd), w'))) ∧
  (well_formed (defaults self) → well_formed (stored_overrides self w) →
   well_formed (suggestions self) → faults w = [] → config_path self ∉ locks w →
   ∃ merged dd w',
     merged_from (defaults self) (stored_overrides self w) merged dd ∧
     ∀ active, render merged = Ret active →
       ∃ ds, get_active_values_and_metadata render self w = (Ret (active, ds, dd), w') ∧
             ∀ n s, ds !! n = Some s ↔
                    s ∈ suggestions self ∧ suggestion_name s = n ∧
                    ∃ value, active !! n = Some value ∧ suggestion_value s ≠ value).
Proof.
  assert (Hds : ∀ active smap,
            validate_and_map_by_name (suggestions self) = Ok smap →
            ∀ n s, differing_suggestions active smap !! n = Some s ↔
                   s ∈ suggestions self ∧ suggestion_name s = n ∧
                   ∃ value, active !! n = Some value ∧ suggestion_value s ≠ value).
  { intros active smap Hs n s. rewrite differing_suggestions_lookup.
    apply validate_Ok in Hs as [_ Hsmap].
    destruct (active !! n) as [value|] eqn:Hactive; simpl.
    + destruct (smap !! n) as [s'|] eqn:Hlook; simpl.
      * apply Hsmap in Hlook as Hs'. destruct Hs' as [Hin Hname].
        case_decide as Hdiff; split.
        -- intros [= <-]. split_and!; [done..|]. by exists value.
        -- intros (Hin' & Hname' & _).
           assert (smap !! n = Some s) as Hlook' by (by apply Hsmap). congruence.
        -- done.
        -- intros (Hin' & Hname' & value' & [= <-] & Hdiff').
           assert (smap !! n = Some s) as Hlook' by (by apply Hsmap).
           assert (s = s') as -> by congruence. done.
      * split; [done|]. intros (Hin & Hname & _).
        assert (smap !! n = Some s) as Hlook' by (by apply Hsmap). congruence.
    + split; [done|]. by intros (_ & _ & value & [=] & _). }
  split.
  - intros active ds dd w' Hrun.
    destruct (resolve_merged _ _ _ _ _ _ _ Hrun) as (_ & _ & _ & Hmerged).
    destruct (resolve_inv _ _ _ _ _ _ _ Hrun)
      as (dmap & omap & smap & merged & Hd & Hget & Ho & Hs & Hmerge & Hrender & ->).
    split_and!; [done|by apply Hds|].
    intros others [smap' Hothers]%validate_well_formed.
    exists (differing_suggestions active smap').
    unfold get_active_values_and_metadata, bind. simpl.
    rewrite Hd. simpl.
    change (get_overrides (mkConfig (config_path self) (defaults self) others (docs self)))
      with (get_overrides self).
    rewrite Hget. rewrite Ho. simpl. rewrite Hothers. simpl.
    rewrite Hmerge. unfold of_outcome. by rewrite Hrender.
  - intros Hwfd Hwfo Hwfs Hfaults Hfree.
    destruct (resolve_returns render self w Hwfd Hwfo Hwfs Hfaults Hfree)
      as (merged & dd & w' & smap & Hmerged & Hs & Hrun).
    exists merged, dd, w'. split; [done|].
    intros active Hrender. rewrite Hrender in Hrun.
    exists (differing_suggestions active smap). split; [done|]. by apply Hds.
Qed.

Lemma resolve_active_is_rendered_merge_witness :
  match get_active_values_and_metadata template.render_values_in_template_map
          net_config overridden_world with
  | (Ret (active, _, dd), _) =>
      (∀ n, is_Some (active !! n) ↔ n ∈ default_name <$> defaults net_config) ∧
      ∃ merged,
        template.render_values_in_template_map merged = Ret active ∧
        merged !! "net.host" = Some "y" ∧
        dd !! "net.host" = Some (mkDefault "net.host" "x") ∧
        merged !! "net.url" = Some "http://{{net.host}}/api" ∧
        dd !! "net.url" = None ∧
        merged !! "other.name" = None ∧ dd !! "other.name" = None
  | _ => False
  end.
Proof.
  destruct (get_active_values_and_metadata template.render_values_in_template_map
              net_config overridden_world) as [[[[active ds] dd]|e] w'] eqn:Hrun;
    [|vm_compute in Hrun; discriminate Hrun].
  destruct (resolve_active_is_rendered_merge template.render_values_in_template_map
              net_config overridden_world render_dom) as [Hspec _].
  destruct (Hspec active ds dd w' Hrun)
    as (_ & _ & merged & Hrender & Hkeys & _ & Hdefaults & Hothers).
  clear Hspec Hrun. split; [exact Hkeys|]. exists merged. split; [exact Hrender|].
  assert (Hstored : stored_overrides net_config overridden_world
                    = [mkOverride "net.host" "y";
                       mkOverride "net.url" "http://{{net.host}}/api";
                       mkOverride "other.name" "v"]) by reflexivity.
  rewrite Hstored in Hdefaults. clear Hstored.
  destruct (Hdefaults (mkDefault "net.host" "x")) as [(o & Ho & Hname & _ & Hm & Hd)|[Hall _]].
  { by left. }
  2: { specialize (Hall (mkOverride "net.host" "y")). discriminate Hall; [by left|done]. }
  assert (o = mkOverride "net.host" "y") as ->.
  { repeat (apply elem_of_cons in Ho as [Heq|Ho];
            [subst o; first [done|discriminate Hname]|]).
    by apply elem_of_nil in Ho. }
  destruct (Hdefaults (mkDefault "net.url" "http://{{net.host}}/api"))
    as [(o & Ho' & Hname' & Hne & _)|(_ & Hm' & Hd')].
  { right. by left. }
  { exfalso. repeat (apply elem_of_cons in Ho' as [Heq|Ho'];
                     [subst o; first [by destruct Hne|discriminate Hname']|]).
    by apply elem_of_nil in Ho'. }
  destruct (Hothers "other.name") as [Hm'' Hd''].
  { intros Hin. repeat (apply elem_of_cons in Hin as [Heq|Hin]; [discriminate Heq|]).
    by apply elem_of_nil in Hin. }
  by split_and!.
Defined.

(** C1 as stated fails: the active value of a name is not always the value of
    its default or override. In the spec's own scenario, with no override
    stored, the default of [net.url] refers to [net.host] and the active
    value is the rendered text. *)
Lemma resolve_active_is_not_the_default_value :
  ∃ active ds dd w',
    get_active_values_and_metadata template.render_values_in_template_map
      net_config empty_world = (Ret (active, ds, dd), w') ∧
    stored_overrides net_config empty_world = [] ∧
    mkDefault "net.url" "http://{{net.host}}/api" ∈ defaults net_config ∧
    active !! "net.url" = Some "http://x/api" ∧
    active !! "net.url" ≠ Some (default_value (mkDefault "net.url" "http://{{net.host}}/api")).
Proof.
  eexists _, _, _, _. split; [vm_compute; reflexivity|].
  split; [reflexivity|]. split; [by repeat constructor|].
  split; [reflexivity | discriminate].
Qed.

Lemma render_idempotent_witness :
  template.render_values_in_template_map
    (list_to_map [("net.host", "x"); ("net.url", "http://x/api")])
  = Ret (list_to_map [("net.host", "x"); ("net.url", "http://x/api")]).
Proof.
  apply render_idempotent. right.
  exists (list_to_map [("net.host", "x"); ("net.url", "http://{{net.host}}/api")]).
  vm_compute. reflexivity.
Defined.

Lemma differing_suggestions_spec_witness :
  match get_active_values_and_metadata template.render_values_in_template_map
          advised_config overridden_world with
  | (Ret (active, ds, _), _) =>
      active !! "net.url" = Some "http://y/api" ∧
      ds !! "net.host" = Some (mkSuggestion "net.host" "z" "a suggested host") ∧
      ds !! "net.url" = None ∧ ds !! "other.name" = None
  | _ => False
  end.
Proof.
  destruct (get_active_values_and_metadata template.render_values_in_template_map
              advised_config overridden_world) as [[[[active ds] dd]|e] w'] eqn:Hrun;
    [|vm_compute in Hrun; discriminate Hrun].
  destruct (differing_suggestions_spec template.render_values_in_template_map
              advised_config overridden_world) as [Hspec _].
  destruct (Hspec active ds dd w' Hrun) as (_ & Hds & _). clear Hspec.
  assert (Hactive : active !! "net.host" = Some "y" ∧
                    active !! "net.url" = Some "http://y/api" ∧
                    active !! "other.name" = None).
  { change active
      with ((λ r : outcome (gmap string string * gmap string Suggestion *
                            gmap string Default) * World,
               match r.1 with
               | Ret resolved => resolved.1.1
               | Raise _ => ∅
               end) (Ret (active, ds, dd), w')).
    rewrite <- Hrun. vm_compute. repeat split. }
  clear Hrun. destruct Hactive as (Hhost & Hurl & Hother).
  split_and!; [exact Hurl| | |].
  - apply Hds. split_and!; [by left|done|]. exists "y". by split.
  - destruct (ds !! "net.url") as [s|] eqn:Hs; [|done].
    apply Hds in Hs as (Hin & Hname & value & Hvalue & Hne). exfalso.
    rewrite Hurl in Hvalue. injection Hvalue as <-.
    unfold advised_config in Hin. cbn [suggestions] in Hin.
    repeat (apply elem_of_cons in Hin as [Heq|Hin];
            [subst s; first [by destruct Hne|discriminate Hname]|]).
    by apply elem_of_nil in Hin.
  - destruct (ds !! "other.name") as [s|] eqn:Hs; [|done].
    apply Hds in Hs as (_ & _ & value & Hvalue & _). congruence.
Defined.


(** ** Deleting an override *)

Lemma delete_override_Ret self key w w1 :
  delete_override self key w = (Ret tt, w1) →
  stored w1 (config_path self)
  = merge_sort props.by_name (props.without_key key (stored w (config_path self))).
Proof.
  unfold delete_override. intros Hwith.
  destruct (decide (config_path self ∈ locks w)) as [Hheld|Hfree].
  { by rewrite with_lock_held in Hwith. }
  rewrite with_lock_free in Hwith by done.
  destruct (props.delete_key (config_path self) key true (locked (config_path self) w))
    as [r w2] eqn:Hrun.
  simpl in Hwith. injection Hwith as -> <-.
  unfold props.delete_key in Hrun.
  apply bind_Ret in Hrun as (entries & w3 & Hload & Hreplace).
  apply load_files in Hload as (_ & _ & Hentries & _).
  destruct (Hentries entries eq_refl) as [-> _].
  apply replace_files in Hreplace as [[[_ Hfiles]|(e & [=] & _)] _].
  unfold stored at 1. simpl. by rewrite Hfiles.
Qed.

Lemma delete_override_no_faults self key w :
  faults w = [] → config_path self ∉ locks w →
  (delete_override self key w).1 = Ret tt.
Proof.
  intros Hfaults Hfree. unfold delete_override. rewrite with_lock_free by done. simpl.
  unfold props.delete_key, bind.
  destruct (props.load (config_path self) true (locked (config_path self) w))
    as [r w2] eqn:Hload.
  apply load_files in Hload as (_ & _ & _ & Hok).
  destruct (Hok Hfaults) as [-> Hfaults2].
  destruct (props.replace (config_path self) _ w2) as [r3 w3] eqn:Hreplace.
  apply replace_files in Hreplace as [_ Hok3].
  by destruct (Hok3 Hfaults2) as [-> _].
Qed.

Lemma refers_to_known_contains (m : gmap string string) (s : string) :
  template.refers_to_known m s = true → contains "{{" s = true.
Proof.
  induction s as [|c rest IH]; [done|].
  cbn [template.refers_to_known contains].
  intros [Hhere|Hrest]%orb_true_iff; apply orb_true_iff; [left | right; by apply IH].
  unfold template.reference_at in Hhere.
  destruct (decide (c = "{"%char)) as [->|Hc]; [|by repeat case_match].
  destruct rest as [|c' body]; [done|].
  destruct (decide (c' = "{"%char)) as [->|Hc']; [|by repeat case_match].
  apply prefix_spec. by exists body.
Qed.

Lemma render_passes_plain (fuel : nat) (m : gmap string string) (n value : string) :
  m !! n = Some value → contains "{{" value = false →
  template.render_passes fuel m !! n = Some value.
Proof.
  intros Hn Hplain. revert m Hn. induction fuel as [|fuel IH]; intros m Hn; simpl; [done|].
  case_decide; [done|]. apply IH. unfold template.render_pass.
  rewrite lookup_fmap, Hn. simpl. f_equal. apply render_go_no_reference.
  destruct (template.refers_to_known m value) eqn:Hrefers; [|done].
  apply refers_to_known_contains in Hrefers. congruence.
Qed.

Lemma stored_overrides_after_delete self key w w1 o :
  delete_override self key w = (Ret tt, w1) →
  o ∈ stored_overrides self w1 → override_name o ≠ key.
Proof.
  intros Hdel. unfold stored_overrides. rewrite (delete_override_Ret _ _ _ _ Hdel).
  intros ([n value] & -> & Hin)%list_elem_of_fmap. simpl.
  rewrite merge_sort_Permutation in Hin.
  by apply list_elem_of_filter in Hin as [Hne _].
Qed.

(** C8 (amended). After a [deleteOverride] of a default name that succeeded,
    a [resolve] that succeeds has that name absent from differingDefaults and
    its value before template substitution equal to the default's value; the
    active value is the rendering of it, which is the default's value itself
    when that value holds no "{{". Deleting does not depend on the name being
    stored: with the lock free and no input/output failure it returns
    normally, for a name with a stored override or without. *)
Theorem delete_override_reverts_to_default (self : Config) (key : string) :
  (∀ d w w1 w2 active ds dd,
     d ∈ defaults self → default_name d = key →
     delete_override self key w = (Ret tt, w1) →
     get_active_values_and_metadata template.render_values_in_template_map self w1
       = (Ret (active, ds, dd), w2) →
     dd !! key = None ∧
     ∃ merged,
       template.render_values_in_template_map merged = Ret active ∧
       merged !! key = Some (default_value d) ∧
       (contains "{{" (default_value d) = false →
        active !! key = Some (default_value d))) ∧
  (∀ w, faults w = [] → config_path self ∉ locks w →
        (delete_override self key w).1 = Ret tt).
Proof.
  split; [|intros w; apply delete_override_no_faults].
  intros d w w1 w2 active ds dd Hin Hname Hdel Hrun.
  destruct (resolve_inv _ _ _ _ _ _ _ Hrun)
    as (dmap & omap & smap & merged & Hd & Hget & Ho & Hs & Hmerge & Hrender & ->).
  apply validate_Ok in Hd as [_ Hdmap]. apply validate_Ok in Ho as [_ Homap].
  assert (dmap !! key = Some d) as Hlook by (by apply Hdmap).
  assert (omap !! key = None) as Hnone.
  { destruct (omap !! key) as [o|] eqn:Hover; [|done].
    apply Homap in Hover as [Hoin Honame].
    by destruct (stored_overrides_after_delete _ _ _ _ _ Hdel Hoin). }
  destruct (merge_defaults_lookup dmap omap key) as [Hactive Hdd].
  rewrite Hmerge, Hlook, Hnone in Hactive, Hdd. simpl in Hactive, Hdd.
  split; [done|]. exists merged. split_and!; [done..|].
  intros Hplain. apply render_Ret in Hrender as [-> _].
  by apply render_passes_plain.
Qed.

Lemma delete_override_reverts_to_default_witness :
  let w := (set_override net_config "net.host" "y" empty_world).2 in
  (delete_override net_config "net.host" w).1 = Ret tt ∧
  match get_active_values_and_metadata template.render_values_in_template_map
          net_config (delete_override net_config "net.host" w).2 with
  | (Ret (active, _, dd), _) =>
      dd !! "net.host" = None ∧ active !! "net.host" = Some "x"
  | _ => False
  end.
Proof.
  intros w.
  destruct (delete_override_reverts_to_default net_config "net.host") as [Hrevert Hdelete].
  assert ((delete_override net_config "net.host" w).1 = Ret tt) as Hok.
  { apply Hdelete; vm_compute; [reflexivity | discriminate]. }
  split; [exact Hok|].
  destruct (delete_override net_config "net.host" w) as [r w1] eqn:Hdel.
  simpl in Hok. subst r. simpl.
  destruct (get_active_values_and_metadata template.render_values_in_template_map
              net_config w1) as [[[[active ds] dd]|e] w2] eqn:Hrun.
  - destruct (Hrevert (mkDefault "net.host" "x") w w1 w2 active ds dd)
      as (Hdd & merged & _ & _ & Hactive); [by repeat constructor | done..|].
    split; [exact Hdd | by apply Hactive].
  - vm_compute in Hdel. injection Hdel as <-. vm_compute in Hrun. discriminate Hrun.
Defined.

(** C8 as stated fails: after the deletion the active value of a name is not
    always the value of its default. The default of [net.url] refers to
    [net.host]; once its override is deleted the active value is the rendered
    text, not the default's value. *)
Lemma delete_override_active_is_not_the_default_value :
  ∃ w1 active ds dd w2,
    delete_override net_config "net.url"
      (set_override net_config "net.url" "http://other/" empty_world).2 = (Ret tt, w1) ∧
    get_active_values_and_metadata template.render_values_in_template_map net_config w1
      = (Ret (active, ds, dd), w2) ∧
    mkDefault "net.url" "http://{{net.host}}/api" ∈ defaults net_config ∧
    active !! "net.url" = Some "http://x/api" ∧
    active !! "net.url" ≠ Some (default_value (mkDefault "net.url" "http://{{net.host}}/api")).
Proof.
  eexists _, _, _, _, _. split; [vm_compute; reflexivity|].
  split; [vm_compute; reflexivity|]. split; [by repeat constructor|].
  split; [reflexivity | discriminate].
Qed.

(** ** The unknown-key guard *)

Lemma printed_nil (w : World) : printed [] w = w.
Proof. destruct w. unfold printed. simpl. by rewrite app_nil_r. Qed.

Lemma printed_app (l1 l2 : list string) (w : World) :
  printed l2 (printed l1 w) = printed (l1 ++ l2) w.
Proof. unfold printed. simpl. by rewrite (assoc_L (++)). Qed.

Lemma for_each_puts (f : string → string) (l : list string) (w : World) :
  for_each l (λ x, puts (f x)) w = (Ret tt, printed (f <$> l) w).
Proof.
  revert w. induction l as [|x l IH]; intros w; simpl.
  - by rewrite printed_nil.
  - unfold bind at 1. unfold puts at 1. rewrite IH.
    unfold printed. simpl. by rewrite <- (assoc_L (++)).
Qed.

Lemma exit_on_unknown_key_spec (self : Config) (key message : string) (w : World) :
  exit_on_unknown_key self key message w
  = if decide (key ∈ default_name <$> defaults self) then (Ret tt, w)
    else (Raise (SystemExit 1),
          printed (unknown_key_lines key message (default_name <$> defaults self)) w).
Proof.
  unfold exit_on_unknown_key, unknown_key_lines.
  destruct (decide (key ∈ default_name <$> defaults self)) as [Hin|Hout].
  - by rewrite decide_False by (by intros ?).
  - rewrite decide_True by done.
    destruct (difflib.get_close_matches key (default_name <$> defaults self))
      as [|match_ matches] eqn:Hclose.
    + reflexivity.
    + unfold bind at 1. unfold puts at 1.
      unfold bind at 1. unfold bind at 1. unfold puts at 1.
      unfold bind at 1. rewrite for_each_puts. unfold puts, raise. simpl.
      unfold printed. simpl. by rewrite <- !(assoc_L (++)).
Qed.

Lemma raises_io_only_ret {A} (a : A) : raises_io_only (ret a).
Proof. by intros w e w' [=]. Qed.

Lemma raises_io_only_raise {A} (f : io_failure) : raises_io_only (raise (IOError f) : M A).
Proof. intros w e w' [= <- <-]. by exists f. Qed.

Lemma raises_io_only_get_world : raises_io_only get_world.
Proof. by intros w e w' [=]. Qed.

Lemma raises_io_only_next_fault : raises_io_only next_fault.
Proof. intros w e w'. unfold next_fault. by destruct (faults w); intros [=]. Qed.

Lemma raises_io_only_set_files f : raises_io_only (set_files f).
Proof. by intros w e w' [=]. Qed.

Lemma raises_io_only_log ev : raises_io_only (log ev).
Proof. by intros w e w' [=]. Qed.

Lemma raises_io_only_bind {A B} (c : M A) (k : A → M B) :
  raises_io_only c → (∀ a, raises_io_only (k a)) → raises_io_only (bind c k).
Proof.
  intros Hc Hk w e w' [Hraise|(a & w1 & _ & Hraise)]%bind_Raise.
  - by apply (Hc _ _ _ Hraise).
  - by apply (Hk a _ _ _ Hraise).
Qed.

Create HintDb raises_io.
#[local] Hint Resolve raises_io_only_ret raises_io_only_raise raises_io_only_get_world
  raises_io_only_next_fault raises_io_only_set_files raises_io_only_log
  raises_io_only_bind : raises_io.
#[local] Hint Extern 2 (raises_io_only (match ?x with _ => _ end)) => destruct x : raises_io.
#[local] Hint Extern 2 (raises_io_only (if ?x then _ else _)) => destruct x : raises_io.

Lemma raises_io_only_load path create_new : raises_io_only (props.load path create_new).
Proof. unfold props.load, props.create_empty, props.read. eauto 20 with raises_io. Qed.

Lemma raises_io_only_replace path entries : raises_io_only (props.replace path entries).
Proof. unfold props.replace, props.write, props.rename. eauto 20 with raises_io. Qed.

Lemma raises_io_only_set_key path key value create_new :
  raises_io_only (props.set_key path key value create_new).
Proof.
  unfold props.set_key. apply raises_io_only_bind; [apply raises_io_only_load|].
  intros entries. apply raises_io_only_replace.
Qed.

Lemma raises_io_only_delete_key path key create_new :
  raises_io_only (props.delete_key path key create_new).
Proof.
  unfold props.delete_key. apply raises_io_only_bind; [apply raises_io_only_load|].
  intros entries. apply raises_io_only_replace.
Qed.

Lemma with_lock_quiet {A} (path : string) (body : M A) (w : World) :
  io_only body → raises_io_only body →
  console (with_ (protected_file_path.ProtectedFilePath path) body w).2 = console w ∧
  ∀ e, (with_ (protected_file_path.ProtectedFilePath path) body w).1 = Raise e →
       ∃ f, e = IOError f.
Proof.
  intros Hio Hraises. destruct (decide (path ∈ locks w)) as [Hheld|Hfree].
  - rewrite with_lock_held by done. simpl. split; [done|].
    intros e [= <-]. by eexists.
  - rewrite with_lock_free by done. simpl.
    destruct (body (locked path w)) as [r w2] eqn:Hrun. simpl.
    destruct (Hio _ _ _ Hrun) as (_ & Hconsole & _). split; [done|].
    intros e ->. by apply (Hraises _ _ _ Hrun).
Qed.

(** C4 (amended). [set_var] and [delete_var] call the guard before they touch
    the store. For a key that is not a default name they end with
    [sys.exit(1)] after writing a message that holds the key and the close
    matches of the key among the default names, and the store, its lock and
    its file are untouched; for a key that is a default name the guard
    passes and the call is the store's [set] (or [delete]). [enable] and
    [disable] do not call the guard: they are the store's [set] and [delete]
    on "<service>.enabled", whatever the service name, write nothing on the
    console and never exit. *)
Theorem unknown_key_guard_spec (self : Config) (args : Args) (w : World) :
  let names := default_name <$> defaults self in
  let key := property_name args in
  (key ∉ names →
     (∃ message, occurs_in key message ∧
        set_var self args w
        = (Raise (SystemExit 1), printed (unknown_key_lines key message names) w)) ∧
     (∃ message, occurs_in key message ∧
        delete_var self args w
        = (Raise (SystemExit 1), printed (unknown_key_lines key message names) w))) ∧
  (key ∈ names →
     set_var self args w = set_override self key (property_value args) w ∧
     delete_var self args w = delete_override self key w) ∧
  (enable self args w = set_override self (service_name args +:+ ".enabled") "True" w ∧
   disable self args w = delete_override self (service_name args +:+ ".enabled") w ∧
   console (enable self args w).2 = console w ∧
   console (disable self args w).2 = console w ∧
   (∀ status, (enable self args w).1 ≠ Raise (SystemExit status)) ∧
   (∀ status, (disable self args w).1 ≠ Raise (SystemExit status))).
Proof.
  intros names key. subst names key. split_and!.
  - intros Hout. split.
    + eexists. split; [|unfold set_var, bind; rewrite exit_on_unknown_key_spec;
                         by rewrite decide_False by done].
      apply (occurs_in_witness ("Error: Can't set override value for " +:+ dquote)).
    + eexists. split; [|unfold delete_var, bind; rewrite exit_on_unknown_key_spec;
                         by rewrite decide_False by done].
      apply (occurs_in_witness ("Error: Can't delete override value for " +:+ dquote)).
  - intros Hin. split.
    + unfold set_var, bind. rewrite exit_on_unknown_key_spec.
      by rewrite decide_True by done.
    + unfold delete_var, bind. rewrite exit_on_unknown_key_spec.
      by rewrite decide_True by done.
  - done.
  - done.
  - apply with_lock_quiet; [apply io_only_set_key | apply raises_io_only_set_key].
  - apply with_lock_quiet; [apply io_only_delete_key | apply raises_io_only_delete_key].
  - intros status Hexit.
    destruct (with_lock_quiet (config_path self)
                (props.set_key (config_path self) (service_name args +:+ ".enabled")
                   "True" true) w (io_only_set_key _ _ _ _)
                (raises_io_only_set_key _ _ _ _)) as [_ Hio].
    by destruct (Hio _ Hexit).
  - intros status Hexit.
    destruct (with_lock_quiet (config_path self)
                (props.delete_key (config_path self) (service_name args +:+ ".enabled")
                   true) w (io_only_delete_key _ _ _)
                (raises_io_only_delete_key _ _ _)) as [_ Hio].
    by destruct (Hio _ Hexit).
Qed.

Lemma unknown_key_guard_spec_witness :
  (∃ message,
     set_var net_config (mkArgs "" "net.hots" "y") empty_world
     = (Raise (SystemExit 1),
        printed (unknown_key_lines "net.hots" message ["net.host"; "net.url"]) empty_world)) ∧
  set_var net_config (mkArgs "" "net.host" "y") empty_world
  = set_override net_config "net.host" "y" empty_world.
Proof.
  split.
  - destruct (unknown_key_guard_spec net_config (mkArgs "" "net.hots" "y") empty_world)
      as (Hunknown & _ & _).
    destruct Hunknown as [(message & _ & Hset) _].
    + intros Hin. simpl in Hin.
      by repeat (apply elem_of_cons in Hin as [?|Hin]; [done|]); apply elem_of_nil in Hin.
    + by exists message.
  - destruct (unknown_key_guard_spec net_config (mkArgs "" "net.host" "y") empty_world)
      as (_ & Hknown & _).
    destruct Hknown as [Hset _]; [by repeat constructor | exact Hset].
Defined.

(** C4 as stated fails: a set driven by a caller-supplied name is not always
    preceded by the guard. [enable] of a service that no default names stores
    the override and returns normally. *)
Lemma enable_skips_the_guard :
  ("nosuch.enabled" ∉ default_name <$> defaults net_config) ∧
  ∃ w', enable net_config (mkArgs "nosuch" "" "") empty_world = (Ret tt, w') ∧
        stored w' (config_path net_config) = [("nosuch.enabled", "True")] ∧
        console w' = [].
Proof.
  split.
  - intros Hin. simpl in Hin. by repeat (apply elem_of_cons in Hin as [?|Hin]; [done|]);
      apply elem_of_nil in Hin.
  - eexists. split; [vm_compute; reflexivity|]. split; reflexivity.
Qed.

(** ** More on the validator *)

Lemma well_formed_Permutation {A} `{Named A} (l l' : list A) :
  l ≡ₚ l' → well_formed l → well_formed l'.
Proof.
  intros Hperm [Hvalid Hnodup]. split.
  - intros x Hx. apply Hvalid. by rewrite Hperm.
  - by rewrite <- Hperm.
Qed.

Lemma maps_names_unique {A} `{Named A} (l l' : list A) (m m' : gmap string A) :
  maps_names l m → maps_names l' m' → (∀ r, r ∈ l ↔ r ∈ l') → m = m'.
Proof.
  intros Hm Hm' Hsame. apply map_eq. intros n. apply option_eq. intros r.
  by rewrite (Hm n r), (Hm' n r), Hsame.
Qed.

Lemma validate_Permutation {A} `{Named A} (l l' : list A) (m : gmap string A) :
  l ≡ₚ l' →
  validate_and_map_by_name l = Ok m → validate_and_map_by_name l' = Ok m.
Proof.
  intros Hperm [Hwf Hm]%validate_Ok.
  destruct (validate_well_formed l') as [m' Hvalidate'];
    [by apply (well_formed_Permutation l)|].
  rewrite Hvalidate'. f_equal. symmetry.
  apply validate_Ok in Hvalidate' as [_ Hm'].
  apply (maps_names_unique l l'); [done..|]. intros r. by rewrite Hperm.
Qed.

(** X1. Validation does not depend on the order of the records: a
    collection validates exactly when a reordering of it does, and both give
    the same mapping. *)
Theorem validate_and_map_by_name_Permutation {A} `{Named A} (l l' : list A) :
  l ≡ₚ l' →
  ∀ m, validate_and_map_by_name l = Ok m ↔ validate_and_map_by_name l' = Ok m.
Proof.
  intros Hperm m. split.
  - by apply validate_Permutation.
  - apply validate_Permutation. by symmetry.
Qed.

(** X2. The mapping of a validated collection holds every record exactly
    once: its values are the records of the input up to order, it has as
    many entries as the input has records, and each record is found under
    its own name. *)
Theorem validate_and_map_by_name_values {A} `{Named A} (l : list A) (m : gmap string A) :
  validate_and_map_by_name l = Ok m →
  (map_to_list m).*2 ≡ₚ l ∧ size m = length l ∧ ∀ x, x ∈ l → m !! name x = Some x.
Proof.
  intros [[_ Hnodup] Hm]%validate_Ok.
  assert (Hperm : (map_to_list m).*2 ≡ₚ l).
  { apply NoDup_Permutation.
    - apply NoDup_fmap_2_strong; [|apply NoDup_map_to_list].
      intros [n1 r1] [n2 r2] Hin1%elem_of_map_to_list Hin2%elem_of_map_to_list Heq.
      simpl in Heq. subst r2. apply Hm in Hin1 as [_ <-]. by apply Hm in Hin2 as [_ <-].
    - by apply NoDup_fmap_1 in Hnodup.
    - intros r. rewrite list_elem_of_fmap. split.
      + intros ([n r'] & -> & Hin%elem_of_map_to_list). simpl. by apply Hm in Hin as [? _].
      + intros Hr. exists (name r, r). split; [done|].
        apply elem_of_map_to_list. by apply Hm. }
  split_and!; [done| |].
  - by rewrite <- Hperm, length_fmap, length_map_to_list.
  - intros x Hx. by apply Hm.
Qed.

(** X3. A concatenation validates exactly when both parts validate and
    share no name; its mapping is then the union of the mappings of the
    parts. *)
Theorem validate_and_map_by_name_app {A} `{Named A} (l1 l2 : list A) (m : gmap string A) :
  validate_and_map_by_name (l1 ++ l2) = Ok m ↔
  ∃ m1 m2, validate_and_map_by_name l1 = Ok m1 ∧ validate_and_map_by_name l2 = Ok m2 ∧
           m1 ##ₘ m2 ∧ m = m1 ∪ m2.
Proof.
  split.
  - intros [[Hvalid Hnodup] Hm]%validate_Ok.
    rewrite fmap_app in Hnodup. apply NoDup_app in Hnodup as (Hnd1 & Hdisjoint & Hnd2).
    destruct (validate_well_formed l1) as [m1 Hv1].
    { split; [|done]. intros x Hx. apply Hvalid. rewrite elem_of_app. by left. }
    destruct (validate_well_formed l2) as [m2 Hv2].
    { split; [|done]. intros x Hx. apply Hvalid. rewrite elem_of_app. by right. }
    exists m1, m2. split_and!; [done..| |].
    + apply validate_Ok in Hv1 as [_ Hm1]. apply validate_Ok in Hv2 as [_ Hm2].
      apply map_disjoint_spec. intros n r1 r2 [Hr1 Hn1]%Hm1 [Hr2 Hn2]%Hm2.
      apply (Hdisjoint n).
      * rewrite <- Hn1. by apply list_elem_of_fmap_2.
      * rewrite <- Hn2. by apply list_elem_of_fmap_2.
    + apply validate_Ok in Hv1 as [_ Hm1]. apply validate_Ok in Hv2 as [_ Hm2].
      apply map_eq. intros n. apply option_eq. intros r.
      rewrite (Hm n r), elem_of_app, lookup_union_Some_raw, (Hm1 n r), (Hm2 n r).
      split; [|tauto]. intros [[Hr|Hr] Hn]; [tauto|]. right. split; [|done].
      apply eq_None_not_Some. intros [r1 [Hr1 Hn1]%Hm1]. apply (Hdisjoint n).
      * rewrite <- Hn1. by apply list_elem_of_fmap_2.
      * rewrite <- Hn. by apply list_elem_of_fmap_2.
  - intros (m1 & m2 & [[Hvalid1 Hnd1] Hm1]%validate_Ok & [[Hvalid2 Hnd2] Hm2]%validate_Ok &
            Hdisjoint & ->).
    destruct (validate_well_formed (l1 ++ l2)) as [m Hv].
    { split.
      - intros x [Hx|Hx]%elem_of_app; [by apply Hvalid1|by apply Hvalid2].
      - rewrite fmap_app. apply NoDup_app. split_and!; [done| |done].
        intros n (r1 & -> & Hr1)%list_elem_of_fmap (r2 & Hn & Hr2)%list_elem_of_fmap.
        apply (map_disjoint_spec m1 m2) with (i := name r1) (x := r1) (y := r2);
          [done|by apply Hm1|by apply Hm2]. }
    rewrite Hv. f_equal. apply validate_Ok in Hv as [_ Hm].
    apply map_eq. intros n. apply option_eq. intros r.
    rewrite (Hm n r), elem_of_app, lookup_union_Some by done.
    rewrite (Hm1 n r), (Hm2 n r). tauto.
Qed.

(** ** The order of the checks of the resolver *)

Lemma validate_not_well_formed {A} `{Named A} (variables : list A) :
  ¬ well_formed variables → ∃ e, validate_and_map_by_name variables = Err e.
Proof.
  intros Hnot. destruct (validate_and_map_by_name variables) as [m|e] eqn:Hv; [|by eauto].
  destruct Hnot. by apply (validate_Ok _ _ Hv).
Qed.

(** X4. [get_active_values_and_metadata] validates the defaults before it
    opens the store: with defaults that are not well-formed it raises the
    module's [Error] and leaves the world as it was, no lock taken and no
    file read or created. *)
Theorem resolve_checks_defaults_first
    (render : gmap string string → outcome (gmap string string))
    (self : Config) (w : World) :
  ¬ well_formed (defaults self) →
  ∃ e, get_active_values_and_metadata render self w = (Raise (ConfigError e), w).
Proof.
  intros [e He]%validate_not_well_formed. unfold get_active_values_and_metadata.
  rewrite He. by eauto.
Qed.

(** X5. Once the store has been read, stored overrides or suggestions that
    are not well-formed make [get_active_values_and_metadata] raise the
    module's [Error], whatever the template engine would do with the values;
    an invalid or repeated name in the store does so even when it is the
    name of no default. *)
Theorem resolve_checks_overrides_and_suggestions
    (render : gmap string string → outcome (gmap string string))
    (self : Config) (w w1 : World) (overrides : list Override) :
  well_formed (defaults self) →
  get_overrides self w = (Ret overrides, w1) →
  ¬ (well_formed overrides ∧ well_formed (suggestions self)) →
  ∃ e, get_active_values_and_metadata render self w = (Raise (ConfigError e), w1).
Proof.
  intros [defaults_by_name Hdefaults]%validate_well_formed Hoverrides Hnot.
  unfold get_active_values_and_metadata. rewrite Hdefaults. cbn [bind lift ret].
  unfold bind at 1. rewrite Hoverrides.
  destruct (validate_and_map_by_name overrides) as [overrides_by_name|e] eqn:Hv;
    [|by eauto].
  cbn [bind lift ret].
  destruct (validate_and_map_by_name (suggestions self)) as [suggestions_by_name|e] eqn:Hs;
    [|by eauto].
  destruct Hnot. split; [by apply (validate_Ok _ _ Hv)|by apply (validate_Ok _ _ Hs)].
Qed.

(** X6. The result of [get_active_values_and_metadata] does not depend on the
    order in which the defaults and the suggestions are given: a
    configuration that lists the same defaults and suggestions in another
    order, over the same store, resolves to the same three mappings and
    leaves the same world. *)
Theorem resolve_order_independent
    (render : gmap string string → outcome (gmap string string))
    (self other : Config) (w w' : World)
    (resolved : gmap string string * gmap string Suggestion * gmap string Default) :
  config_path other = config_path self →
  defaults self ≡ₚ defaults other →
  suggestions self ≡ₚ suggestions other →
  get_active_values_and_metadata render self w = (Ret resolved, w') →
  get_active_values_and_metadata render other w = (Ret resolved, w').
Proof.
  intros Hpath Hdefaults Hsuggestions Hrun. destruct resolved as [[active ds] dd].
  destruct (resolve_inv _ _ _ _ _ _ _ Hrun)
    as (dmap & omap & smap & merged & Hd & Hget & Ho & Hs & Hmerge & Hrender & ->).
  apply (validate_Permutation _ _ _ Hdefaults) in Hd.
  apply (validate_Permutation _ _ _ Hsuggestions) in Hs.
  assert (Hget' : get_overrides other w = (Ret (stored_overrides self w), w')).
  { unfold get_overrides in *. by rewrite Hpath. }
  unfold get_active_values_and_metadata. rewrite Hd. cbn [bind lift ret].
  unfold bind at 1. rewrite Hget', Ho. cbn [bind lift ret]. rewrite Hs.
  cbn [bind lift ret]. rewrite Hmerge. unfold bind, of_outcome. by rewrite Hrender.
Qed.

(** ** The documentation listing *)

Lemma names_by_category_spec (docs_by_name : gmap string Doc) :
  groups_names docs_by_name (names_by_category docs_by_name).
Proof.
  unfold names_by_category.
  apply (map_fold_weak_ind (λ (groups : gmap string (list string)) (m : gmap string Doc),
           groups_names m groups)).
  - intros category. rewrite lookup_empty. intros n [doc Hn]. by rewrite lookup_empty in Hn.
  - intros i doc m groups Hfresh IH category. specialize (IH category).
    destruct (decide (first_segment i = category)) as [<-|Hne].
    + rewrite lookup_insert_eq.
      destruct (groups !! first_segment i) as [names|] eqn:Hgroup; simpl.
      * destruct IH as (Hnodup & _ & Hnames). split_and!.
        -- apply NoDup_app. split_and!; [done| |apply NoDup_singleton].
           intros n Hn ->%list_elem_of_singleton.
           apply Hnames in Hn as [[doc' Hn] _]. congruence.
        -- by intros [_ ?]%app_eq_nil.
        -- intros n. rewrite elem_of_app, list_elem_of_singleton, Hnames.
           destruct (decide (n = i)) as [->|Hni].
           ++ rewrite lookup_insert_eq. split; [by eauto | by right].
           ++ rewrite lookup_insert_ne by done. split; [by intros [?| ->] | by left].
      * split_and!; [apply NoDup_singleton | done |].
        intros n. rewrite list_elem_of_singleton.
        destruct (decide (n = i)) as [->|Hni].
        -- rewrite lookup_insert_eq. by eauto.
        -- rewrite lookup_insert_ne by done. split; [done|].
           intros [Hn Hcat]. by destruct (IH n Hn).
    + rewrite lookup_insert_ne by done.
      destruct (groups !! category) as [names|] eqn:Hgroup.
      * destruct IH as (Hnodup & Hnonempty & Hnames). split_and!; [done..|].
        intros n. rewrite Hnames. destruct (decide (n = i)) as [->|Hni].
        -- rewrite lookup_insert_eq, Hfresh. split; [by intros [[] _] | by intros [_ ?]].
        -- by rewrite lookup_insert_ne by done.
      * intros n. destruct (decide (n = i)) as [->|Hni]; [done|].
        rewrite lookup_insert_ne by done. apply IH.
Qed.

Lemma list_remove_None (x : string) (l : list string) :
  list_remove x l = None ↔ x ∉ l.
Proof.
  induction l as [|y l IH]; simpl.
  - split; [intros _; apply not_elem_of_nil | done].
  - rewrite not_elem_of_cons. destruct (decide (y = x)) as [->|Hne].
    + split; [done | by intros [? _]].
    + destruct (list_remove x l); simpl; [|naive_solver].
      split; [done|]. intros [_ Hx]. by apply IH in Hx.
Qed.

Lemma list_remove_Some (x : string) (l rest : list string) :
  list_remove x l = Some rest →
  ∃ before after, l = before ++ x :: after ∧ rest = before ++ after ∧ x ∉ before.
Proof.
  revert rest. induction l as [|y l IH]; intros rest; simpl; [done|].
  destruct (decide (y = x)) as [->|Hne].
  - intros [= <-]. exists [], l. split_and!; [done..|apply not_elem_of_nil].
  - destruct (list_remove x l) as [rest'|]; simpl; [|done]. intros [= <-].
    destruct (IH rest' eq_refl) as (before & after & -> & -> & Hx).
    exists (y :: before), after. split_and!; [done..|].
    rewrite not_elem_of_cons. by split.
Qed.

(** A loop that adds lines to the output: every round either adds the lines
    of its element or raises, whatever the output so far. *)
Lemma fold_for_lines {A} (ok : A → Prop) `{∀ x, Decision (ok x)}
    (g : A → list string) (bad : Exn → Prop)
    (body : list string → A → M (list string)) (l : list A) :
  (∀ x, x ∈ l →
     (ok x → ∀ out w, body out x w = (Ret (out ++ g x), w)) ∧
     (¬ ok x → ∃ e, bad e ∧ ∀ out w, body out x w = (Raise e, w))) →
  (Forall ok l → ∀ out w, fold_for l body out w = (Ret (out ++ flat_map g l), w)) ∧
  (¬ Forall ok l → ∃ e, bad e ∧ ∀ out w, fold_for l body out w = (Raise e, w)).
Proof.
  induction l as [|x l IH]; intros Hbody.
  - split; [|by intros []]. intros _ out w. simpl. by rewrite app_nil_r.
  - destruct IH as [IHok IHbad].
    { intros y Hy. apply Hbody. by right. }
    destruct (Hbody x) as [Hok Hbad]; [by left|].
    split.
    + intros [Hx Hl]%Forall_cons out w. simpl. unfold bind.
      rewrite (Hok Hx), (IHok Hl). by rewrite <- (assoc_L (++)).
    + intros Hnot. destruct (decide (ok x)) as [Hx|Hx].
      * destruct IHbad as (e & He & Hraise).
        { intros Hl. apply Hnot. by constructor. }
        exists e. split; [done|]. intros out w. simpl. unfold bind.
        by rewrite (Hok Hx), Hraise.
      * destruct (Hbad Hx) as (e & He & Hraise).
        exists e. split; [done|]. intros out w. simpl. unfold bind.
        by rewrite Hraise.
Qed.

Section ListingLoop.

Variable wrap : string → list string.
Variable defaults_by_name : gmap string Default.
Variable docs_by_name : gmap string Doc.
Hypothesis docs_named : ∀ n doc, docs_by_name !! n = Some doc → doc_name doc = n.

Lemma show_name_spec (n : string) :
  is_Some (docs_by_name !! n) →
  (has_default defaults_by_name n → ∀ out w,
     show_name wrap defaults_by_name docs_by_name out n w
     = (Ret (out ++ lines_of_name wrap defaults_by_name docs_by_name n), w)) ∧
  (¬ has_default defaults_by_name n → ∃ e, undocumented_default defaults_by_name docs_by_name e ∧ ∀ out w,
     show_name wrap defaults_by_name docs_by_name out n w = (Raise e, w)).
Proof.
  intros [doc Hdoc]. unfold has_default, show_name, lines_of_name, entry_of, getitem, bind.
  rewrite Hdoc. simpl. split.
  - intros [default Hdefault] out w. rewrite Hdefault. simpl. unfold name_lines. simpl.
    unfold ret. rewrite (docs_named n doc Hdoc). by rewrite <- !(assoc_L (++)).
  - intros Hnone. apply eq_None_not_Some in Hnone. exists (KeyError n). split.
    + exists n. by eauto.
    + intros out w. by rewrite Hnone.
Qed.

Lemma show_category_spec (names : gmap string (list string)) (category : string) :
  is_Some (names !! category) →
  (∀ n, n ∈ default [] (names !! category) → is_Some (docs_by_name !! n)) →
  (category_has_defaults defaults_by_name names category → ∀ out w,
     show_category wrap defaults_by_name docs_by_name names out category w
     = (Ret (out ++ lines_of_category wrap defaults_by_name docs_by_name names category), w)) ∧
  (¬ category_has_defaults defaults_by_name names category → ∃ e, undocumented_default defaults_by_name docs_by_name e ∧ ∀ out w,
     show_category wrap defaults_by_name docs_by_name names out category w = (Raise e, w)).
Proof.
  intros [ns Hns] Hdocs. unfold category_has_defaults, show_category, lines_of_category.
  rewrite Hns in *. simpl in *.
  destruct (fold_for_lines (has_default defaults_by_name) (lines_of_name wrap defaults_by_name docs_by_name) (undocumented_default defaults_by_name docs_by_name)
              (show_name wrap defaults_by_name docs_by_name) (sorted ns)) as [Hok Hbad].
  { intros n Hn. apply show_name_spec, Hdocs.
    unfold sorted in Hn. by rewrite merge_sort_Permutation in Hn. }
  split.
  - intros Hall out w. unfold bind, getitem. rewrite Hns. simpl.
    rewrite (Hok Hall). unfold ret. by rewrite <- !(assoc_L (++)).
  - intros Hnot. destruct (Hbad Hnot) as (e & He & Hraise). exists e. split; [done|].
    intros out w. unfold bind, getitem. rewrite Hns. simpl. by rewrite Hraise.
Qed.

End ListingLoop.

Lemma sorted_Permutation (l : list string) : sorted l ≡ₚ l.
Proof. apply merge_sort_Permutation. Qed.

Lemma sorted_StronglySorted (l : list string) : StronglySorted String.le (sorted l).
Proof. apply StronglySorted_merge_sort; apply _. Qed.

Lemma elem_of_sorted (x : string) (l : list string) : x ∈ sorted l ↔ x ∈ l.
Proof. by rewrite sorted_Permutation. Qed.

Lemma categories_of_spec (names : gmap string (list string)) :
  match categories_of names with
  | Ret categories =>
      is_Some (names !! "main") ∧
      ∃ rest, categories = "main" :: rest ∧ ("main" ∉ rest) ∧ NoDup rest ∧
              StronglySorted String.le rest ∧
              ∀ c, c ∈ rest ↔ c ≠ "main" ∧ is_Some (names !! c)
  | Raise e => e = ValueError ∧ names !! "main" = None
  end.
Proof.
  unfold categories_of.
  assert (Hkeys : ∀ c, c ∈ sorted (map_to_list names).*1 ↔ is_Some (names !! c)).
  { intros c. rewrite elem_of_sorted, list_elem_of_fmap. split.
    - intros ([c' ns] & -> & Hin). apply elem_of_map_to_list in Hin. by eauto.
    - intros [ns Hns]. exists (c, ns). split; [done|]. by apply elem_of_map_to_list. }
  assert (Hnodup : NoDup (sorted (map_to_list names).*1)).
  { rewrite sorted_Permutation. apply NoDup_fst_map_to_list. }
  pose proof (sorted_StronglySorted (map_to_list names).*1) as Hsorted.
  destruct (list_remove "main" (sorted (map_to_list names).*1)) as [rest|] eqn:Hremove.
  - apply list_remove_Some in Hremove as (before & after & Heq & -> & Hbefore).
    rewrite Heq in Hkeys, Hnodup, Hsorted.
    apply NoDup_app in Hnodup as (Hnd1 & Hdisjoint & [Hafter Hnd2]%NoDup_cons).
    apply StronglySorted_app in Hsorted as (Hle & Hs1 & [Hle2 Hs2]%StronglySorted_cons).
    split.
    { apply Hkeys. rewrite elem_of_app. right. by left. }
    exists (before ++ after). split_and!; [done| | | |].
    + rewrite elem_of_app. by intros [?|?].
    + apply NoDup_app. split_and!; [done| |done].
      intros x Hx Hx'. apply (Hdisjoint x Hx). by right.
    + apply StronglySorted_app. split_and!; [|done..].
      intros x1 x2 Hx1 Hx2. apply Hle; [done|]. by right.
    + intros c. rewrite <- Hkeys, !elem_of_app, elem_of_cons. split.
      * intros [Hc|Hc]; (split; [by intros ->|]); tauto.
      * intros [Hne [?|[?|?]]]; tauto.
  - apply list_remove_None in Hremove. split; [done|].
    apply eq_None_not_Some. by rewrite <- Hkeys.
Qed.

Lemma flat_map_lines_of_name wrap defaults_by_name docs_by_name (l : list string) :
  flat_map (lines_of_name wrap defaults_by_name docs_by_name) l
  = flat_map (λ entry, name_lines wrap entry.1 entry.2)
             (omap (entry_of defaults_by_name docs_by_name) l).
Proof.
  induction l as [|n l IH]; simpl; [done|]. unfold lines_of_name at 1.
  destruct (entry_of defaults_by_name docs_by_name n); simpl; by rewrite IH.
Qed.

Lemma flat_map_lines_of_category wrap defaults_by_name docs_by_name names categories :
  flat_map (lines_of_category wrap defaults_by_name docs_by_name names) categories
  = listing wrap (groups_of defaults_by_name docs_by_name names categories).
Proof.
  unfold listing, groups_of. induction categories as [|c l IH]; simpl; [done|].
  rewrite IH. unfold lines_of_category, category_lines. simpl.
  by rewrite flat_map_lines_of_name.
Qed.

Lemma maps_names_named {A} `{Named A} (l : list A) (m : gmap string A) n r :
  maps_names l m → m !! n = Some r → name r = n.
Proof. intros Hm Hr. by apply Hm in Hr as [_ ?]. Qed.

(** The categories all have their defaults exactly when every documented
    name has one. *)
Lemma covered_categories defaults_by_name (docs_by_name : gmap string Doc) categories :
  (∀ c, c ∈ categories ↔ is_Some (names_by_category docs_by_name !! c)) →
  Forall (category_has_defaults defaults_by_name (names_by_category docs_by_name))
         categories
  ↔ covered defaults_by_name docs_by_name.
Proof.
  intros Hcategories. pose proof (names_by_category_spec docs_by_name) as Hgroups.
  rewrite Forall_forall. unfold category_has_defaults, covered. split.
  - intros Hall n Hn. specialize (Hgroups (first_segment n)).
    destruct (names_by_category docs_by_name !! first_segment n) as [ns|] eqn:Hns.
    + destruct Hgroups as (_ & _ & Hnames).
      assert (Hc : first_segment n ∈ categories) by (apply Hcategories; by rewrite Hns).
      specialize (Hall _ Hc). rewrite Hns in Hall. simpl in Hall.
      rewrite Forall_forall in Hall. apply Hall, (proj2 (elem_of_sorted _ _)), Hnames. by split.
    + by destruct (Hgroups n Hn).
  - intros Hcovered c Hc. apply Hcategories in Hc as [ns Hns]. rewrite Hns. simpl.
    rewrite Forall_forall. intros n Hn%(proj1 (elem_of_sorted _ _)).
    specialize (Hgroups c). rewrite Hns in Hgroups. destruct Hgroups as (_ & _ & Hnames).
    apply Hcovered. by apply Hnames in Hn as [? _].
Qed.

Lemma show_docs_run wrap (self : Config) defaults_by_name docs_by_name :
  validate_and_map_by_name (defaults self) = Ok defaults_by_name →
  validate_and_map_by_name (docs self) = Ok docs_by_name →
  let names := names_by_category docs_by_name in
  match categories_of names with
  | Raise e => ∀ w, show_docs wrap self w = (Raise e, w)
  | Ret categories =>
      (covered defaults_by_name docs_by_name → ∀ w,
         show_docs wrap self w
         = (Ret tt,
            paged (String.concat newline
                     (listing wrap (groups_of defaults_by_name docs_by_name names
                                              categories))) w)) ∧
      (¬ covered defaults_by_name docs_by_name →
         ∃ e, undocumented_default defaults_by_name docs_by_name e ∧
              ∀ w, show_docs wrap self w = (Raise e, w))
  end.
Proof.
  intros Hdefaults Hdocs names.
  pose proof (categories_of_spec names) as Hcategories.
  pose proof (names_by_category_spec docs_by_name) as Hgroups. fold names in Hgroups.
  destruct (validate_Ok _ _ Hdocs) as [_ Hmaps].
  destruct (categories_of names) as [categories|e] eqn:Hcats.
  - destruct Hcategories as (Hmain & rest & -> & Hnotin & _ & _ & Hrest).
    assert (Hin : ∀ c, c ∈ "main" :: rest ↔ is_Some (names !! c)).
    { intros c. rewrite elem_of_cons, Hrest. destruct (decide (c = "main")) as [->|]; tauto. }
    destruct (fold_for_lines (category_has_defaults defaults_by_name names)
                (lines_of_category wrap defaults_by_name docs_by_name names)
                (undocumented_default defaults_by_name docs_by_name)
                (show_category wrap defaults_by_name docs_by_name names)
                ("main" :: rest)) as [Hok Hbad].
    { intros c Hc. apply show_category_spec.
      - intros n doc Hn. by apply (maps_names_named (docs self) docs_by_name).
      - by apply Hin.
      - intros n Hn. apply Hin in Hc as [ns Hns]. specialize (Hgroups c).
        rewrite Hns in Hgroups, Hn. destruct Hgroups as (_ & _ & Hnames).
        by apply Hnames in Hn as [? _]. }
    split.
    + intros Hcovered%(covered_categories _ _ ("main" :: rest)); [|done]. intros w.
      unfold show_docs. rewrite Hdefaults. cbn [bind lift ret]. rewrite Hdocs.
      cbn [bind lift ret]. fold names. rewrite Hcats. cbn [bind ret of_outcome]. unfold bind. rewrite (Hok Hcovered).
      by rewrite app_nil_l, flat_map_lines_of_category.
    + intros Hnot. destruct Hbad as (e & He & Hraise).
      { intros Hall. apply Hnot. by apply (covered_categories _ _ ("main" :: rest)). }
      exists e. split; [done|]. intros w.
      unfold show_docs. rewrite Hdefaults. cbn [bind lift ret]. rewrite Hdocs.
      cbn [bind lift ret]. fold names. rewrite Hcats. cbn [bind ret of_outcome]. unfold bind. by rewrite Hraise.
  - intros w. unfold show_docs. rewrite Hdefaults. cbn [bind lift ret]. rewrite Hdocs.
    cbn [bind lift ret]. fold names. by rewrite Hcats.
Qed.

Lemma covered_or_not defaults_by_name (docs_by_name : gmap string Doc) :
  covered defaults_by_name docs_by_name ∨ ¬ covered defaults_by_name docs_by_name.
Proof.
  destruct (decide (map_Forall (λ n _, is_Some (defaults_by_name !! n)) docs_by_name))
    as [Hall|Hnot]; [left|right].
  - intros n [doc Hdoc]. by apply (Hall n doc).
  - intros Hcovered. apply Hnot. intros n doc Hdoc. apply Hcovered. by eauto.
Qed.

Lemma covered_spec (self : Config) defaults_by_name docs_by_name :
  maps_names (defaults self) defaults_by_name → maps_names (docs self) docs_by_name →
  covered defaults_by_name docs_by_name
  ↔ ∀ doc, doc ∈ docs self → doc_name doc ∈ default_name <$> defaults self.
Proof.
  intros Hdefaults Hdocs. unfold covered. split.
  - intros Hcovered doc Hdoc.
    apply (maps_names_is_Some _ _ _ Hdefaults), Hcovered.
    exists doc. by apply Hdocs.
  - intros Hall n [doc Hdoc]. apply Hdocs in Hdoc as [Hin <-].
    by apply (maps_names_is_Some _ _ _ Hdefaults), Hall.
Qed.

Lemma category_present (self : Config) docs_by_name (category : string) :
  maps_names (docs self) docs_by_name →
  is_Some (names_by_category docs_by_name !! category)
  ↔ ∃ doc, doc ∈ docs self ∧ first_segment (doc_name doc) = category.
Proof.
  intros Hdocs. pose proof (names_by_category_spec docs_by_name category) as Hgroups.
  destruct (names_by_category docs_by_name !! category) as [ns|] eqn:Hns.
  - destruct Hgroups as (_ & Hnonempty & Hnames). split; [intros _|by eauto].
    destruct ns as [|n ns]; [done|].
    destruct (proj1 (Hnames n)) as [[doc Hdoc] Hcategory]; [by left|].
    apply Hdocs in Hdoc as [Hin <-]. by eauto.
  - split; [by intros [? ?]|]. intros (doc & Hin & Hcategory).
    destruct (Hgroups (doc_name doc)); [|done]. exists doc. by apply Hdocs.
Qed.

Lemma show_docs_Ret wrap (self : Config) (w w' : World) :
  show_docs wrap self w = (Ret tt, w') →
  ∃ defaults_by_name docs_by_name rest,
    validate_and_map_by_name (defaults self) = Ok defaults_by_name ∧
    validate_and_map_by_name (docs self) = Ok docs_by_name ∧
    categories_of (names_by_category docs_by_name) = Ret ("main" :: rest) ∧
    covered defaults_by_name docs_by_name ∧
    w' = paged (String.concat newline
                  (listing wrap (groups_of defaults_by_name docs_by_name
                                   (names_by_category docs_by_name) ("main" :: rest)))) w.
Proof.
  intros Hrun.
  destruct (validate_and_map_by_name (defaults self)) as [defaults_by_name|e] eqn:Hdefaults;
    [|by unfold show_docs in Hrun; rewrite Hdefaults in Hrun].
  destruct (validate_and_map_by_name (docs self)) as [docs_by_name|e] eqn:Hdocs;
    [|by unfold show_docs in Hrun; rewrite Hdefaults in Hrun; cbn [bind lift ret] in Hrun;
         rewrite Hdocs in Hrun].
  pose proof (show_docs_run wrap self _ _ Hdefaults Hdocs) as Hspec. simpl in Hspec.
  pose proof (categories_of_spec (names_by_category docs_by_name)) as Hcategories.
  destruct (categories_of (names_by_category docs_by_name)) as [categories|e] eqn:Hcats;
    [|by rewrite Hspec in Hrun].
  destruct Hcategories as (_ & rest & -> & _). destruct Hspec as [Hok Hbad].
  destruct (covered_or_not defaults_by_name docs_by_name) as [Hcovered|Hnot].
  - rewrite (Hok Hcovered) in Hrun. injection Hrun as <-. by eauto 10.
  - destruct (Hbad Hnot) as (e & _ & Hraise). by rewrite Hraise in Hrun.
Qed.

Lemma groups_of_categories defaults_by_name docs_by_name names categories :
  (groups_of defaults_by_name docs_by_name names categories).*1 = categories.
Proof.
  unfold groups_of. rewrite <- list_fmap_compose. by rewrite list_fmap_id.
Qed.

Lemma entries_names defaults_by_name (docs_by_name : gmap string Doc) (l : list string) :
  (∀ n doc, docs_by_name !! n = Some doc → doc_name doc = n) →
  (∀ n, n ∈ l → is_Some (docs_by_name !! n) ∧ is_Some (defaults_by_name !! n)) →
  (doc_name ∘ fst) <$> omap (entry_of defaults_by_name docs_by_name) l = l.
Proof.
  intros Hnamed. induction l as [|n l IH]; intros Hl; simpl; [done|].
  destruct (Hl n) as [[doc Hdoc] [default Hdefault]]; [by left|].
  unfold entry_of at 1. rewrite Hdoc, Hdefault. simpl.
  f_equal; [by apply Hnamed|]. apply IH. intros n' Hn'. apply Hl. by right.
Qed.

Lemma entry_of_Some defaults_by_name (docs_by_name : gmap string Doc) n doc default :
  entry_of defaults_by_name docs_by_name n = Some (doc, default)
  ↔ docs_by_name !! n = Some doc ∧ defaults_by_name !! n = Some default.
Proof.
  unfold entry_of. destruct (docs_by_name !! n) as [doc'|]; simpl; [|naive_solver].
  destruct (defaults_by_name !! n) as [default'|]; simpl; naive_solver.
Qed.

(** The listing in groups: what the pager is given when [show_docs]
    succeeds. *)
Lemma show_docs_groups wrap (self : Config) (w w' : World) :
  show_docs wrap self w = (Ret tt, w') →
  ∃ groups rest,
    w' = paged (String.concat newline (listing wrap groups)) w ∧
    groups.*1 = "main" :: rest ∧ ("main" ∉ rest) ∧ NoDup rest ∧
    StronglySorted String.le rest ∧
    (∀ category entries, (category, entries) ∈ groups →
       entries ≠ [] ∧
       NoDup ((doc_name ∘ fst) <$> entries) ∧
       StronglySorted String.le ((doc_name ∘ fst) <$> entries) ∧
       ∀ doc default, (doc, default) ∈ entries →
         doc ∈ docs self ∧ default ∈ defaults self ∧
         default_name default = doc_name doc ∧
         first_segment (doc_name doc) = category) ∧
    (∀ doc, doc ∈ docs self →
       ∃ entries default,
         (first_segment (doc_name doc), entries) ∈ groups ∧ (doc, default) ∈ entries).
Proof.
  intros (defaults_by_name & docs_by_name & rest & Hdefaults & Hdocs & Hcats & Hcovered & ->)
    %show_docs_Ret.
  destruct (validate_Ok _ _ Hdefaults) as [_ Hmd].
  destruct (validate_Ok _ _ Hdocs) as [_ Hmdocs].
  pose proof (categories_of_spec (names_by_category docs_by_name)) as Hcategories.
  rewrite Hcats in Hcategories.
  destruct Hcategories as (Hmain & rest' & [= <-] & Hnotin & Hnodup & Hsorted & Hrest).
  pose proof (names_by_category_spec docs_by_name) as Hgroups.
  set (names := names_by_category docs_by_name) in *.
  assert (Hin : ∀ c, c ∈ "main" :: rest ↔ is_Some (names !! c)).
  { intros c. rewrite elem_of_cons, Hrest. destruct (decide (c = "main")) as [->|]; tauto. }
  assert (Hnamed : ∀ n doc, docs_by_name !! n = Some doc → doc_name doc = n).
  { intros n doc Hn. by apply (maps_names_named (docs self) docs_by_name). }
  exists (groups_of defaults_by_name docs_by_name names ("main" :: rest)), rest.
  split_and!; [done|apply groups_of_categories|done..| |].
  - intros category entries Hgroup.
    apply list_elem_of_fmap in Hgroup as (c & [= -> ->] & Hc).
    apply Hin in Hc as [ns Hns]. rewrite Hns. simpl.
    specialize (Hgroups c). rewrite Hns in Hgroups.
    destruct Hgroups as (Hnd & Hnonempty & Hnames).
    assert (Hentries : (doc_name ∘ fst) <$> omap (entry_of defaults_by_name docs_by_name)
                                               (sorted ns) = sorted ns).
    { apply entries_names; [done|]. intros n Hn%(proj1 (elem_of_sorted _ _)).
      apply Hnames in Hn as [Hn _]. split; [done|]. by apply Hcovered. }
    split_and!.
    + intros Hempty. rewrite Hempty in Hentries. simpl in Hentries.
      apply Hnonempty, Permutation_nil. by rewrite <- (sorted_Permutation ns), <- Hentries.
    + rewrite Hentries. by rewrite sorted_Permutation.
    + rewrite Hentries. apply sorted_StronglySorted.
    + intros doc default (n & Hn & Hentry)%list_elem_of_omap.
      apply entry_of_Some in Hentry as [Hdoc Hdefault].
      apply (proj1 (elem_of_sorted _ _)), Hnames in Hn as [_ Hcategory].
      apply Hmdocs in Hdoc as [? Hdn]. apply Hmd in Hdefault as [? Hfn].
      simpl in Hdn, Hfn. unfold name, Doc_named in Hdn. unfold name, Default_named in Hfn.
      split_and!; [done|done|congruence|congruence].
  - intros doc Hdoc.
    assert (Hlookup : docs_by_name !! doc_name doc = Some doc) by by apply Hmdocs.
    destruct (Hcovered (doc_name doc)) as [default Hdefault]; [by eauto|].
    pose proof (Hgroups (first_segment (doc_name doc))) as Hgroup.
    destruct (names !! first_segment (doc_name doc)) as [ns|] eqn:Hns;
      [|by destruct (Hgroup (doc_name doc)); eauto].
    destruct Hgroup as (_ & _ & Hnames).
    exists (omap (entry_of defaults_by_name docs_by_name) (sorted ns)), default. split.
    + apply list_elem_of_fmap. exists (first_segment (doc_name doc)).
      rewrite Hns. split; [done|]. apply Hin. by rewrite Hns.
    + apply list_elem_of_omap. exists (doc_name doc). split.
      * apply (proj2 (elem_of_sorted _ _)), Hnames. by eauto.
      * by apply entry_of_Some.
Qed.

(** X10. The listing [show_docs] hands to the pager: the category "main"
    first, then the other categories in ascending order, each once; in each
    category its documented names in ascending order, each once, every one
    with its own documentation and the value of the default of the same
    name; every documented name is listed under the category that is the
    text before its first dot. *)
Theorem show_docs_listing wrap (self : Config) (w w' : World) :
  show_docs wrap self w = (Ret tt, w') →
  ∃ groups rest,
    w' = paged (String.concat newline (listing wrap groups)) w ∧
    groups.*1 = "main" :: rest ∧ ("main" ∉ rest) ∧ NoDup rest ∧
    StronglySorted String.le rest ∧
    (∀ category entries, (category, entries) ∈ groups →
       entries ≠ [] ∧
       NoDup ((doc_name ∘ fst) <$> entries) ∧
       StronglySorted String.le ((doc_name ∘ fst) <$> entries) ∧
       ∀ doc default, (doc, default) ∈ entries →
         doc ∈ docs self ∧ default ∈ defaults self ∧
         default_name default = doc_name doc ∧
         first_segment (doc_name doc) = category) ∧
    (∀ doc, doc ∈ docs self →
       ∃ entries default,
         (first_segment (doc_name doc), entries) ∈ groups ∧ (doc, default) ∈ entries).
Proof.
  intros Hrun.
  destruct (show_docs_groups wrap self w w' Hrun)
    as (groups & rest & Hpaged & Hcategories & Hmain & Hnodup & Hsorted & Hentries & Hall).
  exists groups, rest. split_and!; assumption.
Qed.

Lemma show_docs_invalid wrap (self : Config) (w : World) :
  ¬ (well_formed (defaults self) ∧ well_formed (docs self)) →
  ∃ e, show_docs wrap self w = (Raise (ConfigError e), w).
Proof.
  intros Hnot. unfold show_docs.
  destruct (validate_and_map_by_name (defaults self)) as [defaults_by_name|e] eqn:Hdefaults;
    [|by eauto].
  destruct (validate_and_map_by_name (docs self)) as [docs_by_name|e] eqn:Hdocs.
  - destruct Hnot. split; [by apply (validate_Ok _ _ Hdefaults)|by apply (validate_Ok _ _ Hdocs)].
  - cbn [bind lift ret]. by eauto.
Qed.

(** X7. [show_docs] shows a listing exactly when the defaults and the docs
    are well-formed, some documented name belongs to the category "main",
    and every documented name is the name of a default. *)
Theorem show_docs_succeeds_iff wrap (self : Config) (w : World) :
  (∃ w', show_docs wrap self w = (Ret tt, w')) ↔
  well_formed (defaults self) ∧ well_formed (docs self) ∧
  (∃ doc, doc ∈ docs self ∧ first_segment (doc_name doc) = "main") ∧
  (∀ doc, doc ∈ docs self → doc_name doc ∈ default_name <$> defaults self).
Proof.
  split.
  - intros [w' (defaults_by_name & docs_by_name & rest & Hdefaults & Hdocs & Hcats &
                Hcovered & _)%show_docs_Ret].
    destruct (validate_Ok _ _ Hdefaults) as [Hwd Hmd].
    destruct (validate_Ok _ _ Hdocs) as [Hwdocs Hmdocs].
    pose proof (categories_of_spec (names_by_category docs_by_name)) as Hcategories.
    rewrite Hcats in Hcategories. destruct Hcategories as [Hmain _].
    split_and!; [done..| |].
    + by apply (category_present self docs_by_name).
    + by apply (covered_spec self defaults_by_name docs_by_name).
  - intros (Hwd & Hwdocs & Hmain & Hall).
    destruct (validate_well_formed _ Hwd) as [defaults_by_name Hdefaults].
    destruct (validate_well_formed _ Hwdocs) as [docs_by_name Hdocs].
    destruct (validate_Ok _ _ Hdefaults) as [_ Hmd].
    destruct (validate_Ok _ _ Hdocs) as [_ Hmdocs].
    pose proof (show_docs_run wrap self _ _ Hdefaults Hdocs) as Hspec. simpl in Hspec.
    pose proof (categories_of_spec (names_by_category docs_by_name)) as Hcategories.
    apply (category_present self docs_by_name) in Hmain; [|done].
    destruct (categories_of (names_by_category docs_by_name)) as [categories|e].
    + destruct Hspec as [Hok _]. eexists. apply Hok.
      by apply (covered_spec self defaults_by_name docs_by_name).
    + destruct Hcategories as [_ Hnone]. rewrite Hnone in Hmain. by destruct Hmain.
Qed.

(** X8. With well-formed defaults and docs of which none belongs to the
    category "main" (in particular with no docs at all), [show_docs] raises
    the [ValueError] of [categories.remove('main')], and nothing is handed
    to the pager. *)
Theorem show_docs_requires_main wrap (self : Config) (w : World) :
  well_formed (defaults self) → well_formed (docs self) →
  (∀ doc, doc ∈ docs self → first_segment (doc_name doc) ≠ "main") →
  show_docs wrap self w = (Raise ValueError, w).
Proof.
  intros Hwd Hwdocs Hnomain.
  destruct (validate_well_formed _ Hwd) as [defaults_by_name Hdefaults].
  destruct (validate_well_formed _ Hwdocs) as [docs_by_name Hdocs].
  destruct (validate_Ok _ _ Hdocs) as [_ Hmdocs].
  pose proof (show_docs_run wrap self _ _ Hdefaults Hdocs) as Hspec. simpl in Hspec.
  pose proof (categories_of_spec (names_by_category docs_by_name)) as Hcategories.
  destruct (categories_of (names_by_category docs_by_name)) as [categories|e].
  - destruct Hcategories as [Hmain _].
    apply (category_present self docs_by_name) in Hmain as (doc & Hdoc & Hcategory); [|done].
    by destruct (Hnomain doc Hdoc).
  - destruct Hcategories as [-> _]. apply Hspec.
Qed.

(** X9. With well-formed defaults and docs and a category "main", a
    documented name that has no default makes [show_docs] raise the
    [KeyError] of [defaults_by_name[name]] for such a name, and nothing is
    handed to the pager. *)
Theorem show_docs_requires_defaults wrap (self : Config) (w : World) :
  well_formed (defaults self) → well_formed (docs self) →
  (∃ doc, doc ∈ docs self ∧ first_segment (doc_name doc) = "main") →
  ¬ (∀ doc, doc ∈ docs self → doc_name doc ∈ default_name <$> defaults self) →
  ∃ n, n ∈ doc_name <$> docs self ∧ (n ∉ default_name <$> defaults self) ∧
       show_docs wrap self w = (Raise (KeyError n), w).
Proof.
  intros Hwd Hwdocs Hmain Hnot.
  destruct (validate_well_formed _ Hwd) as [defaults_by_name Hdefaults].
  destruct (validate_well_formed _ Hwdocs) as [docs_by_name Hdocs].
  destruct (validate_Ok _ _ Hdefaults) as [_ Hmd].
  destruct (validate_Ok _ _ Hdocs) as [_ Hmdocs].
  pose proof (show_docs_run wrap self _ _ Hdefaults Hdocs) as Hspec. simpl in Hspec.
  pose proof (categories_of_spec (names_by_category docs_by_name)) as Hcategories.
  apply (category_present self docs_by_name) in Hmain; [|done].
  destruct (categories_of (names_by_category docs_by_name)) as [categories|e].
  - destruct Hspec as [_ Hbad].
    destruct Hbad as (e & (n & -> & Hdoc & Hnone) & Hraise).
    { intros Hcovered. apply Hnot.
      by apply (covered_spec self defaults_by_name docs_by_name). }
    exists n. split_and!; [| |by apply Hraise].
    + by apply (maps_names_is_Some (docs self) docs_by_name).
    + intros Hin. apply (maps_names_is_Some (defaults self) defaults_by_name) in Hin; [|done].
      rewrite Hnone in Hin. by destruct Hin.
  - destruct Hcategories as [_ Hnone]. rewrite Hnone in Hmain. by destruct Hmain.
Qed.

(** X11. [show_docs] is a function of the configuration alone: it either
    raises the same exception in every world and leaves the world as it is,
    or hands the same text to the pager in every world and changes nothing
    else. It never reads the stored overrides nor takes the lock, so the
    listing shows the defaults whatever is overridden. *)
Theorem show_docs_reads_no_store wrap (self : Config) :
  ∃ result : outcome string, ∀ w,
    show_docs wrap self w
    = match result with
      | Ret text => (Ret tt, paged text w)
      | Raise e => (Raise e, w)
      end.
Proof.
  destruct (validate_and_map_by_name (defaults self)) as [defaults_by_name|e] eqn:Hdefaults.
  2: { exists (Raise (ConfigError (Error_map to_record e))). intros w.
       unfold show_docs. by rewrite Hdefaults. }
  destruct (validate_and_map_by_name (docs self)) as [docs_by_name|e] eqn:Hdocs.
  2: { exists (Raise (ConfigError (Error_map to_record e))). intros w.
       unfold show_docs. rewrite Hdefaults. cbn [bind lift ret]. by rewrite Hdocs. }
  pose proof (show_docs_run wrap self _ _ Hdefaults Hdocs) as Hspec. simpl in Hspec.
  destruct (categories_of (names_by_category docs_by_name)) as [categories|e].
  - destruct Hspec as [Hok Hbad].
    destruct (covered_or_not defaults_by_name docs_by_name) as [Hcovered|Hnot].
    + eexists (Ret _). apply (Hok Hcovered).
    + destruct (Hbad Hnot) as (e & _ & Hraise). by exists (Raise e).
  - by exists (Raise e).
Qed.

(** ** The documentation listing: every outcome *)

Lemma show_docs_outcome wrap (self : Config) (w : World) :
  (¬ (well_formed (defaults self) ∧ well_formed (docs self)) ∧
   ∃ e, show_docs wrap self w = (Raise (ConfigError e), w)) ∨
  (well_formed (defaults self) ∧ well_formed (docs self) ∧
   ((¬ has_main self ∧ show_docs wrap self w = (Raise ValueError, w)) ∨
    (has_main self ∧ ¬ documents_defaults self ∧
     ∃ n, n ∈ doc_name <$> docs self ∧ (n ∉ default_name <$> defaults self) ∧
          show_docs wrap self w = (Raise (KeyError n), w)) ∨
    (has_main self ∧ documents_defaults self ∧
     ∃ w', show_docs wrap self w = (Ret tt, w')))).
Proof.
  destruct (validate_and_map_by_name (defaults self)) as [defaults_by_name|e] eqn:Hdefaults.
  2: { left. split; [|apply show_docs_invalid];
       intros [Hwf _]; by apply (validate_Err_not_well_formed _ _ Hdefaults). }
  destruct (validate_and_map_by_name (docs self)) as [docs_by_name|e] eqn:Hdocs.
  2: { left. split; [|apply show_docs_invalid];
       intros [_ Hwf]; by apply (validate_Err_not_well_formed _ _ Hdocs). }
  right. unfold has_main, documents_defaults.
  destruct (validate_Ok _ _ Hdefaults) as [Hwd Hmd].
  destruct (validate_Ok _ _ Hdocs) as [Hwdocs Hmdocs].
  split_and!; [done..|].
  pose proof (show_docs_run wrap self _ _ Hdefaults Hdocs) as Hspec. simpl in Hspec.
  pose proof (categories_of_spec (names_by_category docs_by_name)) as Hcategories.
  pose proof (category_present self docs_by_name "main" Hmdocs) as Hmain.
  pose proof (covered_spec self defaults_by_name docs_by_name Hmd Hmdocs) as Hcovered.
  destruct (categories_of (names_by_category docs_by_name)) as [categories|e].
  - destruct Hcategories as [Hpresent _]. apply Hmain in Hpresent.
    destruct Hspec as [Hok Hbad]. right.
    destruct (covered_or_not defaults_by_name docs_by_name) as [Hyes|Hno].
    + right. split_and!; [done|by apply Hcovered|]. eexists. by apply Hok.
    + left. split_and!; [done|by rewrite <- Hcovered|].
      destruct (Hbad Hno) as (e & (n & -> & Hdoc & Hnone) & Hraise).
      exists n. split_and!; [| |by apply Hraise].
      * by apply (maps_names_is_Some (docs self) docs_by_name).
      * intros Hin.
        apply (maps_names_is_Some (defaults self) defaults_by_name) in Hin; [|done].
        rewrite Hnone in Hin. by destruct Hin.
  - destruct Hcategories as [-> Hnone]. left. split; [|apply Hspec].
    intros Hpresent%Hmain. rewrite Hnone in Hpresent. by destruct Hpresent.
Qed.

(** C9 (amended). Whenever [show_docs] shows a listing, the text it hands to
    the pager is the listing of the docs in groups: the group of the
    category "main" first, then the other categories in ascending order
    (the byte-wise order of Python's [sorted]), each once; in each group the
    documented names of that category in ascending order, each once, every
    one with its own documentation and the default of the same name; every
    doc is in the group of the text before the first dot of its name. And
    [show_docs] does show the listing for every well-formed collection of
    docs that has a name in the category "main" and only names of
    well-formed defaults. *)
Theorem docs_by_category_listing wrap (self : Config) (w : World) :
  (∀ w', show_docs wrap self w = (Ret tt, w') →
     ∃ groups rest,
       w' = paged (String.concat newline (listing wrap groups)) w ∧
       groups.*1 = "main" :: rest ∧ ("main" ∉ rest) ∧ NoDup rest ∧
       StronglySorted String.le rest ∧
       (∀ category entries, (category, entries) ∈ groups →
          entries ≠ [] ∧
          NoDup ((doc_name ∘ fst) <$> entries) ∧
          StronglySorted String.le ((doc_name ∘ fst) <$> entries) ∧
          ∀ doc default, (doc, default) ∈ entries →
            doc ∈ docs self ∧ default ∈ defaults self ∧
            default_name default = doc_name doc ∧
            first_segment (doc_name doc) = category) ∧
       (∀ doc, doc ∈ docs self →
          ∃ entries default,
            (first_segment (doc_name doc), entries) ∈ groups ∧
            (doc, default) ∈ entries)) ∧
  (well_formed (defaults self) → well_formed (docs self) →
   has_main self → documents_defaults self →
   ∃ w', show_docs wrap self w = (Ret tt, w')).
Proof.
  split; [intros w'; apply show_docs_groups|].
  intros Hwd Hwdocs Hmain Hall.
  destruct (show_docs_outcome wrap self w)
    as [[Hnot _]|(_ & _ & [[Hnomain _]|[(_ & Hnotall & _)|(_ & _ & Hrun)]])]; try done.
  by destruct Hnot.
Qed.

(** C10. [show_docs] is partial. It shows a listing only if some documented
    name lies in the category "main" and every documented name is the name
    of a default. For docs that violate either condition, the empty
    collection included, it raises an exception that nothing catches, not
    [SystemExit], and hands nothing to the pager: with well-formed defaults
    and docs, the [ValueError] of [categories.remove('main')] when no name
    lies in "main", and else the [KeyError] of [defaults_by_name[name]] for
    a documented name that has no default. *)
Theorem show_docs_partial wrap (self : Config) (w : World) :
  (∀ w', show_docs wrap self w = (Ret tt, w') →
         has_main self ∧ documents_defaults self) ∧
  (¬ (has_main self ∧ documents_defaults self) →
   ∃ e, show_docs wrap self w = (Raise e, w) ∧ (∀ status, e ≠ SystemExit status) ∧
        (well_formed (defaults self) → well_formed (docs self) →
         (¬ has_main self → e = ValueError) ∧
         (has_main self →
          ∃ n, e = KeyError n ∧ n ∈ doc_name <$> docs self ∧
               (n ∉ default_name <$> defaults self)))) ∧
  (docs self = [] → ∃ e, show_docs wrap self w = (Raise e, w)).
Proof.
  pose proof (show_docs_outcome wrap self w) as Houtcome.
  split_and!.
  - intros w' Hrun.
    destruct Houtcome
      as [[_ [e He]]|(_ & _ & [[_ He]|[(_ & _ & n & _ & _ & He)|(Hmain & Hall & _)]])];
      [congruence..|done].
  - intros Hnot.
    destruct Houtcome
      as [[Hnwf [e He]]|(Hwd & Hwdocs &
            [[Hnomain He]|[(Hmain & _ & n & Hn & Hnd & He)|(Hmain & Hall & _)]])].
    + exists (ConfigError e). split_and!; [done..|]. intros ? ?. by destruct Hnwf.
    + exists ValueError. split_and!; [done..|]. intros _ _. by split.
    + exists (KeyError n). split_and!; [done..|]. intros _ _. split; [done|].
      intros _. by exists n.
    + by destruct Hnot.
  - intros Hempty.
    assert (¬ has_main self) as Hnomain.
    { intros (doc & Hdoc & _). rewrite Hempty in Hdoc. by apply elem_of_nil in Hdoc. }
    destruct Houtcome
      as [[_ [e He]]|(_ & _ & [[_ He]|[(Hmain & _)|(Hmain & _)]])]; by eauto.
Qed.

(** X12. The listing does not depend on the order in which the defaults
    and the docs are given. *)
Theorem show_docs_order_independent wrap (self other : Config) (w w' : World) :
  defaults self ≡ₚ defaults other → docs self ≡ₚ docs other →
  show_docs wrap self w = (Ret tt, w') → show_docs wrap other w = (Ret tt, w').
Proof.
  intros Hdefaults Hdocs Hrun.
  destruct (show_docs_Ret _ _ _ _ Hrun)
    as (defaults_by_name & docs_by_name & rest & Hd & Hdoc & _).
  pose proof (validate_Permutation _ _ _ Hdefaults Hd) as Hd'.
  pose proof (validate_Permutation _ _ _ Hdocs Hdoc) as Hdoc'.
  unfold show_docs in *. rewrite Hd in Hrun. rewrite Hd'. cbn [bind lift ret] in *.
  rewrite Hdoc in Hrun. by rewrite Hdoc'.
Qed.

Lemma repeat_char_length (c : ascii) (n : nat) : String.length (repeat_char c n) = n.
Proof. induction n as [|n IH]; simpl; [done|]. by rewrite IH. Qed.

Lemma ljust_length (s : string) (width : nat) :
  String.length s ≤ width → String.length (ljust s width) = width.
Proof. intros Hle. unfold ljust. rewrite length_append, repeat_char_length. lia. Qed.

Lemma title_go_length (previous_is_cased : bool) (s : string) :
  String.length (title_go previous_is_cased s) = String.length s.
Proof.
  revert previous_is_cased. induction s as [|c s IH]; intros previous_is_cased; simpl;
    [done|].
  destruct (is_lower c || is_upper c); simpl; by rewrite IH.
Qed.

Lemma fold_for_extends {A} (body : list string → A → M (list string)) (l : list A) :
  (∀ out x w out' w', body out x w = (Ret out', w') → ∃ rest, out' = out ++ rest) →
  ∀ out w out' w',
    fold_for l body out w = (Ret out', w') → ∃ rest, out' = out ++ rest.
Proof.
  intros Hbody. induction l as [|x l IH]; intros out w out' w' Hrun; simpl in Hrun.
  - injection Hrun as <- _. exists []. by rewrite app_nil_r.
  - apply bind_Ret in Hrun as (out1 & w1 & Hx & Hrest).
    apply Hbody in Hx as [rest1 ->]. apply IH in Hrest as [rest2 ->].
    exists (rest1 ++ rest2). by rewrite (assoc_L (++)).
Qed.

Lemma show_name_extends wrap defaults_by_name docs_by_name out n w out' w' :
  show_name wrap defaults_by_name docs_by_name out n w = (Ret out', w') →
  ∃ rest, out' = out ++ rest.
Proof.
  unfold show_name. intros (doc & w1 & _ & Hrun)%bind_Ret.
  apply bind_Ret in Hrun as (default & w2 & _ & Hrun). injection Hrun as <- _.
  eexists. by rewrite <- !(assoc_L (++)).
Qed.

(** X13. The lines [show_docs] adds for a category start with the heading,
    which is the category's name in title case ([category.title()]), and
    the underline, which is the dash repeated once for each character of the
    category's name; the underline is exactly as long as the heading. *)
Theorem show_category_heading wrap defaults_by_name docs_by_name names
    (output : list string) (category : string) (w : World) out' w' :
  show_category wrap defaults_by_name docs_by_name names output category w
  = (Ret out', w') →
  ∃ rest,
    out' = output ++ title category :: repeat_char "-" (String.length category) :: rest ∧
    String.length (repeat_char "-" (String.length category))
    = String.length (title category) ∧
    String.length (title category) = String.length category.
Proof.
  unfold show_category. intros (ns & w1 & _ & Hrun)%bind_Ret.
  apply bind_Ret in Hrun as (out1 & w2 & Hnames & Hrun). injection Hrun as <- _.
  apply fold_for_extends in Hnames as [rest ->]; [|apply show_name_extends].
  exists (rest ++ [newline]).
  split; [by rewrite <- !(assoc_L (++))|]. unfold title.
  by rewrite repeat_char_length, title_go_length.
Qed.

(** ** Listing the variables *)

Lemma StronglySorted_filter {A} (R : relation A) (P : A → Prop) `{∀ x, Decision (P x)}
    (l : list A) :
  StronglySorted R l → StronglySorted R (filter P l).
Proof.
  induction 1 as [|x l Hl IH Hx]; [constructor|].
  rewrite filter_cons. destruct (decide (P x)); [|done].
  constructor; [done|]. rewrite Forall_forall in *.
  intros y [_ Hy]%list_elem_of_filter. by apply Hx.
Qed.

Lemma elem_of_keys {A} (d : gmap string A) (n : string) : n ∈ keys d ↔ is_Some (d !! n).
Proof.
  unfold keys. rewrite list_elem_of_fmap. split.
  - intros ([n' x] & -> & Hin). apply elem_of_map_to_list in Hin. by eauto.
  - intros [x Hx]. exists (n, x). split; [done|]. by apply elem_of_map_to_list.
Qed.

Lemma NoDup_keys {A} (d : gmap string A) : NoDup (keys d).
Proof. apply NoDup_fst_map_to_list. Qed.

Section PrintingLoop.

Variable green : string → string.
Variable args : ListArgs.
Variable vals : gmap string string.
Variable different_defaults : gmap string Default.
Variable column_width : nat.

Lemma list_var_Some (n value : string) (w : World) :
  vals !! n = Some value →
  list_var green args vals different_defaults column_width n w
  = (Ret tt, printed [var_line green args column_width n value (different_defaults !! n)] w).
Proof.
  intros Hvalue. unfold list_var, var_line, getitem, bind. rewrite Hvalue.
  destruct (as_props args); [done|].
  destruct (decide (is_Some (different_defaults !! n))) as [[default Hdefault]|Hnone].
  - by rewrite Hdefault.
  - apply eq_None_not_Some in Hnone. by rewrite Hnone.
Qed.

Lemma list_var_None (n : string) (w : World) :
  vals !! n = None →
  list_var green args vals different_defaults column_width n w = (Raise (KeyError n), w).
Proof.
  intros Hvalue. unfold list_var, getitem, bind. rewrite Hvalue.
  destruct (as_props args); [done|].
  by destruct (decide (is_Some (different_defaults !! n))).
Qed.

Lemma for_each_list_var (names : list string) (w : World) :
  (Forall (λ n, is_Some (vals !! n)) names ∧
   ∃ lines,
     for_each names (list_var green args vals different_defaults column_width) w
     = (Ret tt, printed lines w) ∧
     Forall2 (λ n line, ∃ value, vals !! n = Some value ∧
                line = var_line green args column_width n value
                         (different_defaults !! n))
             names lines) ∨
  (∃ n w', n ∈ names ∧ vals !! n = None ∧
     for_each names (list_var green args vals different_defaults column_width) w
     = (Raise (KeyError n), w')).
Proof.
  revert w. induction names as [|n names IH]; intros w.
  - left. split; [done|]. exists []. split; [by rewrite printed_nil|done].
  - simpl. unfold bind. destruct (vals !! n) as [value|] eqn:Hvalue.
    + rewrite (list_var_Some n value w Hvalue).
      destruct (IH (printed [var_line green args column_width n value
                               (different_defaults !! n)] w))
        as [(Hall & lines & Hrun & Hlines)|(n' & w' & Hin & Hnone & Hrun)].
      * left. split; [by constructor|].
        exists (var_line green args column_width n value (different_defaults !! n) :: lines).
        rewrite Hrun, printed_app. split; [done|]. constructor; [by eauto|done].
      * right. exists n', w'. rewrite Hrun. split_and!; [by right|done..].
    + right. exists n, w. rewrite (list_var_None n w Hvalue). split_and!; [by left|done..].
Qed.

End PrintingLoop.

Lemma list_vars_resolved render green (self : Config) (args : ListArgs) (w w1 : World)
    vals ds dd :
  get_active_values_and_metadata render self w = (Ret (vals, ds, dd), w1) →
  ∃ names,
    NoDup names ∧ StronglySorted String.le names ∧
    (∀ n, n ∈ names ↔ listed args vals dd n) ∧
    list_vars render green self args w
    = for_each names
        (list_var green args vals dd (max_list (String.length <$> names) + 1)) w1.
Proof.
  intros Hresolve. unfold list_vars, bind. rewrite Hresolve.
  set (candidates := if verbose args then sorted (keys vals) else sorted (keys dd)).
  assert (Hcandidates : NoDup candidates ∧ StronglySorted String.le candidates ∧
            ∀ n, n ∈ candidates
                 ↔ if verbose args then is_Some (vals !! n) else is_Some (dd !! n)).
  { unfold candidates. destruct (verbose args).
    - split_and!; [rewrite sorted_Permutation; apply NoDup_keys
                  |apply sorted_StronglySorted|].
      intros n. by rewrite elem_of_sorted, elem_of_keys.
    - split_and!; [rewrite sorted_Permutation; apply NoDup_keys
                  |apply sorted_StronglySorted|].
      intros n. by rewrite elem_of_sorted, elem_of_keys. }
  destruct Hcandidates as (Hnodup & Hsorted & Hin).
  set (namelist := match substring_match args with
                   | Some substring =>
                       filter (λ name, contains substring name = true) candidates
                   | None => candidates
                   end).
  exists namelist. split_and!.
  - unfold namelist. destruct (substring_match args); [by apply NoDup_filter|done].
  - unfold namelist. destruct (substring_match args); [by apply StronglySorted_filter|done].
  - intros n. unfold namelist, listed. destruct (substring_match args) as [substring|].
    + rewrite list_elem_of_filter, Hin, contains_spec. tauto.
    + rewrite Hin. tauto.
  - by destruct namelist.
Qed.

Lemma list_vars_unresolved render green (self : Config) (args : ListArgs) (w w' : World) e :
  get_active_values_and_metadata render self w = (Raise e, w') →
  list_vars render green self args w = (Raise e, w').
Proof. intros Hresolve. unfold list_vars, bind. by rewrite Hresolve. Qed.

(** X14. What [list_vars] prints when it succeeds: one line for each listed
    name, in ascending order of the names and each name once. Listed are the
    names of the active values when [verbose] is set, else the names whose
    value differs from the default, and of these the ones the substring
    occurs in, when one is given. A line holds the name and its active value
    (and the default's value, in green, when the value differs from it); in
    the table form every name is padded to the column width, which is one
    more than the length of the longest listed name. *)
Theorem list_vars_lists render green (self : Config) (args : ListArgs) (w w' : World) :
  list_vars render green self args w = (Ret tt, w') →
  ∃ vals ds dd w1 names lines,
    get_active_values_and_metadata render self w = (Ret (vals, ds, dd), w1) ∧
    w' = printed lines w1 ∧
    NoDup names ∧ StronglySorted String.le names ∧
    (∀ n, n ∈ names ↔ listed args vals dd n) ∧
    Forall2 (λ n line, ∃ value, vals !! n = Some value ∧
               line = var_line green args (max_list (String.length <$> names) + 1)
                        n value (dd !! n))
            names lines ∧
    (∀ n, n ∈ names →
       String.length (ljust n (max_list (String.length <$> names) + 1))
       = max_list (String.length <$> names) + 1) ∧
    (names ≠ [] →
       ∃ longest, longest ∈ names ∧
         max_list (String.length <$> names) + 1 = String.length longest + 1 ∧
         ∀ n, n ∈ names → String.length n ≤ String.length longest).
Proof.
  intros Hrun.
  destruct (get_active_values_and_metadata render self w) as [[[[vals ds] dd]|e] w1]
    eqn:Hresolve; [|by rewrite (list_vars_unresolved _ _ _ _ _ _ _ Hresolve) in Hrun].
  destruct (list_vars_resolved render green self args w w1 vals ds dd Hresolve)
    as (names & Hnodup & Hsorted & Hin & Hlist).
  rewrite Hlist in Hrun.
  destruct (for_each_list_var green args vals dd
              (max_list (String.length <$> names) + 1) names w1)
    as [(_ & lines & Hlines & Hforall)|(n & w2 & _ & _ & Hraise)];
    [|by rewrite Hraise in Hrun].
  rewrite Hlines in Hrun. injection Hrun as <-.
  assert (Hle : ∀ n, n ∈ names → String.length n ≤ max_list (String.length <$> names)).
  { intros n Hn. apply max_list_elem_of_le. by apply list_elem_of_fmap_2. }
  exists vals, ds, dd, w1, names, lines.
  split_and!; [done..| |].
  - intros n Hn. apply ljust_length. specialize (Hle n Hn). lia.
  - intros Hnonempty.
    assert (Hmax : max_list (String.length <$> names) ∈ String.length <$> names).
    { apply max_list_elem_of. by destruct names. }
    apply list_elem_of_fmap in Hmax as (longest & Hlongest & Hl).
    exists longest. split_and!; [done|by rewrite Hlongest|].
    intros n Hn. rewrite <- Hlongest. by apply Hle.
Qed.

(** X15. With a template engine that keeps the names of the mapping,
    [list_vars] fails exactly when the resolution fails, with the same
    exception and the same world: the look-ups of its own loop never raise
    [KeyError]. *)
Theorem list_vars_fails_as_resolve render green (self : Config) (args : ListArgs)
    (w w' : World) (e : Exn) :
  (∀ m m', render m = Ret m' → dom m' = dom m) →
  list_vars render green self args w = (Raise e, w')
  ↔ get_active_values_and_metadata render self w = (Raise e, w').
Proof.
  intros Hdom. split; [|apply list_vars_unresolved]. intros Hrun.
  destruct (get_active_values_and_metadata render self w) as [[[[vals ds] dd]|e0] w1]
    eqn:Hresolve;
    [|rewrite (list_vars_unresolved _ _ _ _ _ _ _ Hresolve) in Hrun;
      by injection Hrun as -> ->].
  destruct (list_vars_resolved render green self args w w1 vals ds dd Hresolve)
    as (names & _ & _ & Hin & Hlist).
  rewrite Hlist in Hrun.
  destruct (for_each_list_var green args vals dd
              (max_list (String.length <$> names) + 1) names w1)
    as [(_ & lines & Hlines & _)|(n & w2 & Hn & Hnone & _)];
    [by rewrite Hlines in Hrun|].
  apply Hin in Hn as [Hn _]. exfalso.
  destruct (verbose args); [by rewrite Hnone in Hn; destruct Hn|].
  apply resolve_inv in Hresolve
    as (defaults_by_name & overrides_by_name & _ & merged & _ & _ & _ & _ & Hmerge & Hrender & _).
  destruct (merge_defaults_lookup defaults_by_name overrides_by_name n) as [_ Hdd].
  rewrite Hmerge in Hdd. simpl in Hdd.
  assert (Hdefault : is_Some (defaults_by_name !! n)).
  { rewrite Hdd in Hn. destruct (defaults_by_name !! n); [by eauto|by destruct Hn]. }
  apply (merge_defaults_dom defaults_by_name overrides_by_name) in Hdefault.
  rewrite Hmerge in Hdefault. simpl in Hdefault.
  apply elem_of_dom in Hdefault. rewrite <- (Hdom _ _ Hrender) in Hdefault.
  apply elem_of_dom in Hdefault. rewrite Hnone in Hdefault. by destruct Hdefault.
Qed.

(** ** The matcher's queue loop ends *)

Section MatcherLoop.

Variables a b : list ascii.

Lemma row_within (js : list nat) (blo bhi alo i : nat) (j2len newj2len : gmap nat nat)
    (best : nat * nat * nat) :
  alo ≤ i → lengths_below (i - alo) j2len → lengths_below (i + 1 - alo) newj2len →
  within alo (i + 1) best →
  lengths_below (i + 1 - alo) (difflib.row js blo bhi i j2len newj2len best).1 ∧
  within alo (i + 1) (difflib.row js blo bhi i j2len newj2len best).2.
Proof.
  intros Hi Hold. revert newj2len best.
  induction js as [|j js IH]; intros newj2len best Hnew Hbest; simpl; [done|].
  destruct (decide (j < blo)); [by apply IH|].
  destruct (decide (bhi ≤ j)); [done|].
  set (k := match j with 0 => 0 | S j' => default 0 (j2len !! j') end + 1).
  assert (Hk : 1 ≤ k ≤ i + 1 - alo).
  { unfold k. destruct j as [|j']; [lia|].
    destruct (j2len !! j') as [k'|] eqn:Hlookup; simpl; [|lia].
    apply Hold in Hlookup. lia. }
  apply IH.
  - intros j' k' Hlookup. destruct (decide (j' = j)) as [->|Hne].
    + rewrite lookup_insert_eq in Hlookup. injection Hlookup as <-. lia.
    + rewrite lookup_insert_ne in Hlookup by done. by apply Hnew in Hlookup.
  - destruct (decide (best.2 < k)); [|done]. unfold within. simpl. lia.
Qed.

Lemma rows_within (alo ahi blo bhi : nat) :
  alo ≤ ahi → within alo ahi (difflib.rows a b alo ahi blo bhi).
Proof.
  intros Hle. unfold difflib.rows.
  assert (Hgeneral : ∀ n (state : gmap nat nat * (nat * nat * nat)) i,
            alo ≤ i → lengths_below (i - alo) state.1 → within alo i state.2 →
            within alo (i + n)
              (foldl (λ '(j2len, best) i,
                        difflib.row (default [] (a !! i ≫= (difflib.b2j b !!.)))
                          blo bhi i j2len ∅ best)
                     state (seq i n)).2).
  { induction n as [|n IH]; intros [j2len best] i Hi Hlengths Hbest; simpl.
    - by rewrite Nat.add_0_r.
    - replace (i + S n) with (S i + n) by lia.
      destruct (row_within (default [] (a !! i ≫= (difflib.b2j b !!.))) blo bhi alo i
                  j2len ∅ best) as [Hnew Hbest'].
      + done.
      + done.
      + intros j k Hlookup. by rewrite lookup_empty in Hlookup.
      + unfold within in *. simpl in *. lia.
      + destruct (difflib.row _ blo bhi i j2len ∅ best) as [newj2len best'] eqn:Hrow.
        apply IH; [lia| |].
        * simpl in *. by replace (S i - alo) with (i + 1 - alo) by lia.
        * simpl in *. by replace (S i) with (i + 1) by lia. }
  specialize (Hgeneral (ahi - alo) (∅, (alo, blo, 0)) alo).
  replace (alo + (ahi - alo)) with ahi in Hgeneral by lia.
  apply Hgeneral; [done| |].
  - intros j k Hlookup. simpl in Hlookup. by rewrite lookup_empty in Hlookup.
  - unfold within. simpl. lia.
Qed.

Lemma extend_left_within (fuel alo blo hi : nat) (best : nat * nat * nat) :
  within alo hi best → within alo hi (difflib.extend_left a b fuel alo blo best).
Proof.
  revert best. induction fuel as [|fuel IH]; intros [[besti bestj] bestsize] Hbest; simpl;
    [done|].
  case_decide as Hcond; [|done]. apply IH. unfold within in *. simpl in *. lia.
Qed.

Lemma extend_right_within (fuel alo ahi bhi : nat) (best : nat * nat * nat) :
  within alo ahi best → within alo ahi (difflib.extend_right a b fuel ahi bhi best).
Proof.
  revert best. induction fuel as [|fuel IH]; intros [[besti bestj] bestsize] Hbest; simpl;
    [done|].
  case_decide as Hcond; [|done]. apply IH. unfold within in *. simpl in *. lia.
Qed.

Lemma find_longest_match_within (alo ahi blo bhi : nat) :
  alo ≤ ahi → within alo ahi (difflib.find_longest_match a b alo ahi blo bhi).
Proof.
  intros Hle. unfold difflib.find_longest_match.
  by apply extend_right_within, extend_left_within, rows_within.
Qed.

Lemma work_cons (alo ahi blo bhi : nat) (queue : list (nat * nat * nat * nat)) :
  work ((alo, ahi, blo, bhi) :: queue) = 2 * (ahi - alo) + 1 + work queue.
Proof. done. Qed.

Lemma matching_loop_work (fuel : nat) (queue : list (nat * nat * nat * nat))
    (blocks : list (nat * nat * nat)) :
  Forall (λ range, range.1.1.1 ≤ range.1.1.2) queue →
  work queue < fuel →
  is_Some (difflib.matching_loop a b fuel queue blocks).
Proof.
  revert queue blocks. induction fuel as [|fuel IH]; intros queue blocks Hranges Hwork;
    [lia|].
  destruct queue as [|[[[alo ahi] blo] bhi] queue]; simpl; [by eauto|].
  apply Forall_cons in Hranges as [Hle Hranges]. simpl in Hle.
  rewrite work_cons in Hwork.
  pose proof (find_longest_match_within alo ahi blo bhi Hle) as Hwithin.
  destruct (difflib.find_longest_match a b alo ahi blo bhi) as [[i j] k].
  unfold within in Hwithin. simpl in Hwithin.
  destruct (decide (k = 0)); [apply IH; [done|lia]|].
  apply IH.
  - repeat case_decide; repeat (apply Forall_cons; split); simpl; try done; lia.
  - repeat case_decide; rewrite ?work_cons; lia.
Qed.

End MatcherLoop.

(** The rounds [matching_blocks] allows are enough: the loop empties its
    queue and returns the blocks. *)
Lemma matching_loop_enough (a b : list ascii) :
  is_Some (difflib.matching_loop a b (2 * length a + 2) [(0, length a, 0, length b)] []).
Proof.
  apply matching_loop_work.
  - repeat constructor. simpl. lia.
  - unfold work. simpl. lia.
Qed.

(** ** The suggestions of the guard *)

Lemma larger_spec (p q : Q * string) :
  difflib.larger p q ↔ (q.1 < p.1)%Q ∨ ((q.1 == p.1)%Q ∧ String.le q.2 p.2).
Proof.
  unfold difflib.larger. destruct (q.1 ?= p.1)%Q eqn:Hcompare.
  - apply Qeq_alt in Hcompare. split; [by right; split|].
    intros [Hlt|[_ ?]]; [|done]. rewrite Hcompare in Hlt. by apply Qlt_irrefl in Hlt.
  - apply Qlt_alt in Hcompare. split; [by left|done].
  - apply Qgt_alt in Hcompare. split; [done|].
    intros [Hlt|[Heq _]].
    + by apply (Qlt_irrefl p.1), (Qlt_trans _ q.1).
    + rewrite Heq in Hcompare. by apply Qlt_irrefl in Hcompare.
Qed.

Lemma larger_total : Total difflib.larger.
Proof.
  intros p q. rewrite !larger_spec.
  destruct (Q_dec p.1 q.1) as [[Hlt|Hgt]|Heq]; [by right; left|by left; left|].
  destruct (total String.le p.2 q.2); [right|left]; right; by split.
Qed.

Lemma larger_transitive : Transitive difflib.larger.
Proof.
  intros p q r. rewrite !larger_spec.
  intros [Hqp|[Hqp Hle1]] [Hrq|[Hrq Hle2]].
  - left. by apply (Qlt_trans _ q.1).
  - left. by rewrite Hrq.
  - left. by rewrite <- Hqp.
  - right. split; [by rewrite Hrq|]. by trans q.2.
Qed.

Lemma larger_score (p q : Q * string) : difflib.larger p q → (q.1 <= p.1)%Q.
Proof.
  intros [Hlt|[Heq _]]%larger_spec; [by apply Qlt_le_weak|]. rewrite Heq. apply Qle_refl.
Qed.

Lemma StronglySorted_take {A} (R : relation A) (n : nat) (l : list A) :
  StronglySorted R l → StronglySorted R (take n l).
Proof.
  intros Hl. rewrite <- (take_drop n l) in Hl. by apply StronglySorted_app_1_l in Hl.
Qed.

Lemma elem_of_take_elem_of {A} (x : A) (n : nat) (l : list A) : x ∈ take n l → x ∈ l.
Proof. intros (i & Hi & _)%elem_of_take. by apply list_elem_of_lookup_2 in Hi. Qed.

(** The similarity of a possibility to the word, as [get_close_matches]
    computes it. *)
Lemma get_close_matches_spec (word : string) (possibilities : list string) :
  let score x :=
    difflib.ratio (String.list_ascii_of_string x) (String.list_ascii_of_string word) in
  let matches := difflib.get_close_matches word possibilities in
  length matches ≤ 3 ∧
  (∀ x, x ∈ matches → x ∈ possibilities ∧ (difflib.cutoff <= score x)%Q) ∧
  StronglySorted (λ x y, (score y <= score x)%Q) matches.
Proof.
  intros score matches. unfold matches, difflib.get_close_matches, difflib.nlargest.
  set (result := omap _ possibilities).
  assert (Hresult : ∀ p, p ∈ result →
            p.1 = score p.2 ∧ p.2 ∈ possibilities ∧ (difflib.cutoff <= score p.2)%Q).
  { intros p (x & Hx & Hp)%list_elem_of_omap.
    destruct (Qle_bool _ _ && Qle_bool _ _ && Qle_bool _ _) eqn:Hpass; [|done].
    injection Hp as <-. simpl. split_and!; [done..|].
    apply andb_prop in Hpass as [_ Hratio]. by apply Qle_bool_iff. }
  assert (Hsorted : StronglySorted difflib.larger (merge_sort difflib.larger result)).
  { apply (@StronglySorted_merge_sort _ _ _ larger_transitive larger_total). }
  assert (Hin : ∀ p, p ∈ take 3 (merge_sort difflib.larger result) → p ∈ result).
  { intros p Hp%elem_of_take_elem_of. by rewrite merge_sort_Permutation in Hp. }
  split_and!.
  - rewrite length_fmap, length_take. lia.
  - intros x (p & -> & Hp)%list_elem_of_fmap. by apply Hresult, Hin.
  - apply (StronglySorted_take _ 3) in Hsorted.
    induction Hsorted as [|p l Hl IH Hp]; [constructor|].
    rewrite fmap_cons. constructor.
    + apply IH. intros q Hq. apply Hin. by right.
    + rewrite Forall_fmap, Forall_forall. rewrite Forall_forall in Hp.
      intros q Hq. simpl.
      destruct (Hresult p) as [<- _]; [by apply Hin; left|].
      destruct (Hresult q) as [<- _]; [by apply Hin; right|].
      by apply larger_score, Hp.
Qed.

(** X16. For a key that is no default name the guard prints the message,
    then at most three suggestions, framed by "Did you mean:" and "?" when
    there are any, and exits with status 1. Every suggestion is a default
    name, differs from the key, and has a similarity ratio to the key of at
    least 0.6; the suggestions are printed best first. *)
Theorem unknown_key_suggestions (self : Config) (key message : string) (w : World) :
  let names := default_name <$> defaults self in
  let score x :=
    difflib.ratio (String.list_ascii_of_string x) (String.list_ascii_of_string key) in
  key ∉ names →
  ∃ matches,
    exit_on_unknown_key self key message w
    = (Raise (SystemExit 1),
       printed (message ::
                match matches with
                | [] => []
                | _ => "Did you mean:" :: ((λ match_, "    " +:+ match_) <$> matches) ++ ["?"]
                end) w) ∧
    length matches ≤ 3 ∧
    (∀ x, x ∈ matches → x ∈ names ∧ x ≠ key ∧ (6 # 10 <= score x)%Q) ∧
    StronglySorted (λ x y, (score y <= score x)%Q) matches.
Proof.
  intros names score Hunknown.
  exists (difflib.get_close_matches key names).
  destruct (get_close_matches_spec key names) as (Hlength & Hin & Hsorted).
  split_and!; [|done| |done].
  - rewrite exit_on_unknown_key_spec. fold names. rewrite decide_False by done.
    unfold unknown_key_lines. by destruct (difflib.get_close_matches key names).
  - intros x Hx. destruct (Hin x Hx) as [Hname Hscore]. split_and!; [done| |done].
    by intros ->.
Qed.

(** ** The typo suggester *)








Lemma get_close_matches_nil (word : string) : difflib.get_close_matches word [] = [].
Proof. done. Qed.

(** X20. A [Config] made without defaults knows no name: [set_var] and
    [delete_var] print their message, with the key between double quotes and
    no suggestion, and exit with status 1, for every key. *)
Theorem set_var_without_defaults (path : string) (suggestions : option (list Suggestion))
    (docs : option (list Doc)) (args : Args) (w : World) :
  set_var (Config_init path None suggestions docs) args w
  = (Raise (SystemExit 1),
     printed ["Error: Can't set override value for " +:+ dquote +:+ property_name args
                +:+ dquote +:+ " because it is an unknown variable name."] w) ∧
  delete_var (Config_init path None suggestions docs) args w
  = (Raise (SystemExit 1),
     printed ["Error: Can't delete override value for " +:+ dquote +:+ property_name args
                +:+ dquote +:+ " because it is an unknown variable name."] w).
Proof.
  unfold set_var, delete_var, bind. rewrite !exit_on_unknown_key_spec.
  destruct (decide (property_name args
                    ∈ default_name <$> defaults (Config_init path None suggestions docs)))
    as [Hin|_]; [by apply elem_of_nil in Hin|].
  done.
Qed.

(** ** The persisted format *)

Lemma prefix_char (c a : ascii) (s : string) :
  String.prefix (String c "") (String a s) = bool_decide (c = a).
Proof.
  destruct (String.prefix (String c "") (String a s)) eqn:Hprefix.
  - apply prefix_spec in Hprefix as [t Ht]. simpl_append. injection Ht as -> _.
    by rewrite bool_decide_eq_true_2.
  - case_bool_decide as Heq; [|done]. subst a.
    assert (String.prefix (String c "") (String c s) = true) as Htrue.
    { apply prefix_spec. exists s. by simpl_append. }
    congruence.
Qed.

Lemma contains_char_cons (c a : ascii) (s : string) :
  contains (String c "") (String a s) = bool_decide (c = a) || contains (String c "") s.
Proof. cbn [contains]. by rewrite prefix_char. Qed.

Lemma contains_char_nil (c : ascii) : contains (String c "") "" = false.
Proof. done. Qed.

Lemma contains_char_append (c : ascii) (s t : string) :
  contains (String c "") (s +:+ t) = contains (String c "") s || contains (String c "") t.
Proof.
  induction s as [|a s IH]; simpl_append; [done|].
  rewrite !contains_char_cons, IH. by rewrite orb_assoc.
Qed.

Lemma parse_line_of (n v : string) :
  contains "=" n = false → parse_line (n +:+ "=" +:+ v) = Some (n, v).
Proof.
  induction n as [|a n IH]; intros Hn; simpl_append.
  - reflexivity.
  - rewrite contains_char_cons in Hn. apply orb_false_iff in Hn as [Ha Hn].
    apply bool_decide_eq_false in Ha. simpl. rewrite decide_False by congruence.
    by rewrite (IH Hn).
Qed.

(** A storable entry is written as one line, and the line reads back as
    the entry. *)
Lemma storable_round_trip (entry : string * string) :
  storable entry →
  parse_line (line_of entry) = Some entry ∧ contains newline (line_of entry) = false.
Proof.
  destruct entry as [n v]. intros (Hequals & Hname & Hvalue). unfold line_of. simpl in *.
  split; [by apply parse_line_of|].
  unfold newline in *. rewrite !contains_char_append, Hname, Hvalue. done.
Qed.

(** ** Setting an override *)

Lemma set_override_Ret self key value w w1 :
  set_override self key value w = (Ret tt, w1) →
  stored w1 (config_path self)
  = merge_sort props.by_name (props.with_key key value (stored w (config_path self))).
Proof.
  unfold set_override. intros Hwith.
  destruct (decide (config_path self ∈ locks w)) as [Hheld|Hfree].
  { by rewrite with_lock_held in Hwith. }
  rewrite with_lock_free in Hwith by done.
  destruct (props.set_key (config_path self) key value true (locked (config_path self) w))
    as [r w2] eqn:Hrun.
  simpl in Hwith. injection Hwith as -> <-.
  unfold props.set_key in Hrun.
  apply bind_Ret in Hrun as (entries & w3 & Hload & Hreplace).
  apply load_files in Hload as (_ & _ & Hentries & _).
  destruct (Hentries entries eq_refl) as [-> _].
  apply replace_files in Hreplace as [[[_ Hfiles]|(e & [=] & _)] _].
  unfold stored at 1. simpl. by rewrite Hfiles.
Qed.

Lemma elem_of_with_key (key value n v : string) (entries : list (string * string)) :
  (n, v) ∈ props.with_key key value entries
  ↔ (n = key ∧ v = value) ∨ (n ≠ key ∧ (n, v) ∈ entries).
Proof.
  unfold props.with_key. destruct (decide (key ∈ entries.*1)) as [Hin|Hnotin].
  - rewrite list_elem_of_fmap. split.
    + intros ([n' v'] & Heq & Hentry). simpl in Heq.
      destruct (decide (n' = key)) as [->|Hne]; injection Heq as -> ->; [by left|by right].
    + intros [[-> ->]|[Hne Hentry]].
      * apply list_elem_of_fmap in Hin as ([n' v'] & -> & Hentry). simpl.
        exists (n', v'). simpl. by rewrite decide_True.
      * exists (n, v). simpl. by rewrite decide_False.
  - rewrite elem_of_app, list_elem_of_singleton. split.
    + intros [Hentry|[= -> ->]]; [right|by left]. split; [|done].
      intros ->. apply Hnotin. by apply (list_elem_of_fmap_2 fst) in Hentry.
    + intros [[-> ->]|[_ Hentry]]; [by right|by left].
Qed.

Lemma stored_overrides_after_set self key value w w1 o :
  set_override self key value w = (Ret tt, w1) →
  o ∈ stored_overrides self w1
  ↔ o = mkOverride key value ∨ (override_name o ≠ key ∧ o ∈ stored_overrides self w).
Proof.
  intros Hset. unfold stored_overrides. rewrite (set_override_Ret _ _ _ _ _ Hset).
  rewrite !list_elem_of_fmap. split.
  - intros ([n v] & -> & Hin). rewrite merge_sort_Permutation in Hin.
    apply elem_of_with_key in Hin as [[-> ->]|[Hne Hin]]; [by left|right].
    split; [done|]. by exists (n, v).
  - intros [->|[Hne ([n v] & -> & Hin)]].
    + exists (key, value). split; [done|]. rewrite merge_sort_Permutation.
      apply elem_of_with_key. by left.
    + exists (n, v). split; [done|]. rewrite merge_sort_Permutation.
      apply elem_of_with_key. by right.
Qed.

Lemma set_var_Ret (self : Config) (args : Args) (w w1 : World) :
  set_var self args w = (Ret tt, w1) →
  property_name args ∈ default_name <$> defaults self ∧
  set_override self (property_name args) (property_value args) w = (Ret tt, w1).
Proof.
  unfold set_var, bind. rewrite exit_on_unknown_key_spec.
  by destruct (decide (property_name args ∈ default_name <$> defaults self)).
Qed.

Lemma stored_after_set_storable self key value w w1 :
  set_override self key value w = (Ret tt, w1) →
  storable (key, value) → Forall storable (stored w (config_path self)) →
  Forall storable (stored w1 (config_path self)).
Proof.
  intros Hset Hentry Hstore. rewrite (set_override_Ret _ _ _ _ _ Hset).
  rewrite Forall_forall in *. intros [n v] Hin. rewrite merge_sort_Permutation in Hin.
  apply elem_of_with_key in Hin as [[-> ->]|[_ Hin]]; [done|by apply Hstore].
Qed.

Lemma stored_after_delete_storable self key w w1 :
  delete_override self key w = (Ret tt, w1) →
  Forall storable (stored w (config_path self)) →
  Forall storable (stored w1 (config_path self)).
Proof.
  intros Hdelete Hstore. rewrite (delete_override_Ret _ _ _ _ Hdelete).
  rewrite Forall_forall in *. intros entry Hin. rewrite merge_sort_Permutation in Hin.
  apply list_elem_of_filter in Hin as [_ Hin]. by apply Hstore.
Qed.

(** X17. For a name and a value that the store's file gives back as
    written (no "=" and no line break in the name, no line break in the
    value) and a store of such entries: after a [set_var] that succeeded the
    store still holds such entries only, and a resolution that succeeds has
    the value that was set as the value of the name before template
    substitution (and as the active value, when the value holds no "{{");
    the name is among the differing defaults exactly when the value differs
    from the default's value. *)
Theorem set_var_takes_effect (self : Config) (args : Args) (w w1 w2 : World)
    (active : gmap string string) (ds : gmap string Suggestion) (dd : gmap string Default) :
  storable (property_name args, property_value args) →
  Forall storable (stored w (config_path self)) →
  set_var self args w = (Ret tt, w1) →
  get_active_values_and_metadata template.render_values_in_template_map self w1
    = (Ret (active, ds, dd), w2) →
  parse_line (line_of (property_name args, property_value args))
  = Some (property_name args, property_value args) ∧
  Forall storable (stored w1 (config_path self)) ∧
  ∃ d merged,
    d ∈ defaults self ∧ default_name d = property_name args ∧
    template.render_values_in_template_map merged = Ret active ∧
    merged !! property_name args = Some (property_value args) ∧
    dd !! property_name args
    = (if decide (property_value args = default_value d) then None else Some d) ∧
    (contains "{{" (property_value args) = false →
     active !! property_name args = Some (property_value args)).
Proof.
  intros Hentry Hstore [Hknown Hset]%set_var_Ret Hrun.
  split; [by apply storable_round_trip|].
  split; [by apply (stored_after_set_storable _ _ _ _ _ Hset)|].
  destruct (resolve_inv _ _ _ _ _ _ _ Hrun)
    as (dmap & omap & smap & merged & Hd & Hget & Ho & Hs & Hmerge & Hrender & ->).
  apply validate_Ok in Hd as [_ Hdmap]. apply validate_Ok in Ho as [_ Homap].
  apply (maps_names_is_Some (defaults self) dmap) in Hknown as [d Hlook]; [|done].
  assert (omap !! property_name args
          = Some (mkOverride (property_name args) (property_value args))) as Hover.
  { apply Homap. split; [|done].
    apply (stored_overrides_after_set _ _ _ _ _ _ Hset). by left. }
  destruct (merge_defaults_lookup dmap omap (property_name args)) as [Hactive Hdd].
  rewrite Hmerge, Hlook, Hover in Hactive, Hdd. simpl in Hactive, Hdd.
  exists d, merged. apply Hdmap in Hlook as [Hin Hname].
  assert (merged !! property_name args = Some (property_value args) ∧
          dd !! property_name args
          = (if decide (property_value args = default_value d) then None else Some d))
    as [Hmerged Hdiffers].
  { destruct (decide (property_value args = default_value d)) as [Heq|Hne].
    - destruct (decide (property_value args ≠ default_value d)) as [Hne|_]; [done|].
      simpl in Hactive, Hdd. by rewrite Heq.
    - destruct (decide (property_value args ≠ default_value d)) as [_|Heq]; [done|].
      by destruct Heq. }
  split_and!; [done..|].
  intros Hplain. apply render_Ret in Hrender as [-> _].
  by apply render_passes_plain.
Qed.

Lemma append_assoc (s t u : string) : (s +:+ t) +:+ u = s +:+ (t +:+ u).
Proof. induction s as [|c s IH]; simpl_append; [done|]. by rewrite IH. Qed.

Lemma occurs_in_append (needle s t : string) :
  occurs_in needle s → occurs_in needle (s +:+ t).
Proof.
  intros (before & after & ->). exists before, (after +:+ t).
  by rewrite !append_assoc.
Qed.

(** X18. [enable] stores the name "<service>.enabled" without looking at
    it: after an [enable] that succeeded for a service name that holds a
    space or "___" (and no "=" and no line break, so that the file gives the
    name back as written), the store holds the entry, and in every world
    whose store holds that entry no resolution succeeds, the stored name
    being invalid. *)
Theorem enable_invalid_name_breaks_resolve
    (render : gmap string string → outcome (gmap string string))
    (self : Config) (args : Args) (w w1 : World) :
  let key := service_name args +:+ ".enabled" in
  invalid_name (service_name args) →
  storable (key, "True") →
  enable self args w = (Ret tt, w1) →
  parse_line (line_of (key, "True")) = Some (key, "True") ∧
  mkOverride key "True" ∈ stored_overrides self w1 ∧
  ∀ w2, mkOverride key "True" ∈ stored_overrides self w2 →
        ∀ resolved w3,
          get_active_values_and_metadata render self w2 ≠ (Ret resolved, w3).
Proof.
  intros key Hinvalid Hentry Henable.
  split; [by apply storable_round_trip|].
  split; [apply (stored_overrides_after_set _ _ _ _ _ _ Henable); by left|].
  intros w2 Hstored [[active ds] dd] w3 Hrun.
  destruct (resolve_inv _ _ _ _ _ _ _ Hrun)
    as (_ & omap & _ & _ & _ & _ & Ho & _).
  apply validate_Ok in Ho as [[Hvalid _] _].
  apply (Hvalid _ Hstored). unfold name, Override_named. simpl.
  destruct Hinvalid as [H|H]; [left|right]; by apply occurs_in_append.
Qed.

(** X19. [disable] takes back [enable]: for a service name without "=" and
    line break and a store of entries that the file gives back as written,
    after both have succeeded for the service the store holds no entry
    "<service>.enabled", holds every other entry exactly as before the
    [enable], and still holds such entries only. *)
Theorem disable_takes_back_enable (self : Config) (args : Args) (w w1 w2 : World) :
  let key := service_name args +:+ ".enabled" in
  storable (key, "True") →
  Forall storable (stored w (config_path self)) →
  enable self args w = (Ret tt, w1) →
  disable self args w1 = (Ret tt, w2) →
  parse_line (line_of (key, "True")) = Some (key, "True") ∧
  Forall storable (stored w2 (config_path self)) ∧
  ∀ o, o ∈ stored_overrides self w2
       ↔ override_name o ≠ key ∧ o ∈ stored_overrides self w.
Proof.
  intros key Hentry Hstore Henable Hdisable.
  split; [by apply storable_round_trip|].
  split.
  { apply (stored_after_delete_storable _ _ _ _ Hdisable).
    by apply (stored_after_set_storable _ _ _ _ _ Henable). }
  intros o. unfold stored_overrides at 1.
  rewrite (delete_override_Ret _ _ _ _ Hdisable). rewrite list_elem_of_fmap. split.
  - intros ([n v] & -> & Hin). rewrite merge_sort_Permutation in Hin.
    apply list_elem_of_filter in Hin as [Hne Hin]. simpl in *. split; [done|].
    assert (mkOverride n v ∈ stored_overrides self w1) as Hstored.
    { unfold stored_overrides. apply list_elem_of_fmap. by exists (n, v). }
    apply (stored_overrides_after_set _ _ _ _ _ _ Henable) in Hstored as [[= -> _]|[_ ?]];
      done.
  - intros [Hne Hin].
    assert (o ∈ stored_overrides self w1) as Hstored.
    { apply (stored_overrides_after_set _ _ _ _ _ _ Henable). by right. }
    unfold stored_overrides in Hstored.
    apply list_elem_of_fmap in Hstored as ([n v] & -> & Hstored).
    exists (n, v). split; [done|]. rewrite merge_sort_Permutation.
    apply list_elem_of_filter. by split.
Qed.

(** ** The properties at concrete inputs *)

Lemma well_formed_checked {A} `{Named A} (l : list A) :
  match validate_and_map_by_name l with Ok _ => True | Err _ => False end →
  well_formed l.
Proof.
  destruct (validate_and_map_by_name l) as [m|e] eqn:Hv; [|done].
  intros _. by apply (validate_Ok _ _ Hv).
Qed.

Lemma not_well_formed_checked {A} `{Named A} (l : list A) :
  match validate_and_map_by_name l with Ok _ => False | Err _ => True end →
  ¬ well_formed l.
Proof.
  destruct (validate_and_map_by_name l) as [m|e] eqn:Hv; [done|].
  intros _ [m Hm]%validate_well_formed. congruence.
Qed.

Lemma show_docs_listing_witness :
  ∃ groups rest,
    (show_docs one_line documented_config empty_world).2
    = paged (String.concat newline (listing one_line groups)) empty_world ∧
    groups.*1 = "main" :: rest ∧ ("main" ∉ rest) ∧ NoDup rest ∧
    StronglySorted String.le rest.
Proof.
  destruct (show_docs_listing one_line documented_config empty_world
              (show_docs one_line documented_config empty_world).2)
    as (groups & rest & Hpaged & Hcategories & Hmain & Hnodup & Hsorted & _).
  - vm_compute. reflexivity.
  - exists groups, rest. split_and!; assumption.
Defined.

Example show_docs_documented_config :
  show_docs one_line documented_config empty_world
  = (Ret tt,
     paged (String.concat newline
              ["Main"; "----"; "    main.port"; "        The port.";
               "            Default: 8080" +:+ newline; newline;
               "Db"; "--"; "    db.url"; "        The database.";
               "            Default: jdbc:{{net.host}}" +:+ newline; newline;
               "Net"; "---"; "    net.host"; "        The host name.";
               "            Default: x" +:+ newline; newline])
           empty_world).
Proof. vm_compute. reflexivity. Qed.

Lemma show_docs_requires_main_witness :
  show_docs one_line net_config empty_world = (Raise ValueError, empty_world).
Proof.
  apply show_docs_requires_main.
  - apply well_formed_checked. vm_compute. exact I.
  - apply well_formed_checked. vm_compute. exact I.
  - intros doc Hdoc. simpl in Hdoc. by apply elem_of_nil in Hdoc.
Defined.

Lemma show_docs_requires_defaults_witness :
  ∃ n, show_docs one_line
         (mkConfig "platform.conf" [mkDefault "main.port" "8080"] []
            [mkDoc "main.port" "The port."; mkDoc "net.host" "The host name."])
         empty_world
       = (Raise (KeyError n), empty_world).
Proof.
  destruct (show_docs_requires_defaults one_line
              (mkConfig "platform.conf" [mkDefault "main.port" "8080"] []
                 [mkDoc "main.port" "The port."; mkDoc "net.host" "The host name."])
              empty_world) as (n & _ & _ & Hraise).
  - apply well_formed_checked. vm_compute. exact I.
  - apply well_formed_checked. vm_compute. exact I.
  - exists (mkDoc "main.port" "The port."). split; [by left|reflexivity].
  - intros Hall. specialize (Hall (mkDoc "net.host" "The host name.")). simpl in Hall.
    assert (Hin : "net.host" ∈ ["main.port"]) by (apply Hall; right; left).
    apply list_elem_of_singleton in Hin. discriminate Hin.
  - by exists n.
Defined.

Lemma show_category_heading_witness :
  ∃ rest,
    ["Net"; "---"; "    net.host"; "        The host name.";
     "            Default: x" +:+ newline; newline]
    = [] ++ title "net" :: repeat_char "-" (String.length "net") :: rest ∧
    String.length (repeat_char "-" (String.length "net")) = String.length (title "net") ∧
    String.length (title "net") = String.length "net".
Proof.
  apply (show_category_heading one_line
           (list_to_map [("net.host", mkDefault "net.host" "x")])
           (list_to_map [("net.host", mkDoc "net.host" "The host name.")])
           (list_to_map [("net", ["net.host"])]) [] "net" empty_world
           ["Net"; "---"; "    net.host"; "        The host name.";
            "            Default: x" +:+ newline; newline] empty_world).
  vm_compute. reflexivity.
Defined.

Lemma validate_and_map_by_name_Permutation_witness :
  validate_and_map_by_name [mkDefault "net.url" "u"; mkDefault "net.host" "x"]
  = Ok (list_to_map [("net.host", mkDefault "net.host" "x");
                     ("net.url", mkDefault "net.url" "u")]).
Proof.
  apply (validate_and_map_by_name_Permutation
           [mkDefault "net.host" "x"; mkDefault "net.url" "u"]).
  - apply perm_swap.
  - vm_compute. reflexivity.
Defined.

Lemma validate_and_map_by_name_values_witness :
  size (list_to_map [("net.host", mkDefault "net.host" "x");
                     ("net.url", mkDefault "net.url" "u")] : gmap string Default) = 2.
Proof.
  destruct (validate_and_map_by_name_values
              [mkDefault "net.host" "x"; mkDefault "net.url" "u"]
              (list_to_map [("net.host", mkDefault "net.host" "x");
                            ("net.url", mkDefault "net.url" "u")])) as (_ & Hsize & _).
  - vm_compute. reflexivity.
  - exact Hsize.
Defined.

Lemma resolve_checks_defaults_first_witness :
  ∃ e, get_active_values_and_metadata template.render_values_in_template_map
         (mkConfig "platform.conf" [mkDefault "net host" "x"] [] []) empty_world
       = (Raise (ConfigError e), empty_world).
Proof.
  apply resolve_checks_defaults_first.
  apply not_well_formed_checked. vm_compute. exact I.
Defined.

Lemma resolve_checks_overrides_and_suggestions_witness :
  ∃ e w1, get_active_values_and_metadata template.render_values_in_template_map
            net_config (world_with "platform.conf" [("no such name", "1")])
          = (Raise (ConfigError e), w1).
Proof.
  destruct (resolve_checks_overrides_and_suggestions
              template.render_values_in_template_map net_config
              (world_with "platform.conf" [("no such name", "1")])
              (get_overrides net_config
                 (world_with "platform.conf" [("no such name", "1")])).2
              [mkOverride "no such name" "1"]) as [e He].
  - apply well_formed_checked. vm_compute. exact I.
  - vm_compute. reflexivity.
  - intros [Hwf _]. revert Hwf. apply not_well_formed_checked. vm_compute. exact I.
  - by eexists _, _.
Defined.

Lemma resolve_order_independent_witness :
  get_active_values_and_metadata template.render_values_in_template_map
    (mkConfig "platform.conf"
       [mkDefault "net.url" "http://{{net.host}}/api"; mkDefault "net.host" "x"]
       [mkSuggestion "net.host" "z" "a suggested host"] [])
    empty_world
  = get_active_values_and_metadata template.render_values_in_template_map
      net_config empty_world.
Proof.
  destruct (get_active_values_and_metadata template.render_values_in_template_map
              net_config empty_world) as [[resolved|e] w'] eqn:Hrun.
  - apply (resolve_order_independent _ net_config); [done|apply perm_swap|done|done].
  - vm_compute in Hrun. discriminate Hrun.
Defined.

Lemma show_docs_order_independent_witness :
  show_docs one_line
    (mkConfig "platform.conf" (reverse (defaults documented_config)) []
       (reverse (docs documented_config)))
    empty_world
  = (Ret tt, (show_docs one_line documented_config empty_world).2).
Proof.
  apply (show_docs_order_independent one_line documented_config).
  - apply Permutation_sym, reverse_Permutation.
  - apply Permutation_sym, reverse_Permutation.
  - vm_compute. reflexivity.
Defined.

Lemma docs_by_category_listing_witness :
  ∃ groups rest,
    (show_docs one_line mixed_case_config empty_world).2
    = paged (String.concat newline (listing one_line groups)) empty_world ∧
    groups.*1 = "main" :: rest ∧ ("main" ∉ rest) ∧ NoDup rest ∧
    StronglySorted String.le rest.
Proof.
  destruct (docs_by_category_listing one_line mixed_case_config empty_world)
    as [Hlisting _].
  destruct (Hlisting (show_docs one_line mixed_case_config empty_world).2)
    as (groups & rest & Hpaged & Hcategories & Hmain & Hnodup & Hsorted & _).
  - vm_compute. reflexivity.
  - exists groups, rest. split_and!; assumption.
Defined.

(** The order of the categories is that of the bytes: an upper-case
    category comes before a lower-case one. *)
Example show_docs_mixed_case_config :
  show_docs one_line mixed_case_config empty_world
  = (Ret tt,
     paged (String.concat newline
              ["Main"; "----"; "    main.port"; "        The port.";
               "            Default: 8080" +:+ newline; newline;
               "Zeta"; "----"; "    Zeta.y"; "        The last.";
               "            Default: 2" +:+ newline; newline;
               "Alpha"; "-----"; "    alpha.x"; "        The first.";
               "            Default: 1" +:+ newline; newline])
           empty_world).
Proof. vm_compute. reflexivity. Qed.

(** C9 as stated fails: for well-formed docs that all have a default but of
    which none lies in the category "main" there is no listing at all, with
    "main" first or otherwise; [show_docs] raises [ValueError]. *)
Lemma docs_without_main_are_not_listed :
  well_formed (docs mainless_config) ∧ well_formed (defaults mainless_config) ∧
  documents_defaults mainless_config ∧
  show_docs one_line mainless_config empty_world = (Raise ValueError, empty_world) ∧
  ¬ ∃ w', show_docs one_line mainless_config empty_world = (Ret tt, w').
Proof.
  split_and!.
  - apply well_formed_checked. vm_compute. exact I.
  - apply well_formed_checked. vm_compute. exact I.
  - intros doc Hdoc. unfold mainless_config in *. cbn [docs defaults] in *.
    repeat (apply elem_of_cons in Hdoc as [Heq|Hdoc];
            [subst doc; cbn [doc_name]; rewrite !fmap_cons;
             first [by left|by right; left]|]).
    by apply elem_of_nil in Hdoc.
  - vm_compute. reflexivity.
  - intros [w' Hrun]. vm_compute in Hrun. discriminate Hrun.
Qed.

Lemma show_docs_partial_witness :
  (∃ e, show_docs one_line mainless_config empty_world = (Raise e, empty_world) ∧
        e = ValueError) ∧
  (∃ e, show_docs one_line net_config empty_world = (Raise e, empty_world)).
Proof.
  split.
  - destruct (show_docs_partial one_line mainless_config empty_world)
      as (_ & Hviolate & _).
    destruct Hviolate as (e & Hraise & _ & Herror).
    + intros [(doc & Hdoc & Hmain) _]. unfold mainless_config in Hdoc. cbn [docs] in Hdoc.
      repeat (apply elem_of_cons in Hdoc as [Heq|Hdoc];
              [subst doc; vm_compute in Hmain; discriminate Hmain|]).
      by apply elem_of_nil in Hdoc.
    + exists e. split; [exact Hraise|].
      apply Herror.
      * apply well_formed_checked. vm_compute. exact I.
      * apply well_formed_checked. vm_compute. exact I.
      * intros (doc & Hdoc & Hmain). unfold mainless_config in Hdoc. cbn [docs] in Hdoc.
        repeat (apply elem_of_cons in Hdoc as [Heq|Hdoc];
                [subst doc; vm_compute in Hmain; discriminate Hmain|]).
        by apply elem_of_nil in Hdoc.
  - destruct (show_docs_partial one_line net_config empty_world) as (_ & _ & Hempty).
    by apply Hempty.
Defined.

Lemma list_vars_lists_witness :
  ∃ names lines,
    (list_vars template.render_values_in_template_map (λ text, text) net_config
       (mkListArgs true None false) empty_world).2
    = printed lines
        (get_active_values_and_metadata template.render_values_in_template_map
           net_config empty_world).2 ∧
    NoDup names ∧ StronglySorted String.le names ∧ length lines = length names ∧
    (∀ n, n ∈ names →
       String.length (ljust n (max_list (String.length <$> names) + 1))
       = max_list (String.length <$> names) + 1).
Proof.
  destruct (list_vars_lists template.render_values_in_template_map (λ text, text)
              net_config (mkListArgs true None false) empty_world
              (list_vars template.render_values_in_template_map (λ text, text) net_config
                 (mkListArgs true None false) empty_world).2)
    as (vals & ds & dd & w1 & names & lines & Hresolve & Hprinted & Hnodup &
        Hsorted & _ & Hlines & Hwidth & _).
  - vm_compute. reflexivity.
  - exists names, lines. rewrite Hresolve. split_and!; [done..| |done].
    symmetry. by apply Forall2_length in Hlines.
Defined.

Example list_vars_net_config :
  console (list_vars template.render_values_in_template_map (λ text, text) net_config
             (mkListArgs true None false) empty_world).2
  = ["net.host  x"; "net.url   http://x/api"].
Proof. vm_compute. reflexivity. Qed.

Lemma list_vars_fails_as_resolve_witness :
  list_vars template.render_values_in_template_map (λ text, text)
    (mkConfig "platform.conf" [mkDefault "net host" "x"] [] [])
    (mkListArgs false None true) empty_world
  = (Raise (ConfigError (Invalid_space "net host")), empty_world).
Proof.
  apply (list_vars_fails_as_resolve template.render_values_in_template_map);
    [apply render_dom|].
  vm_compute. reflexivity.
Defined.

Lemma unknown_key_suggestions_witness :
  ∃ matches,
    (exit_on_unknown_key net_config "net.hots" "unknown" empty_world).1
    = Raise (SystemExit 1) ∧
    length matches ≤ 3 ∧
    ∀ x, x ∈ matches → x ∈ default_name <$> defaults net_config.
Proof.
  destruct (unknown_key_suggestions net_config "net.hots" "unknown" empty_world)
    as (matches & Hexit & Hlength & Hin & _).
  - simpl. intros Hin. repeat (apply elem_of_cons in Hin as [Heq|Hin]; [discriminate Heq|]).
    by apply elem_of_nil in Hin.
  - exists matches. rewrite Hexit. split_and!; [done..|]. intros x Hx. by apply Hin.
Defined.

Example unknown_key_suggestions_net_config :
  console (exit_on_unknown_key net_config "net.hots" "unknown" empty_world).2
  = ["unknown"; "Did you mean:"; "    net.host"; "?"].
Proof. vm_compute. reflexivity. Qed.

Lemma set_var_takes_effect_witness :
  match get_active_values_and_metadata template.render_values_in_template_map
          net_config (set_var net_config (mkArgs "" "net.host" "y") empty_world).2 with
  | (Ret (active, _, dd), _) =>
      active !! "net.host" = Some "y" ∧ dd !! "net.host" = Some (mkDefault "net.host" "x")
  | _ => False
  end.
Proof.
  destruct (get_active_values_and_metadata template.render_values_in_template_map
              net_config (set_var net_config (mkArgs "" "net.host" "y") empty_world).2)
    as [[[[active ds] dd]|e] w2] eqn:Hrun.
  - destruct (set_var_takes_effect net_config (mkArgs "" "net.host" "y") empty_world
                (set_var net_config (mkArgs "" "net.host" "y") empty_world).2
                w2 active ds dd)
      as (_ & _ & d & merged & Hd & Hname & _ & _ & Hdd & Hactive).
    + by split_and!.
    + apply Forall_nil_2.
    + vm_compute. reflexivity.
    + exact Hrun.
    + clear Hrun. cbn [property_name property_value] in Hname, Hdd, Hactive.
      split; [apply Hactive; reflexivity|]. rewrite Hdd. clear Hdd Hactive.
      unfold net_config in Hd. cbn [defaults] in Hd.
      apply elem_of_cons in Hd as [->|Hd].
      * cbn [default_value]. destruct (decide ("y" = "x")) as [Heq|_];
          [discriminate Heq|reflexivity].
      * apply list_elem_of_singleton in Hd as ->. discriminate Hname.
  - vm_compute in Hrun. discriminate Hrun.
Defined.

Lemma enable_invalid_name_breaks_resolve_witness :
  mkOverride "my service.enabled" "True"
    ∈ stored_overrides net_config
        (enable net_config (mkArgs "my service" "" "") empty_world).2 ∧
  match get_active_values_and_metadata template.render_values_in_template_map net_config
          (enable net_config (mkArgs "my service" "" "") empty_world).2 with
  | (Ret _, _) => False
  | (Raise _, _) => True
  end ∧
  match get_active_values_and_metadata template.render_values_in_template_map net_config
          (set_override net_config "net.host" "y"
             (enable net_config (mkArgs "my service" "" "") empty_world).2).2 with
  | (Ret _, _) => False
  | (Raise _, _) => True
  end.
Proof.
  destruct (enable_invalid_name_breaks_resolve template.render_values_in_template_map
              net_config (mkArgs "my service" "" "") empty_world
              (enable net_config (mkArgs "my service" "" "") empty_world).2)
    as (_ & Hstored & Hbroken).
  - right. by exists "my", "service".
  - by split_and!.
  - vm_compute. reflexivity.
  - split; [exact Hstored|]. split.
    + destruct (get_active_values_and_metadata _ net_config
                  (enable net_config (mkArgs "my service" "" "") empty_world).2)
        as [[resolved|e] w2] eqn:Hrun; [|exact I].
      exact (Hbroken _ Hstored _ _ Hrun).
    + destruct (get_active_values_and_metadata _ net_config
                  (set_override net_config "net.host" "y"
                     (enable net_config (mkArgs "my service" "" "") empty_world).2).2)
        as [[resolved|e] w2] eqn:Hrun; [|exact I].
      refine (Hbroken _ _ _ _ Hrun). clear Hrun Hbroken Hstored.
      vm_compute. left.
Defined.

Lemma disable_takes_back_enable_witness :
  mkOverride "net.enabled" "True"
    ∈ stored_overrides net_config
        (disable net_config (mkArgs "net" "" "")
           (enable net_config (mkArgs "net" "" "") empty_world).2).2
  ↔ override_name (mkOverride "net.enabled" "True") ≠ "net.enabled" ∧
    mkOverride "net.enabled" "True" ∈ stored_overrides net_config empty_world.
Proof.
  destruct (disable_takes_back_enable net_config (mkArgs "net" "" "") empty_world
              (enable net_config (mkArgs "net" "" "") empty_world).2
              (disable net_config (mkArgs "net" "" "")
                 (enable net_config (mkArgs "net" "" "") empty_world).2).2)
    as (_ & _ & Hiff).
  - by split_and!.
  - apply Forall_nil_2.
  - vm_compute. reflexivity.
  - vm_compute. reflexivity.
  - apply Hiff.
Defined.
